(** * Real-Smart-English: SRT helpers and the versioned persistence envelope

    A shallow embedding of [src/utils/srt.ts] (subtitle parsing, line
    cleaning, chapter extraction) and of the two persistence layers
    ([src/store/appStore.persist.ts] and the store of [src/store/appStore.ts]),
    with the helpers and actions of the store that read or feed them,
    followed by the properties the specification states about them and by
    further properties read off the code.

    Conventions of the embedding
    - a JavaScript string is the list of its UTF-16 code units ([jstr]);
      [str "abc"] is the string of an ASCII literal;
    - a finite JavaScript number is the rational it stands for ([Q]), and
      every arithmetic operation of the sources is the exact operation
      followed by the rounding to the nearest double ([Double.fl]); the
      value [-Infinity] of [lastAnchor] is [None];
    - a regular expression literal is transcribed item by item ([regex]) and
      run by a backtracking matcher with the priorities of the ECMAScript
      matcher (greedy quantifiers try the longest run first, lazy ones the
      shortest). *)

From Stdlib Require Import String Ascii.
From Stdlib Require DecimalN.
From Stdlib Require Import List NArith ZArith QArith Qround Qabs Qpower Bool Lia Lqa Sorted
  Permutation.
Import ListNotations.
Local Open Scope nat_scope.

(* ================================================================== *)
(** ** Strings as lists of UTF-16 code units *)
(* ================================================================== *)

Definition jstr := list N.

Fixpoint str (s : string) : jstr :=
  match s with
  | EmptyString => []
  | String a s' => N_of_ascii a :: str s'
  end.

Definition jstr_eqb (a b : jstr) : bool :=
  if list_eq_dec N.eq_dec a b then true else false.

Definition is_empty (s : jstr) : bool :=
  match s with [] => true | _ => false end.

Definition in_range (lo hi c : N) : bool := ((lo <=? c) && (c <=? hi))%N.
Definition isCh (a c : N) : bool := (c =? a)%N.

(** [\d], [A-Z], [a-z], [\w], [\s] and [.] of ECMAScript (no [u] flag). *)
Definition isDigit (c : N) : bool := in_range 48 57 c.
Definition isUpper (c : N) : bool := in_range 65 90 c.
Definition isLower (c : N) : bool := in_range 97 122 c.
Definition isAlpha (c : N) : bool := isUpper c || isLower c.
Definition isWord (c : N) : bool := isAlpha c || isDigit c || isCh 95 c.
Definition isSpace (c : N) : bool :=
  in_range 9 13 c || isCh 32 c || isCh 160 c || isCh 5760 c
  || in_range 8192 8202 c || isCh 8232 c || isCh 8233 c || isCh 8239 c
  || isCh 8287 c || isCh 12288 c || isCh 65279 c.
Definition isDot (c : N) : bool :=
  negb (isCh 10 c || isCh 13 c || isCh 8232 c || isCh 8233 c).

(** [String.prototype.trim]: white space and line terminators, the set of [\s]. *)
Fixpoint trimStart (s : jstr) : jstr :=
  match s with
  | c :: s' => if isSpace c then trimStart s' else s
  | [] => []
  end.

Definition trim (s : jstr) : jstr := rev (trimStart (rev (trimStart s))).

(** [s.slice(0, e)]: a negative [e] counts from the end. *)
Definition slice0 (s : jstr) (e : Z) : jstr :=
  let len := Z.of_nat (length s) in
  let e' := if (e <? 0)%Z then Z.max (len + e) 0 else Z.min e len in
  firstn (Z.to_nat e') s.

Fixpoint starts_with (p s : jstr) : bool :=
  match p, s with
  | [], _ => true
  | a :: p', b :: s' => (a =? b)%N && starts_with p' s'
  | _ :: _, [] => false
  end.

(** [s.lastIndexOf(p)], scanning the start positions from the left and
    remembering the last hit; [-1] when there is none. *)
Fixpoint lastIndexOf_from (p s : jstr) (i : Z) (found : Z) : Z :=
  let found' := if starts_with p s then i else found in
  match s with
  | [] => found'
  | _ :: s' => lastIndexOf_from p s' (i + 1) found'
  end.

Definition lastIndexOf (s p : jstr) : Z := lastIndexOf_from p s 0 (-1).

Fixpoint join (sep : jstr) (l : list jstr) : jstr :=
  match l with
  | [] => []
  | [x] => x
  | x :: l' => x ++ sep ++ join sep l'
  end.

(** [s.split(sep)] for a one-unit separator. *)
Fixpoint split_on (sep : N) (s : jstr) : list jstr :=
  match s with
  | [] => [[]]
  | c :: s' =>
      if (c =? sep)%N then [] :: split_on sep s'
      else match split_on sep s' with
           | l :: ls => (c :: l) :: ls
           | [] => [[c]]
           end
  end.

(** [String(n)] for a non-negative integer, and [padStart(2, "0")]. *)
Fixpoint uint_chars (d : Decimal.uint) : jstr :=
  match d with
  | Decimal.Nil => []
  | Decimal.D0 d' => 48%N :: uint_chars d'
  | Decimal.D1 d' => 49%N :: uint_chars d'
  | Decimal.D2 d' => 50%N :: uint_chars d'
  | Decimal.D3 d' => 51%N :: uint_chars d'
  | Decimal.D4 d' => 52%N :: uint_chars d'
  | Decimal.D5 d' => 53%N :: uint_chars d'
  | Decimal.D6 d' => 54%N :: uint_chars d'
  | Decimal.D7 d' => 55%N :: uint_chars d'
  | Decimal.D8 d' => 56%N :: uint_chars d'
  | Decimal.D9 d' => 57%N :: uint_chars d'
  end.

Definition NatString (n : N) : jstr := uint_chars (N.to_uint n).

Definition padStart2 (s : jstr) : jstr :=
  repeat 48%N (2 - length s) ++ s.

(** [Number(s)] on a string of decimal digits. *)
Definition digits_value (s : jstr) : Z :=
  fold_left (fun acc c => (acc * 10 + (Z.of_N c - 48))%Z) s 0%Z.

(* ================================================================== *)
(** ** Regular expressions

    Every regular expression of the sources is a sequence of quantified
    character classes, anchors and capture parentheses; none nests a
    quantifier or uses alternation.  [Cls P lo hi greedy] is a class [P]
    repeated between [lo] and [hi] times ([None]: unbounded). *)
(* ================================================================== *)

Inductive item :=
| Cls (P : N -> bool) (lo : nat) (hi : option nat) (greedy : bool)
| Bol
| Eol
| WordB
| Open (g : nat)
| Close (g : nat).

Definition regex := list item.

(** The matcher state: the input already passed (reversed), the input left,
    the start offsets of the groups still open and the closed groups. *)
Record mstate := MState {
  pre : list N;
  rest : list N;
  opens : list (nat * nat);
  caps : list (nat * jstr)
}.

Definition init_state (before after : list N) : mstate :=
  MState before after [] [].

Fixpoint run_len (P : N -> bool) (s : list N) : nat :=
  match s with
  | c :: s' => if P c then S (run_len P s') else 0
  | [] => 0
  end.

Fixpoint first_some {A B : Type} (f : A -> option B) (l : list A) : option B :=
  match l with
  | [] => None
  | x :: l' => match f x with Some y => Some y | None => first_some f l' end
  end.

Definition advance (n : nat) (st : mstate) : mstate :=
  MState (rev (firstn n (rest st)) ++ pre st) (skipn n (rest st))
         (opens st) (caps st).

Definition word_at (o : option N) : bool :=
  match o with Some c => isWord c | None => false end.

(** [m r st]: match [r] at the current position, backtracking over the
    repetition counts in priority order. *)
Fixpoint m (r : regex) (st : mstate) : option mstate :=
  match r with
  | [] => Some st
  | Cls P lo hi greedy :: r' =>
      let avail := run_len P (rest st) in
      let top := match hi with Some h => Nat.min h avail | None => avail end in
      if top <? lo then None
      else
        let counts := seq lo (S top - lo) in
        first_some (fun n => m r' (advance n st))
                   (if greedy then rev counts else counts)
  | Bol :: r' => match pre st with [] => m r' st | _ :: _ => None end
  | Eol :: r' => match rest st with [] => m r' st | _ :: _ => None end
  | WordB :: r' =>
      if xorb (word_at (hd_error (pre st))) (word_at (hd_error (rest st)))
      then m r' st
      else None
  | Open g :: r' =>
      m r' (MState (pre st) (rest st) ((g, length (pre st)) :: opens st) (caps st))
  | Close g :: r' =>
      match opens st with
      | (g', p) :: os =>
          m r' (MState (pre st) (rest st) os
                  ((g', rev (firstn (length (pre st) - p) (pre st))) :: caps st))
      | [] => None
      end
  end.

Definition match_at (r : regex) (before after : list N) : option mstate :=
  m r (init_state before after).

(** Leftmost match: try every start position from the current one on. *)
Fixpoint search (r : regex) (before after : list N) : option (list N * mstate) :=
  match match_at r before after with
  | Some st => Some (before, st)
  | None =>
      match after with
      | [] => None
      | c :: after' => search r (c :: before) after'
      end
  end.

(** [re.test(s)] and [s.match(re)] for a regular expression without [g]. *)
Definition test (r : regex) (s : jstr) : bool :=
  match search r [] s with Some _ => true | None => false end.

Definition exec (r : regex) (s : jstr) : option mstate :=
  match search r [] s with Some (_, st) => Some st | None => None end.

Fixpoint group (g : nat) (cs : list (nat * jstr)) : jstr :=
  match cs with
  | [] => []
  | (g', t) :: cs' => if g =? g' then t else group g cs'
  end.

(** [s.replace(re, f)] with the [g] flag: position by position, a match is
    replaced and scanning resumes after it (one unit further after an empty
    match). *)
Fixpoint replace_all_from (fuel : nat) (r : regex) (f : mstate -> jstr)
         (before after : list N) : jstr :=
  match fuel with
  | 0 => after
  | S fuel' =>
      let step :=
        match after with
        | [] => []
        | c :: after' => c :: replace_all_from fuel' r f (c :: before) after'
        end in
      match match_at r before after with
      | Some st =>
          if length (rest st) <? length after
          then f st ++ replace_all_from fuel' r f (pre st) (rest st)
          else f st ++ step
      | None => step
      end
  end.

Definition replace_all (r : regex) (f : mstate -> jstr) (s : jstr) : jstr :=
  replace_all_from (S (length s)) r f [] s.

(** [s.replace(re, t)] without the [g] flag: the leftmost match only. *)
Definition replace_first (r : regex) (t : jstr) (s : jstr) : jstr :=
  match search r [] s with
  | Some (before, st) => rev before ++ t ++ rest st
  | None => s
  end.

Definition const_str (t : jstr) : mstate -> jstr := fun _ => t.
Definition one (P : N -> bool) : item := Cls P 1 (Some 1) true.
Definition opt (P : N -> bool) : item := Cls P 0 (Some 1) true.
Definition plus (P : N -> bool) : item := Cls P 1 None true.
Definition star (P : N -> bool) : item := Cls P 0 None true.
Definition times (n : nat) (P : N -> bool) : item := Cls P n (Some n) true.

(* ================================================================== *)
(** ** JavaScript numbers

    A finite Number is a rational; an arithmetic operation of the sources
    is the exact operation followed by [fl], the rounding to the nearest
    double (IEEE 754 binary64, ties to the even significand, gradual
    underflow).  A result beyond the largest double becomes [INF] or
    [- INF]: [INF] is [2^1024], which is no double, and it stands for
    [Infinity].  [NaN] is not represented: no operation embedded here
    produces it from finite operands. *)
(* ================================================================== *)

Module Double.
Local Open Scope Q_scope.

Definition pow2 (e : Z) : Q := 2 ^ e.

(** [floor (log2 x)] for a positive [x]. *)
Definition ilog2 (x : Q) : Z :=
  let a := Z.log2 (Qnum x) in
  let b := Z.log2 (Zpos (Qden x)) in
  if (Qnum x * 2 ^ b <? Zpos (Qden x) * 2 ^ a)%Z then (a - b - 1)%Z else (a - b)%Z.

(** The nearest integer, the even one of two. *)
Definition rne (x : Q) : Z :=
  let f := Qfloor x in
  match Qcompare (x - inject_Z f) (1 # 2) with
  | Lt => f
  | Gt => (f + 1)%Z
  | Eq => if Z.even f then f else (f + 1)%Z
  end.

(** The nearest multiple of [2^q]. *)
Definition round_at (q : Z) (x : Q) : Q := inject_Z (rne (x / pow2 q)) * pow2 q.

Definition INF : Q := pow2 1024.

(** The binary exponent of [x], not below that of the smallest normal
    double, and the exponent of the last place of a 53-bit significand. *)
Definition expo (x : Q) : Z := Z.max (ilog2 (Qabs x)) (-1022).
Definition ulp_exp (x : Q) : Z := (expo x - 52)%Z.

Definition clamp (r : Q) : Q :=
  if Qle_bool INF r then INF else if Qle_bool r (- INF) then - INF else r.

(** The value of [x] before overflow is looked at. *)
Definition rounded (x : Q) : Q :=
  if Qeq_bool x 0 then 0 else round_at (ulp_exp x) x.

(** The double nearest to [x]. *)
Definition fl (x : Q) : Q :=
  if Qeq_bool x 0 then 0 else Qred (clamp (round_at (ulp_exp x) x)).

(** [a + b], [a - b], [a * b] and [a / b] of JavaScript. *)
Definition add (a b : Q) : Q := fl (a + b).
Definition sub (a b : Q) : Q := fl (a - b).
Definition mul (a b : Q) : Q := fl (a * b).
Definition div (a b : Q) : Q := fl (a / b).

(** [Number(s)] on a string of decimal digits. *)
Definition Number_of_digits (s : jstr) : Q := fl (inject_Z (digits_value s)).

(** *** [String(x)] for an integer [x >= 0]

    Number::toString takes the shortest decimal [s * 10^p] that rounds to
    [x], of several the closest to [x], and of two as close the one with [s]
    even.  Of the multiples of [10^p] only the two around [x] can be the
    closest. *)

Definition rounds_to (x v : Z) : bool := Qeq_bool (fl (inject_Z v)) (inject_Z x).

Definition candidate (x : Z) (p : nat) : option Z :=
  let u := (10 ^ Z.of_nat p)%Z in
  let lo := (x / u * u)%Z in
  let hi := (lo + u)%Z in
  match rounds_to x lo, rounds_to x hi with
  | true, true =>
      if (x - lo <? hi - x)%Z then Some lo
      else if (hi - x <? x - lo)%Z then Some hi
      else if Z.even (x / u) then Some lo else Some hi
  | true, false => Some lo
  | false, true => Some hi
  | false, false => None
  end.

(** The scales from [10^p] down to [10^0]. *)
Fixpoint shortest (x : Z) (p : nat) : Z :=
  match candidate x p with
  | Some v => v
  | None => match p with O => x | S p1 => shortest x p1 end
  end.

Fixpoint strip_zeros (rev_digits : jstr) : jstr :=
  match rev_digits with
  | c :: l => if (c =? 48)%N then strip_zeros l else rev_digits
  | [] => []
  end.

(** The digits of an integer below [2^53] are its shortest decimal.  A
    decimal of more than 21 digits, so from [1e21] on, is written in the
    exponent form [d.ddde+n]. *)
Definition String_of_int (x : Z) : jstr :=
  if (x <? 2 ^ 53)%Z then NatString (Z.to_N x)
  else if (x =? 2 ^ 1024)%Z then str "Infinity"
  else
    let v := shortest x (length (NatString (Z.to_N x)) - 1)%nat in
    let ds := NatString (Z.to_N v) in
    let n := length ds in
    if (n <=? 21)%nat then ds
    else
      match rev (strip_zeros (rev ds)) with
      | [] => ds
      | d :: more =>
          (d :: match more with [] => [] | _ :: _ => 46%N :: more end)
          ++ str "e+" ++ NatString (N.of_nat (n - 1)%nat)
      end.

End Double.

(* ================================================================== *)
(** ** [src/utils/srt.ts] *)
(* ================================================================== *)

Module Srt.

Definition ch (a : ascii) : N := N_of_ascii a.

(** [start] and [end] are finite Numbers.  [index] is the integer the
    Number is ([2^1024] for [Infinity], which an index line of more than 308
    digits gives). *)
Record SrtEntry := mkEntry {
  index : Z;
  start : Q;
  end_ : Q;
  text : jstr
}.

Record Chapter := mkChapter {
  at_ : jstr;
  title : jstr
}.

(** [/(\d{2}):(\d{2}):(\d{2}),(\d{3})\s*-->\s*(\d{2}):(\d{2}):(\d{2}),(\d{3})/] *)
Definition TS_RE : regex :=
  [ Open 1; times 2 isDigit; Close 1; one (isCh (ch ":"));
    Open 2; times 2 isDigit; Close 2; one (isCh (ch ":"));
    Open 3; times 2 isDigit; Close 3; one (isCh (ch ","));
    Open 4; times 3 isDigit; Close 4;
    star isSpace; one (isCh (ch "-")); one (isCh (ch "-")); one (isCh (ch ">"));
    star isSpace;
    Open 5; times 2 isDigit; Close 5; one (isCh (ch ":"));
    Open 6; times 2 isDigit; Close 6; one (isCh (ch ":"));
    Open 7; times 2 isDigit; Close 7; one (isCh (ch ","));
    Open 8; times 3 isDigit; Close 8 ].

(** [Number(x) || 0] on the digits of a capture ([Number] of digits is never
    [NaN], and [0 || 0] is [0]), then [hh * 3600 + mm * 60 + ss + mss / 1000],
    every operation rounded. *)
Definition tsToSec (h mi s ms : jstr) : Q :=
  let hh := Double.Number_of_digits h in
  let mm := Double.Number_of_digits mi in
  let ss := Double.Number_of_digits s in
  let mss := Double.Number_of_digits ms in
  Double.add (Double.add (Double.add (Double.mul hh 3600) (Double.mul mm 60)) ss)
             (Double.div mss 1000).

(** [Math.floor], [Math.max] and [%] are exact; the two divisions are
    rounded, and [String] is Number::toString. *)
Definition secToHHMM (sec : Q) : jstr :=
  let t := Z.max 0 (Qfloor sec) in
  let hh := Qfloor (Double.div (inject_Z t) 3600) in
  let mm := Qfloor (Double.div (inject_Z (t mod 3600)) 60) in
  (if (hh >? 0)%Z then padStart2 (Double.String_of_int hh) ++ str ":" else [])
  ++ padStart2 (Double.String_of_int mm).

(** *** cleanLine *)

Definition isOpenBr (c : N) : bool := isCh (ch "[") c || isCh (ch "(") c.
Definition isCloseBr (c : N) : bool := isCh (ch "]") c || isCh (ch ")") c.
Definition isNoteStar (c : N) : bool := isCh 9834 c || isCh (ch "*") c.
Definition isLabelCh (c : N) : bool :=
  isAlpha c || isDigit c || isCh (ch ".") c || isCh (ch "_") c
  || isCh (ch " ") c || isCh (ch "-") c.
Definition isAlphaSp (c : N) : bool := isAlpha c || isCh (ch " ") c.
Definition isPunct (c : N) : bool :=
  isCh (ch ".") c || isCh (ch ",") c || isCh (ch "-") c || isCh 8212 c
  || isCh 8211 c || isCh (ch "!") c || isCh (ch "?") c || isCh (ch ":") c
  || isCh (ch ";") c.

(** [/\ufeff/g] and [/[\u0000-\u001F]/g] *)
Definition BOM_RE : regex := [ one (isCh 65279) ].
Definition CTRL_RE : regex := [ one (in_range 0 31) ].
(** [/<[^>]+>/g] and [/\{\\[^}]+\}/g] *)
Definition HTML_RE : regex :=
  [ one (isCh (ch "<")); plus (fun c => negb (isCh (ch ">") c)); one (isCh (ch ">")) ].
Definition ASS_RE : regex :=
  [ one (isCh (ch "{")); one (isCh 92); plus (fun c => negb (isCh (ch "}") c));
    one (isCh (ch "}")) ].
(** [/^[\[\(]?[A-Z][A-Za-z0-9._ -]{0,30}[\]\)]?:\s+/] *)
Definition LABEL_RE : regex :=
  [ Bol; opt isOpenBr; one isUpper; Cls isLabelCh 0 (Some 30) true; opt isCloseBr;
    one (isCh (ch ":")); plus isSpace ].
(** [/[\[\(]?[♪\*]?[A-Za-z ]{2,40}[♪\*]?[\]\)]/gi]; case folding adds nothing to
    these classes (a non-ASCII unit never canonicalises to an ASCII one). *)
Definition CUE_RE : regex :=
  [ opt isOpenBr; opt isNoteStar; Cls isAlphaSp 2 (Some 40) true; opt isNoteStar;
    one isCloseBr ].
(** [/[“”]/g], [/[‘’]/g], [/[–—]/g] *)
Definition isDQuote (c : N) : bool := isCh 8220 c || isCh 8221 c.
Definition isSQuote (c : N) : bool := isCh 8216 c || isCh 8217 c.
Definition isDash (c : N) : bool := isCh 8211 c || isCh 8212 c.
Definition DQUOTE_RE : regex := [ one isDQuote ].
Definition SQUOTE_RE : regex := [ one isSQuote ].
Definition DASH_RE : regex := [ one isDash ].
(** [/\s+/g] *)
Definition WS_RE : regex := [ plus isSpace ].
(** [/^[\.\,\-\—\–\!\?\:;]+$/] *)
Definition PUNCT_ONLY_RE : regex := [ Bol; plus isPunct; Eol ].

Definition cleanLine (s : jstr) : jstr :=
  let txt := s in
  let txt := replace_all CTRL_RE (const_str (str " "))
               (replace_all BOM_RE (const_str []) txt) in
  let txt := replace_all ASS_RE (const_str (str " "))
               (replace_all HTML_RE (const_str (str " ")) txt) in
  let txt := replace_first LABEL_RE [] txt in
  let txt := replace_all CUE_RE (const_str (str " ")) txt in
  let txt := replace_all DASH_RE (const_str (str "-"))
               (replace_all SQUOTE_RE (const_str (str "'"))
                  (replace_all DQUOTE_RE (const_str [34%N]) txt)) in
  let txt := trim (replace_all WS_RE (const_str (str " ")) txt) in
  if test PUNCT_ONLY_RE txt then [] else txt.

(** *** parseSrt *)

Definition at' {A : Type} (arr : list A) (i : nat) : option A := nth_error arr i.

(** [!l || !l.trim()] *)
Definition blank (l : option jstr) : bool :=
  match l with
  | None => true
  | Some s => is_empty s || is_empty (trim s)
  end.

(** [for (; i < lines.length; i++) { if (blank) continue; break; }] *)
Fixpoint skip_blank_n (n : nat) (lines : list jstr) (i : nat) : nat :=
  match n with
  | 0 => i
  | S n' =>
      if i <? length lines
      then if blank (at' lines i) then skip_blank_n n' lines (S i) else i
      else i
  end.

Definition skip_blank (lines : list jstr) (i : nat) : nat :=
  skip_blank_n (length lines - i) lines i.

(** The text lines of a cue, up to the first blank line. *)
Fixpoint collect_n (n : nat) (lines : list jstr) (i : nat) (buf : list jstr)
  : nat * list jstr :=
  match n with
  | 0 => (i, buf)
  | S n' =>
      if i <? length lines
      then match at' lines i with
           | None | Some [] => (i, buf)
           | Some lineRaw =>
               if is_empty (trim lineRaw) then (i, buf)
               else let cleaned := cleanLine lineRaw in
                    collect_n n' lines (S i)
                      (if is_empty cleaned then buf else buf ++ [cleaned])
           end
      else (i, buf)
  end.

Definition collect (lines : list jstr) (i : nat) : nat * list jstr :=
  collect_n (length lines - i) lines i [].

(** [/^\d+$/] *)
Definition INT_RE : regex := [ Bol; plus isDigit; Eol ].

Inductive step := Break (entries : list SrtEntry) | Continue (i : nat) (entries : list SrtEntry).

(** One turn of [while (i < lines.length)]. *)
Definition parse_step (lines : list jstr) (i : nat) (entries : list SrtEntry) : step :=
  let i := skip_blank lines i in
  if length lines <=? i then Break entries else
  match at' lines i with
  | None | Some [] => Break entries
  | Some maybeIndexRaw =>
      let maybeIndex := trim maybeIndexRaw in
      let '(idx, i) :=
        if test INT_RE maybeIndex
        then (Qfloor (Double.Number_of_digits maybeIndex), S i)
        else (Z.of_nat (length entries) + 1, i)%Z in
      if length lines <=? i then Break entries else
      match at' lines i with
      | None | Some [] => Break entries
      | Some tsLineRaw =>
          let tsLine := trim tsLineRaw in
          match exec TS_RE tsLine with
          | None => Continue (S i) entries
          | Some mt =>
              let g n := group n (caps mt) in
              let start := tsToSec (g 1) (g 2) (g 3) (g 4) in
              let end_ := tsToSec (g 5) (g 6) (g 7) (g 8) in
              let '(i, buf) := collect lines (S i) in
              let text := trim (replace_all WS_RE (const_str (str " "))
                                  (join (str " ") buf)) in
              let entries :=
                if is_empty text then entries
                else entries ++ [mkEntry idx start end_ text] in
              Continue (skip_blank lines i) entries
          end
      end
  end.

Fixpoint parse_loop (fuel : nat) (lines : list jstr) (i : nat)
         (entries : list SrtEntry) : option (list SrtEntry) :=
  if length lines <=? i then Some entries else
  match fuel with
  | 0 => None
  | S fuel' =>
      match parse_step lines i entries with
      | Break es => Some es
      | Continue i' es => parse_loop fuel' lines i' es
      end
  end.

(** [entries.sort((a, b) => a.start - b.start)]: the sort is stable.  The
    difference of two doubles is rounded to a double of the same sign
    (gradual underflow keeps it from becoming zero), so the order is that of
    the exact values. *)
Fixpoint insert_by_start (e : SrtEntry) (l : list SrtEntry) : list SrtEntry :=
  match l with
  | [] => [e]
  | x :: l' =>
      if Qle_bool (start e) (start x) then e :: l
      else x :: insert_by_start e l'
  end.

Definition sort_by_start (l : list SrtEntry) : list SrtEntry :=
  fold_right insert_by_start [] l.

Definition parseSrt_lines (raw : jstr) : list jstr :=
  split_on 10 (replace_all [ one (isCh 13) ] (const_str []) raw).

(** [None] would be a scan that ran out of fuel; [parse_loop_total] below
    shows that it does not happen. *)
Definition parseSrt_opt (raw : jstr) : option (list SrtEntry) :=
  if is_empty raw then Some []
  else
    let lines := parseSrt_lines raw in
    match parse_loop (length lines) lines 0 [] with
    | Some entries => Some (sort_by_start entries)
    | None => None
    end.

Definition parseSrt (raw : jstr) : list SrtEntry :=
  match parseSrt_opt raw with Some es => es | None => [] end.

Definition LF : jstr := [10%N].

Definition scenario : jstr :=
  join LF
    [ str "1";
      str "00:00:01,000 --> 00:00:03,500";
      str "Hello <b>there</b>, friend!";
      [];
      str "00:00:05,200 --> 00:00:07,000";
      str "[music] This is a test." ].

(** *** extractChaptersFromSrt *)

Record Opts := mkOpts {
  minGapSec : option Q;
  titleMaxLen : option Z;
  preferSentenceEnds : option bool
}.

Definition or_default {A : Type} (d : A) (o : option A) : A :=
  match o with Some x => x | None => d end.

Definition opt_minGapSec (opts : option Opts) : Q :=
  match opts with Some o => or_default 60%Q (minGapSec o) | None => 60%Q end.
Definition opt_titleMaxLen (opts : option Opts) : Z :=
  match opts with Some o => or_default 48%Z (titleMaxLen o) | None => 48%Z end.
Definition opt_preferSentenceEnds (opts : option Opts) : bool :=
  match opts with Some o => or_default true (preferSentenceEnds o) | None => true end.

Definition isSentEnd (c : N) : bool :=
  isCh (ch ".") c || isCh (ch "!") c || isCh (ch "?") c.

(** [/^(.+?[\.!\?])\s+/] *)
Definition SENTENCE_RE : regex :=
  [ Bol; Open 1; Cls isDot 1 None false; one isSentEnd; Close 1; plus isSpace ].
(** [/\s*[\.\!\?]+$/] *)
Definition TRAIL_RE : regex := [ star isSpace; plus isSentEnd; Eol ].
(** [/\b([a-z])/g] *)
Definition WORD_START_RE : regex := [ WordB; Open 1; one isLower; Close 1 ].
(** [/\w/] *)
Definition W_RE : regex := [ one isWord ].
(** [/[^a-z0-9]+/g] *)
Definition NON_ALNUM_RE : regex := [ plus (fun c => negb (isLower c || isDigit c)) ].

Definition ELLIPSIS : jstr := [8230%N].
Definition SEP_DASH : jstr := str " - ".
Definition SEP_EMDASH : jstr := [32%N; 8212%N; 32%N].
Definition SEP_COMMA : jstr := str ", ".
Definition SEP_COLON : jstr := str ": ".

(** [c.toUpperCase()] of a unit matched by [[a-z]]. *)
Definition upper_unit (c : N) : N := if isLower c then (c - 32)%N else c.

Definition pickTitle (titleMaxLen : Z) (preferSentenceEnds : bool) (txt : jstr) : jstr :=
  let t := trim txt in
  let t :=
    if preferSentenceEnds then
      match exec SENTENCE_RE t with
      | Some mt => group 1 (caps mt)
      | None => t
      end
    else t in
  let t := replace_first TRAIL_RE [] t in
  let t :=
    if (Z.of_nat (length t) >? titleMaxLen)%Z then
      let cut := slice0 t (titleMaxLen + 5) in
      let lastSep :=
        Z.max (Z.max (lastIndexOf cut SEP_DASH) (lastIndexOf cut SEP_EMDASH))
              (Z.max (lastIndexOf cut SEP_COMMA) (lastIndexOf cut SEP_COLON)) in
      let t := trim (if (lastSep >? 20)%Z then slice0 cut lastSep else cut) in
      if (Z.of_nat (length t) >? titleMaxLen)%Z
      then trim (slice0 t (titleMaxLen - 1)) ++ ELLIPSIS
      else t
    else t in
  let t := replace_all WORD_START_RE (fun mt => map upper_unit (group 1 (caps mt))) t in
  if is_empty t then str "Chapter" else t.

(** [e.start - lastAnchor >= minGapSec], with [lastAnchor = -Infinity] as
    [None]: the difference is then [Infinity]. *)
Definition gapOk (minGap : Q) (lastAnchor : option Q) (e : SrtEntry) : bool :=
  match lastAnchor with
  | None => true
  | Some a => Qle_bool minGap (Double.sub (start e) a)
  end.

(** [/\w/.test(e.text) && e.text.length >= 18] *)
Definition contentful (e : SrtEntry) : bool :=
  test W_RE (text e) && (18 <=? length (text e)).

Definition has_at (a : jstr) (chapters : list Chapter) : bool :=
  existsb (fun c => jstr_eqb (at_ c) a) chapters.

(** The scan loop: the state is [(chapters, lastAnchor)]. *)
Definition scan_step (minGap : Q) (pick : jstr -> jstr)
           (acc : list Chapter * option Q) (e : SrtEntry) : list Chapter * option Q :=
  let '(chapters, lastAnchor) := acc in
  if negb (gapOk minGap lastAnchor e) || negb (contentful e) then acc
  else
    let a := secToHHMM (start e) in
    let t := pick (text e) in
    if negb (has_at a chapters) then (chapters ++ [mkChapter a t], Some (start e))
    else acc.

Definition scan (minGap : Q) (pick : jstr -> jstr) (entries : list SrtEntry)
  : list Chapter * option Q :=
  fold_left (scan_step minGap pick) entries ([], None).

(** [entries[0]?.text || "Intro"] *)
Definition firstText (entries : list SrtEntry) : jstr :=
  match entries with
  | e :: _ => if is_empty (text e) then str "Intro" else text e
  | [] => str "Intro"
  end.

Definition ensure_zero (pick : jstr -> jstr) (entries : list SrtEntry)
           (chapters : list Chapter) : list Chapter :=
  if negb (has_at (str "00") chapters)
  then mkChapter (str "00") (pick (firstText entries)) :: chapters
  else chapters.

(** [toLowerCase] as far as the key can see it: besides the ASCII capitals only
    U+212A (Kelvin sign, to [k]) and U+0130 (dotted capital I, to [i] and
    U+0307) produce a unit of [[a-z0-9]]; every other unit outside ASCII
    lower-cases to units outside ASCII, which the key turns into a separator
    either way, so it is left as it is. *)
Definition lower_unit (c : N) : jstr :=
  if isUpper c then [(c + 32)%N]
  else if isCh 8490 c then [107%N]
  else if isCh 304 c then [105%N; 775%N]
  else [c].

Definition toLowerCase (s : jstr) : jstr := flat_map lower_unit s.

(** [c.title.toLowerCase().replace(/[^a-z0-9]+/g, " ").trim()] *)
Definition title_key (t : jstr) : jstr :=
  trim (replace_all NON_ALNUM_RE (const_str (str " ")) (toLowerCase t)).

(** [k && k !== prev] *)
Definition keepb {A : Type} (key : A -> jstr) (prev : jstr) (c : A) : bool :=
  negb (is_empty (key c)) && negb (jstr_eqb (key c) prev).

(** The final pass; [prev] is assigned on every turn. *)
Fixpoint dedup_from {A : Type} (key : A -> jstr) (prev : jstr) (l : list A) : list A :=
  match l with
  | [] => []
  | c :: l' =>
      let k := key c in
      if negb (is_empty k) && negb (jstr_eqb k prev)
      then c :: dedup_from key k l'
      else dedup_from key k l'
  end.

Definition chapter_key (c : Chapter) : jstr := title_key (title c).

Definition dedup (chapters : list Chapter) : list Chapter :=
  dedup_from chapter_key [] chapters.

Definition assemble (opts : option Opts) (entries : list SrtEntry) : list Chapter :=
  let pick := pickTitle (opt_titleMaxLen opts) (opt_preferSentenceEnds opts) in
  ensure_zero pick entries (fst (scan (opt_minGapSec opts) pick entries)).

Definition extractChapters_entries (opts : option Opts) (entries : list SrtEntry)
  : list Chapter :=
  match entries with
  | [] => []
  | _ :: _ => dedup (assemble opts entries)
  end.

(** [Array.isArray(rawOrEntries) ? rawOrEntries : parseSrt(rawOrEntries)] *)
Definition entries_of (rawOrEntries : jstr + list SrtEntry) : list SrtEntry :=
  match rawOrEntries with
  | inr entries => entries
  | inl raw => parseSrt raw
  end.

Definition extractChaptersFromSrt (rawOrEntries : jstr + list SrtEntry)
           (opts : option Opts) : list Chapter :=
  extractChapters_entries opts (entries_of rawOrEntries).

(** *** Provenance

    A copy of the loop that also remembers, next to each chapter, the entry it
    was made from ([None] for the chapter synthesised at ["00"]).  Erasing the
    provenance gives back the chapters of the code ([extract_traced_erase]). *)

Definition Traced : Type := option SrtEntry * Chapter.

Definition scan_step_traced (minGap : Q) (pick : jstr -> jstr)
           (acc : list (SrtEntry * Chapter) * option Q) (e : SrtEntry)
  : list (SrtEntry * Chapter) * option Q :=
  let '(chapters, lastAnchor) := acc in
  if negb (gapOk minGap lastAnchor e) || negb (contentful e) then acc
  else
    let a := secToHHMM (start e) in
    let t := pick (text e) in
    if negb (has_at a (map snd chapters))
    then (chapters ++ [(e, mkChapter a t)], Some (start e))
    else acc.

Definition scan_traced (minGap : Q) (pick : jstr -> jstr) (entries : list SrtEntry)
  : list (SrtEntry * Chapter) * option Q :=
  fold_left (scan_step_traced minGap pick) entries ([], None).

Definition real (x : SrtEntry * Chapter) : Traced := (Some (fst x), snd x).

Definition assemble_traced (opts : option Opts) (entries : list SrtEntry) : list Traced :=
  let pick := pickTitle (opt_titleMaxLen opts) (opt_preferSentenceEnds opts) in
  let chapters := fst (scan_traced (opt_minGapSec opts) pick entries) in
  if negb (has_at (str "00") (map snd chapters))
  then (None, mkChapter (str "00") (pick (firstText entries))) :: map real chapters
  else map real chapters.

Definition extract_traced (opts : option Opts) (entries : list SrtEntry) : list Traced :=
  match entries with
  | [] => []
  | _ :: _ =>
      dedup_from (fun x : Traced => chapter_key (snd x)) [] (assemble_traced opts entries)
  end.

(** *** The dedup pass as the specification words it

    "keep a chapter only if its key is non-empty and differs from the
    immediately preceding kept chapter's key": [prev] moves only when a chapter
    is kept. *)
Fixpoint dedup_kept_from (prev : jstr) (l : list Chapter) : list Chapter :=
  match l with
  | [] => []
  | c :: l' =>
      let k := chapter_key c in
      if negb (is_empty k) && negb (jstr_eqb k prev)
      then c :: dedup_kept_from k l'
      else dedup_kept_from prev l'
  end.

Definition dedup_kept (chapters : list Chapter) : list Chapter :=
  dedup_kept_from [] chapters.

(** The code's rule, position by position: a chapter is kept when its key is
    non-empty and differs from the key of the chapter just before it in the
    assembled list, kept or not (the empty key before the first). *)
Definition dedup_by_position (chapters : list Chapter) : list Chapter :=
  map snd
    (filter (fun pc : jstr * Chapter => keepb chapter_key (fst pc) (snd pc))
            (combine ([] :: map chapter_key chapters) chapters)).

(** "contains at least one word character and is at least 18 characters long" *)
Definition eligible (e : SrtEntry) : Prop :=
  existsb isWord (text e) = true /\ 18 <= length (text e).

Definition count_at (a : jstr) (chapters : list Chapter) : nat :=
  length (filter (fun c => jstr_eqb (at_ c) a) chapters).

(** A well-formed anchor: two digits below 60, optionally preceded by at least
    two digits and a colon. *)
Definition two_digits_below_60 (s : jstr) : bool :=
  match s with
  | [a; b] => isDigit a && isDigit b && (digits_value s <? 60)%Z
  | _ => false
  end.

Fixpoint split_colon (s : jstr) : option (jstr * jstr) :=
  match s with
  | [] => None
  | c :: s' =>
      if isCh (ch ":") c then Some ([], s')
      else match split_colon s' with
           | Some (a, b) => Some (c :: a, b)
           | None => None
           end
  end.

Definition well_formed_anchor (s : jstr) : bool :=
  match split_colon s with
  | None => two_digits_below_60 s
  | Some (hh, mm) =>
      (2 <=? length hh) && forallb isDigit hh && two_digits_below_60 mm
  end.

(** The whole minutes an anchor reads as: sixty times its hours plus its
    minutes. *)
Definition anchor_minutes (s : jstr) : Z :=
  match split_colon s with
  | None => digits_value s
  | Some (hh, mm) => (digits_value hh * 60 + digits_value mm)%Z
  end.

(** The anchor of [h] hours and [m] minutes, in digits. *)
Definition anchor_of (h m : Z) : jstr :=
  (if (h >? 0)%Z then padStart2 (NatString (Z.to_N h)) ++ str ":" else [])
  ++ padStart2 (NatString (Z.to_N m)).

(** *** Predicates of the proofs *)

Definition hd_ws (l : jstr) : bool :=
  match l with c :: _ => isSpace c | [] => false end.

(** Every white-space unit is a plain space and is not followed by another. *)
Fixpoint ws_single (l : jstr) : bool :=
  match l with
  | [] => true
  | c :: l' => (if isSpace c then isCh 32 c && negb (hd_ws l') else true) && ws_single l'
  end.

(** ... and is followed by a unit that is not white space. *)
Fixpoint ws_tight (l : jstr) : bool :=
  match l with
  | [] => true
  | c :: l' =>
      (if isSpace c
       then isCh 32 c && match l' with d :: _ => negb (isSpace d) | [] => false end
       else true)
      && ws_tight l'
  end.

(** The units a cleaned line cannot hold: controls, the byte-order mark,
    curly quotes and long dashes. *)
Definition plain (c : N) : Prop :=
  (((in_range 0 31 c = false /\ isCh 65279 c = false) /\ isDQuote c = false)
   /\ isSQuote c = false) /\ isDash c = false.

(** What [cleanLine] returns when it does not return the empty string. *)
Record cleaned (w : jstr) : Prop := {
  cleaned_plain : Forall plain w;
  cleaned_tight : ws_tight w = true;
  cleaned_hd : hd_ws w = false;
  cleaned_last : hd_ws (rev w) = false;
  cleaned_words : test PUNCT_ONLY_RE w = false
}.

(** What the scan loop keeps true of the chapters it has pushed. *)
Definition made_from (pick : jstr -> jstr) (x : SrtEntry * Chapter) : Prop :=
  snd x = mkChapter (secToHHMM (start (fst x))) (pick (text (fst x))).

(** The gap the loop measures: the rounded difference of the starts. *)
Definition gap_rel (minGap : Q) (e1 e2 : SrtEntry) : Prop :=
  (minGap <= Double.sub (start e2) (start e1))%Q.

(** Every two neighbours of a list are related. *)
Fixpoint chained {A : Type} (R : A -> A -> Prop) (l : list A) : Prop :=
  match l with
  | x :: ((y :: _) as l') => R x y /\ chained R l'
  | _ => True
  end.

(** [lastAnchor] is the start of the entry of the last chapter pushed. *)
Definition last_start (chs : list (SrtEntry * Chapter)) : option Q :=
  match rev chs with
  | x :: _ => Some (start (fst x))
  | [] => None
  end.

Record scan_inv (minGap : Q) (pick : jstr -> jstr) (entries : list SrtEntry)
       (acc : list (SrtEntry * Chapter) * option Q) : Prop := {
  inv_made : Forall (fun x => made_from pick x /\ contentful (fst x) = true
                              /\ In (fst x) entries) (fst acc);
  inv_nodup : NoDup (map at_ (map snd (fst acc)));
  inv_last : snd acc = last_start (fst acc);
  inv_chained : chained (gap_rel minGap) (map fst (fst acc));
  inv_sorted : (0 < minGap)%Q -> StronglySorted (gap_rel minGap) (map fst (fst acc));
  inv_below : (0 < minGap)%Q ->
              forall a, snd acc = Some a ->
                        Forall (fun x => (start (fst x) <= a)%Q) (fst acc)
}.

Definition traced_ok (opts : option Opts) (entries : list SrtEntry) (x : Traced) : Prop :=
  let pick := pickTitle (opt_titleMaxLen opts) (opt_preferSentenceEnds opts) in
  match fst x with
  | Some e => snd x = mkChapter (secToHHMM (start e)) (pick (text e))
              /\ contentful e = true /\ In e entries
  | None => snd x = mkChapter (str "00") (pick (firstText entries))
  end.

Definition traced_gap (opts : option Opts) (x y : Traced) : Prop :=
  forall e1 e2, fst x = Some e1 -> fst y = Some e2 ->
                (opt_minGapSec opts <= Double.sub (start e2) (start e1))%Q.

(** *** Sample inputs *)

Definition entry_at (sec : Z) (t : string) : SrtEntry :=
  mkEntry 1 (inject_Z sec) (inject_Z sec + 1) (str t).

Definition sample_two : list SrtEntry :=
  [ entry_at 0 "Introduction to the topic";
    entry_at 60 "Another sentence of the topic" ].

(** Two entries whose starts, [2^-60] and [60], are less than a minute
    apart. *)
Definition sample_close : list SrtEntry :=
  [ mkEntry 1 (1 # 1152921504606846976) 1 (str "Introduction to the topic");
    mkEntry 2 60 61 (str "Another sentence of the topic") ].

(** Two cues whose starts are written sixty seconds apart, at 4.002 s and
    at 64.002 s. *)
Definition sample_rounded_raw : jstr :=
  join LF [ str "00:00:04,002 --> 00:00:05,000"; str "Introduction to the topic"; [];
            str "00:01:04,002 --> 00:01:05,000"; str "Another sentence of the topic" ].

(** The double nearest to [3.6e24]. *)
Definition sec_huge : Q := Double.fl (inject_Z (36 * 10 ^ 23)).

Definition sample_dashes : list SrtEntry := [ entry_at 0 "---" ].

Definition sample_repeat : list SrtEntry :=
  [ entry_at 0 "Introduction to the topic";
    entry_at 60 "__________________";
    entry_at 120 "Introduction to the topic" ].

Definition sample_stars_raw : jstr :=
  join LF [ str "00:00:00,000 --> 00:00:01,000"; str "***" ].

Definition sample_dots : list SrtEntry := [ entry_at 0 ".................. a" ].

Definition opts_titleMaxLen (n : Z) : option Opts := Some (mkOpts None (Some n) None).

End Srt.


(* ================================================================== *)
(** ** [srtToPlainText] and what the parser's entries look like *)
(* ================================================================== *)

Module SrtText.
Import Srt.

(** [pushBuf]: the trimmed buffer goes to [merged] unless it is empty. *)
Definition pushBuf (merged : list jstr) (buf : jstr) : list jstr :=
  let t := trim buf in
  if is_empty t then merged else merged ++ [t].

(** [buf ? buf + " " + line : line] *)
Definition extended (buf line : jstr) : jstr :=
  if is_empty buf then line else buf ++ str " " ++ line.

(** One turn of the loop over the entries; the state is [(merged, buf)]. *)
Definition merge_step (acc : list jstr * jstr) (e : SrtEntry) : list jstr * jstr :=
  let '(merged, buf) := acc in
  let line := text e in
  if length (extended buf line) <=? 280
  then (merged, extended buf line)
  else (pushBuf merged buf, line).

(** The paragraphs, before they are joined with line feeds. *)
Definition paragraphs (entries : list SrtEntry) : list jstr :=
  let '(merged, buf) := fold_left merge_step entries ([], []) in
  pushBuf merged buf.

Definition srtToPlainText (raw : jstr) : jstr :=
  if is_empty raw then []
  else
    match parseSrt raw with
    | [] => []
    | entries => join LF (paragraphs entries)
    end.

(** A line that holds a timestamp, as the parser tests it. *)
Definition is_timestamp (line : jstr) : bool :=
  match exec TS_RE (trim line) with
  | Some _ => true
  | None => false
  end.

(** A text that is not empty, neither starts nor ends with white space, and
    whose white space is single plain spaces. *)
Definition tidy (w : jstr) : Prop :=
  w <> [] /\ hd_ws w = false /\ hd_ws (rev w) = false /\ ws_tight w = true.

(** A text with something in it and no white space at either end. *)
Definition edges (b : jstr) : Prop :=
  b <> [] /\ hd_ws b = false /\ hd_ws (rev b) = false.

(** The buffer as a list of paragraphs: none when it is empty. *)
Definition nonempty (b : jstr) : list jstr := if is_empty b then [] else [b].

(** The paragraphs in a row, a space before each. *)
Definition lead (l : list jstr) : jstr := concat (map (fun p => 32%N :: p) l).

Definition by_start (a b : SrtEntry) : Prop := (start a <= start b)%Q.

Definition sample_srt : jstr :=
  join LF
    [ str "1"; str "00:00:01,000 --> 00:00:03,500"; str "Good morning everyone";
      [];
      str "2"; str "00:00:05,200 --> 00:00:07,000"; str "and welcome back" ].

End SrtText.

(* ================================================================== *)
(** ** JavaScript values and JSON

    The values the persistence code handles are the ones [JSON.parse] builds,
    and [undefined].  An object is the list of its own properties in
    enumeration order.  A number is kept as the string [Number::toString]
    prints for it, which identifies a finite number; reading a numeric literal
    is left to the platform through [canon], the literal of the number a text
    denotes ([canon t = t] for what [Number::toString] prints). *)
(* ================================================================== *)

Module Json.

#[local] Unset Elimination Schemes.
Inductive json :=
| JUndef
| JNull
| JBool (b : bool)
| JNum (lit : jstr)
| JStr (s : jstr)
| JArr (items : list json)
| JObj (members : list (jstr * json)).
#[local] Set Elimination Schemes.

Inductive jstype := TUndefined | TObject | TBoolean | TNumber | TString.

Definition typeof (v : json) : jstype :=
  match v with
  | JUndef => TUndefined
  | JNull | JArr _ | JObj _ => TObject
  | JBool _ => TBoolean
  | JNum _ => TNumber
  | JStr _ => TString
  end.

Definition is_object_type (v : json) : bool :=
  match typeof v with TObject => true | _ => false end.

Definition is_string (v : json) : bool :=
  match v with JStr _ => true | _ => false end.

(** [!!v] *)
Definition truthy (v : json) : bool :=
  match v with
  | JUndef | JNull => false
  | JBool b => b
  | JNum lit => negb (jstr_eqb lit (str "0"))
  | JStr s => negb (is_empty s)
  | JArr _ | JObj _ => true
  end.

Fixpoint lookup (k : jstr) (l : list (jstr * json)) : option json :=
  match l with
  | [] => None
  | (k', v) :: l' => if jstr_eqb k' k then Some v else lookup k l'
  end.

(** ["k" in o] for a key that [Object.prototype] does not define. *)
Definition has_key (k : jstr) (l : list (jstr * json)) : bool :=
  match lookup k l with Some _ => true | None => false end.

(** [v.k] for a key that arrays and strings do not define. *)
Definition get (v : json) (k : jstr) : json :=
  match v with
  | JObj l => match lookup k l with Some x => x | None => JUndef end
  | _ => JUndef
  end.

(** An array index is a canonical numeric string below [2^32 - 1]; such keys
    are enumerated first, in ascending order. *)
Definition array_index (k : jstr) : option N :=
  match k with
  | [] => None
  | c :: k' =>
      if (isCh 48 c && is_empty k')
         || (in_range 49 57 c && forallb isDigit k'
             && (digits_value k <? 4294967295)%Z)
      then Some (Z.to_N (digits_value k))
      else None
  end.

Fixpoint replace_value (k : jstr) (v : json) (l : list (jstr * json))
  : list (jstr * json) :=
  match l with
  | [] => []
  | (k', v') :: l' =>
      if jstr_eqb k' k then (k', v) :: l' else (k', v') :: replace_value k v l'
  end.

Fixpoint insert_index (i : N) (k : jstr) (v : json) (l : list (jstr * json))
  : list (jstr * json) :=
  match l with
  | [] => [(k, v)]
  | (k', v') :: l' =>
      match array_index k' with
      | Some i' => if (i' <? i)%N then (k', v') :: insert_index i k v l'
                   else (k, v) :: l
      | None => (k, v) :: l
      end
  end.

(** [o[k] = v] on an ordinary object. *)
Definition obj_set (k : jstr) (v : json) (l : list (jstr * json))
  : list (jstr * json) :=
  if has_key k l then replace_value k v l
  else match array_index k with
       | Some i => insert_index i k v l
       | None => l ++ [(k, v)]
       end.

(** [{...v}]: the own enumerable properties of [v]. *)
Fixpoint indexed_from (i : N) (l : list json) : list (jstr * json) :=
  match l with
  | [] => []
  | x :: l' => (NatString i, x) :: indexed_from (i + 1) l'
  end.

Definition spread (v : json) : list (jstr * json) :=
  match v with
  | JObj l => l
  | JArr l => indexed_from 0 l
  | JStr s => indexed_from 0 (map (fun c => JStr [c]) s)
  | _ => []
  end.

(** *** JSON.stringify *)

Definition hexdigit (d : N) : N := if (d <? 10)%N then (48 + d)%N else (87 + d)%N.

Definition hex4 (c : N) : jstr :=
  [ hexdigit ((c / 4096) mod 16); hexdigit ((c / 256) mod 16);
    hexdigit ((c / 16) mod 16); hexdigit (c mod 16) ].

Definition uescape (c : N) : jstr := 92%N :: 117%N :: hex4 c.

Definition is_high (c : N) : bool := in_range 55296 56319 c.
Definition is_low (c : N) : bool := in_range 56320 57343 c.

(** The escape of a unit that is not a surrogate. *)
Definition esc_unit (c : N) : jstr :=
  if isCh 8 c then [92; 98]%N
  else if isCh 9 c then [92; 116]%N
  else if isCh 10 c then [92; 110]%N
  else if isCh 12 c then [92; 102]%N
  else if isCh 13 c then [92; 114]%N
  else if isCh 34 c then [92; 34]%N
  else if isCh 92 c then [92; 92]%N
  else if (c <? 32)%N then uescape c
  else [c].

(** [QuoteJSONString] without the quotes: a surrogate pair goes through, a
    lone surrogate is escaped. *)
Fixpoint quote_body (s : jstr) : jstr :=
  match s with
  | [] => []
  | c :: s' =>
      if is_high c then
        match s' with
        | d :: s'' =>
            if is_low d then c :: d :: quote_body s''
            else uescape c ++ quote_body s'
        | [] => uescape c
        end
      else if is_low c then uescape c ++ quote_body s'
      else esc_unit c ++ quote_body s'
  end.

Definition quote (s : jstr) : jstr := 34%N :: quote_body s ++ [34%N].

(** [ser v] is the text of [v] inside an array or an object; [undefined]
    prints as [null] in an array and its property is left out of an object. *)
Fixpoint ser (v : json) : jstr :=
  match v with
  | JUndef | JNull => str "null"
  | JBool true => str "true"
  | JBool false => str "false"
  | JNum lit => lit
  | JStr s => quote s
  | JArr l => 91%N :: join [44%N] (map ser l) ++ [93%N]
  | JObj l =>
      123%N
      :: join [44%N]
           (flat_map (fun kv : jstr * json =>
                        let '(k, x) := kv in
                        match x with
                        | JUndef => []
                        | _ => [quote k ++ 58%N :: ser x]
                        end) l)
      ++ [125%N]
  end.

(** [JSON.stringify(v)]: [None] is the value [undefined]. *)
Definition JSON_stringify (v : json) : option jstr :=
  match v with
  | JUndef => None
  | _ => Some (ser v)
  end.

(** What [JSON.parse(JSON.stringify(v))] is: [v] without its undefined
    properties, with [null] for its undefined array items. *)
Fixpoint norm (v : json) : json :=
  match v with
  | JArr l => JArr (map (fun x => match x with JUndef => JNull | _ => norm x end) l)
  | JObj l =>
      JObj (flat_map (fun kv : jstr * json =>
                        let '(k, x) := kv in
                        match x with
                        | JUndef => []
                        | _ => [(k, norm x)]
                        end) l)
  | _ => v
  end.

(** *** JSON.parse *)

Definition is_ws (c : N) : bool := isCh 9 c || isCh 10 c || isCh 13 c || isCh 32 c.

Fixpoint skip_ws (s : jstr) : jstr :=
  match s with
  | c :: s' => if is_ws c then skip_ws s' else s
  | [] => []
  end.

(** The number grammar as an automaton: an optional minus, then a zero or a
    non-zero digit followed by digits, then optionally a dot with at least
    one digit, then optionally [e] or [E], an optional sign and at least one
    digit. *)
Inductive nstate :=
| NStart | NMinus | NZero | NInt | NDot | NFrac | NE | NESign | NExp.

Definition nstep (st : nstate) (c : N) : option nstate :=
  match st with
  | NStart =>
      if isCh 45 c then Some NMinus
      else if isCh 48 c then Some NZero
      else if isDigit c then Some NInt else None
  | NMinus =>
      if isCh 48 c then Some NZero
      else if isDigit c then Some NInt else None
  | NZero =>
      if isCh 46 c then Some NDot
      else if isCh 101 c || isCh 69 c then Some NE else None
  | NInt =>
      if isDigit c then Some NInt
      else if isCh 46 c then Some NDot
      else if isCh 101 c || isCh 69 c then Some NE else None
  | NDot => if isDigit c then Some NFrac else None
  | NFrac =>
      if isDigit c then Some NFrac
      else if isCh 101 c || isCh 69 c then Some NE else None
  | NE =>
      if isCh 43 c || isCh 45 c then Some NESign
      else if isDigit c then Some NExp else None
  | NESign => if isDigit c then Some NExp else None
  | NExp => if isDigit c then Some NExp else None
  end.

Definition naccept (st : nstate) : bool :=
  match st with
  | NZero | NInt | NFrac | NExp => true
  | _ => false
  end.

(** The longest literal at the head of [s], and what follows it. *)
Fixpoint lex_number (st : nstate) (s : jstr) : option (jstr * jstr) :=
  match s with
  | c :: s' =>
      match nstep st c with
      | Some st' =>
          match lex_number st' s' with
          | Some (lit, r) => Some (c :: lit, r)
          | None => None
          end
      | None => if naccept st then Some ([], s) else None
      end
  | [] => if naccept st then Some ([], []) else None
  end.

Definition hexval (c : N) : option N :=
  if isDigit c then Some (c - 48)%N
  else if in_range 97 102 c then Some (c - 87)%N
  else if in_range 65 70 c then Some (c - 55)%N
  else None.

Definition unhex4 (a b c d : N) : option N :=
  match hexval a, hexval b, hexval c, hexval d with
  | Some x3, Some x2, Some x1, Some x0 =>
      Some (((x3 * 16 + x2) * 16 + x1) * 16 + x0)%N
  | _, _, _, _ => None
  end.

(** The unit a one-letter escape stands for. *)
Definition unescape (e : N) : option N :=
  if isCh 34 e then Some 34%N
  else if isCh 92 e then Some 92%N
  else if isCh 47 e then Some 47%N
  else if isCh 98 e then Some 8%N
  else if isCh 102 e then Some 12%N
  else if isCh 110 e then Some 10%N
  else if isCh 114 e then Some 13%N
  else if isCh 116 e then Some 9%N
  else None.

Definition cons_unit (c : N) (r : option (jstr * jstr)) : option (jstr * jstr) :=
  match r with
  | Some (t, s) => Some (c :: t, s)
  | None => None
  end.

(** A string after its opening quote: up to the closing quote. *)
Fixpoint parse_string_body (s : jstr) : option (jstr * jstr) :=
  match s with
  | [] => None
  | c :: r =>
      if isCh 34 c then Some ([], r)
      else if isCh 92 c then
        match r with
        | [] => None
        | e :: r' =>
            if isCh 117 e then
              match r' with
              | h3 :: h2 :: h1 :: h0 :: r'' =>
                  match unhex4 h3 h2 h1 h0 with
                  | Some u => cons_unit u (parse_string_body r'')
                  | None => None
                  end
              | _ => None
              end
            else
              match unescape e with
              | Some u => cons_unit u (parse_string_body r')
              | None => None
              end
        end
      else if (c <? 32)%N then None
      else cons_unit c (parse_string_body r)
  end.

Fixpoint parse_elems (pv : jstr -> option (json * jstr)) (n : nat) (s : jstr)
         (acc : list json) : option (list json * jstr) :=
  match n with
  | 0 => None
  | S n' =>
      match pv s with
      | None => None
      | Some (v, r) =>
          match skip_ws r with
          | c :: r' =>
              if isCh 44 c then parse_elems pv n' r' (acc ++ [v])
              else if isCh 93 c then Some (acc ++ [v], r')
              else None
          | [] => None
          end
      end
  end.

Fixpoint parse_members (pv : jstr -> option (json * jstr)) (n : nat) (s : jstr)
         (acc : list (jstr * json)) : option (list (jstr * json) * jstr) :=
  match n with
  | 0 => None
  | S n' =>
      match skip_ws s with
      | c :: r =>
          if isCh 34 c then
            match parse_string_body r with
            | None => None
            | Some (k, r1) =>
                match skip_ws r1 with
                | c1 :: r2 =>
                    if isCh 58 c1 then
                      match pv r2 with
                      | None => None
                      | Some (v, r3) =>
                          match skip_ws r3 with
                          | c3 :: r4 =>
                              if isCh 44 c3
                              then parse_members pv n' r4 (obj_set k v acc)
                              else if isCh 125 c3 then Some (obj_set k v acc, r4)
                              else None
                          | [] => None
                          end
                      end
                    else None
                | [] => None
                end
            end
          else None
      | [] => None
      end
  end.

Definition expect (word : jstr) (v : json) (s : jstr) : option (json * jstr) :=
  if starts_with word s then Some (v, skipn (length word) s) else None.

Section Platform.

(** The literal of the number that a numeric text denotes. *)
Variable canon : jstr -> jstr.

Fixpoint parse_value (fuel : nat) (s : jstr) : option (json * jstr) :=
  match fuel with
  | 0 => None
  | S f =>
      match skip_ws s with
      | [] => None
      | c :: r =>
          if isCh 34 c then
            match parse_string_body r with
            | Some (t, r') => Some (JStr t, r')
            | None => None
            end
          else if isCh 91 c then
            match skip_ws r with
            | c' :: r' =>
                if isCh 93 c' then Some (JArr [], r')
                else match parse_elems (parse_value f) f r [] with
                     | Some (l, r'') => Some (JArr l, r'')
                     | None => None
                     end
            | [] => None
            end
          else if isCh 123 c then
            match skip_ws r with
            | c' :: r' =>
                if isCh 125 c' then Some (JObj [], r')
                else match parse_members (parse_value f) f r [] with
                     | Some (l, r'') => Some (JObj l, r'')
                     | None => None
                     end
            | [] => None
            end
          else if isCh 110 c then expect (str "null") JNull (c :: r)
          else if isCh 116 c then expect (str "true") (JBool true) (c :: r)
          else if isCh 102 c then expect (str "false") (JBool false) (c :: r)
          else if isCh 45 c || isDigit c then
            match lex_number NStart (c :: r) with
            | Some (lit, r') => Some (JNum (canon lit), r')
            | None => None
            end
          else None
      end
  end.

(** [JSON.parse(text)]; [None] is a [SyntaxError]. *)
Definition JSON_parse (text : jstr) : option json :=
  match parse_value (S (length text)) text with
  | Some (v, r) => if is_empty (skip_ws r) then Some v else None
  | None => None
  end.

(** A number is the literal of itself: a numeric literal that [canon] leaves
    as it is. *)
Definition number_literal (lit : jstr) : bool :=
  match lex_number NStart lit with
  | Some (l, r) => jstr_eqb l lit && is_empty r && jstr_eqb (canon lit) lit
  | None => false
  end.

End Platform.

(** The enumeration order of an object's keys: no key twice, the array
    indices first and ascending. *)
Definition key_before (k k' : jstr) : Prop :=
  k <> k'
  /\ match array_index k' with
     | Some i' => exists i, array_index k = Some i /\ (i < i')%N
     | None => True
     end.

#[local] Unset Elimination Schemes.
Inductive well_formed (canon : jstr -> jstr) : json -> Prop :=
| wf_undef : well_formed canon JUndef
| wf_null : well_formed canon JNull
| wf_bool b : well_formed canon (JBool b)
| wf_num lit : number_literal canon lit = true -> well_formed canon (JNum lit)
| wf_str s : well_formed canon (JStr s)
| wf_arr l : Forall (well_formed canon) l -> well_formed canon (JArr l)
| wf_obj l :
    StronglySorted key_before (map fst l) ->
    Forall (fun kv => well_formed canon (snd kv)) l ->
    well_formed canon (JObj l).
#[local] Set Elimination Schemes.

(** The order test of [well_formed] as a computation. *)
Definition key_beforeb (k k' : jstr) : bool :=
  negb (jstr_eqb k k')
  && match array_index k' with
     | Some i' => match array_index k with
                  | Some i => (i <? i')%N
                  | None => false
                  end
     | None => true
     end.

Fixpoint keys_sortedb (l : list jstr) : bool :=
  match l with
  | [] => true
  | k :: l' => forallb (key_beforeb k) l' && keys_sortedb l'
  end.

(** [well_formed] as a computation. *)
Fixpoint well_formedb (canon : jstr -> jstr) (v : json) : bool :=
  match v with
  | JNum lit => number_literal canon lit
  | JArr l => forallb (well_formedb canon) l
  | JObj l =>
      keys_sortedb (map fst l)
      && forallb (fun kv : jstr * json => well_formedb canon (snd kv)) l
  | _ => true
  end.

(** *** Predicates of the proofs *)

(** An array item after the round trip. *)
Definition norm_item (v : json) : json :=
  match v with
  | JUndef => JNull
  | _ => norm v
  end.

(** The property is not left out by [JSON.stringify]. *)
Definition present (kv : jstr * json) : bool :=
  match snd kv with
  | JUndef => false
  | _ => true
  end.

(** No [undefined] anywhere. *)
Fixpoint defined (v : json) : bool :=
  match v with
  | JUndef => false
  | JArr l => forallb defined l
  | JObj l => forallb (fun kv : jstr * json => defined (snd kv)) l
  | _ => true
  end.

(** The fuel the parser needs for a value. *)
Fixpoint weight (v : json) : nat :=
  match v with
  | JArr l => S (fold_right (fun x a => Nat.max (weight x) a) (length l) l)
  | JObj l =>
      S (fold_right (fun kv a => Nat.max (weight (snd kv)) a) (length l) l)
  | _ => 1
  end.

(** What may follow a value inside a text: nothing, a comma or a closing
    bracket. *)
Definition delimb (s : jstr) : bool :=
  match s with
  | [] => true
  | c :: _ => isCh 44 c || isCh 93 c || isCh 125 c
  end.

(** A text does not start with white space or a closing bracket. *)
Definition value_start (t : jstr) : bool :=
  match t with
  | c :: _ => negb (is_ws c) && negb (isCh 93 c)
  | [] => false
  end.

Definition member_text (k t : jstr) : jstr := quote k ++ 58%N :: t.

(** A member as (key, text of the value, value). *)
Definition member_of (m : jstr * jstr * json) : jstr :=
  member_text (fst (fst m)) (snd (fst m)).

(** [t] reads as [v] with fuel [n] or more, whatever delimiter follows. *)
Definition parses_to (canon : jstr -> jstr) (t : jstr) (v : json) (n : nat) : Prop :=
  forall k rest, delimb rest = true ->
                 parse_value canon (n + k) (t ++ rest) = Some (v, rest).

(** What the induction of the round trip carries for a value without
    [undefined]. *)
Definition reads_back (canon : jstr -> jstr) (v : json) : Prop :=
  defined v = true -> well_formed canon v ->
  parses_to canon (ser v) v (weight v)
  /\ value_start (ser v) = true
  /\ weight v <= length (ser v).

End Json.

(* ================================================================== *)
(** ** localStorage

    [window.localStorage] is a map from keys to strings; [accepts] says which
    writes the browser takes (a write over quota throws).  [None] is a run
    without [window]. *)
(* ================================================================== *)

Module LocalStorage.

Record Storage := mkStorage {
  cells : jstr -> option jstr;
  accepts : jstr -> jstr -> bool
}.

Definition Window : Type := option Storage.

Definition getItem (w : Window) (key : jstr) : option jstr :=
  match w with
  | Some s => cells s key
  | None => None
  end.

(** [safeStorage.set]: the new storage and whether the write went through. *)
Definition setItem (w : Window) (key value : jstr) : Window * bool :=
  match w with
  | Some s =>
      if accepts s key value
      then (Some (mkStorage (fun k => if jstr_eqb k key then Some value else cells s k)
                            (accepts s)), true)
      else (w, false)
  | None => (None, false)
  end.

Definition removeItem (w : Window) (key : jstr) : Window :=
  match w with
  | Some s => Some (mkStorage (fun k => if jstr_eqb k key then None else cells s k)
                              (accepts s))
  | None => None
  end.

End LocalStorage.

(* ================================================================== *)
(** ** What the two persistence layers share *)
(* ================================================================== *)

Module PersistCommon.
Import Json.

(** [(name, state.name)] *)
Definition field (state : json) (name : string) : jstr * json :=
  (str name, get state (str name)).

Definition MAX_CHARS : nat := N.to_nat 200000.

(** [clip]: a string over [MAX_CHARS] units is cut and gets an ellipsis; what
    is not a string becomes the empty string. *)
Definition clip (s : json) : json :=
  match s with
  | JStr t =>
      if MAX_CHARS <? length t then JStr (firstn MAX_CHARS t ++ [8230%N]) else JStr t
  | _ => JStr []
  end.

Definition clipped (state : json) (name : string) : jstr * json :=
  (str name, clip (get state (str name))).

(** [v ?? null] *)
Definition nullish (v : json) : json :=
  match v with
  | JUndef | JNull => JNull
  | _ => v
  end.

(** [v === "s"] and [v !== "s"] *)
Definition is_str (s : jstr) (v : json) : bool :=
  match v with
  | JStr t => jstr_eqb t s
  | _ => false
  end.

(** [if (!(k in o)) o[k] = v] *)
Definition default_if_absent (k : string) (v : json) (o : list (jstr * json))
  : list (jstr * json) :=
  if has_key (str k) o then o else obj_set (str k) v o.

Definition obj (l : list (string * json)) : json :=
  JObj (map (fun kv => (str (fst kv), snd kv)) l).

Definition text (s : string) : json := JStr (str s).

Definition SESSION_KEY : jstr := str "eduGeniusSession".

(** The envelope test of both loaders, after the parse:
    [typeof parsed !== "object" || !parsed.data || typeof parsed.checksum !== "string"]
    (reading [parsed.data] of [null] throws, to the same effect). *)
Definition is_envelope (parsed : json) : bool :=
  is_object_type parsed && truthy (get parsed (str "data"))
  && is_string (get parsed (str "checksum")).

(** [s] with the unit at [p] replaced by [c]. *)
Definition tamper (p : nat) (c : N) (s : jstr) : jstr :=
  firstn p s ++ c :: skipn (S p) s.

End PersistCommon.

(* ================================================================== *)
(** ** [src/store/appStore.persist.ts] *)
(* ================================================================== *)

Module AppStorePersist.
Import Json LocalStorage PersistCommon.

Definition SESSION_VERSION : jstr := str "3.0.0".
Definition STORAGE_KEY : jstr := SESSION_KEY.

Section Platform.

Variable canon : jstr -> jstr.
(** [createHash(json).toString()] on what [JSON.stringify] returned; [None]
    is a call that throws. *)
Variable createHash : option jstr -> option jstr.

Definition calculateChecksum (data : json) : jstr :=
  match createHash (JSON_stringify data) with
  | Some h => h
  | None => str "invalid"
  end.

Definition core_of (state : json) : json :=
  JObj
    [ (str "version", JStr SESSION_VERSION);
      field state "currentScreen";
      field state "level";
      field state "topic";
      field state "host1Persona";
      field state "host2Persona";
      field state "host1Name";
      field state "host2Name";
      field state "hostRelationship";
      field state "channelName";
      field state "presetId";
      field state "podcastMode";
      field state "monologueStyle";
      field state "podcastPacing";
      field state "podcastInformality";
      field state "podcastStyle";
      field state "overlayIntensity";
      field state "podcastDuration";
      field state "emotionalArc";
      field state "hookStyle";
      field state "previousContent";
      field state "isAdaptiveLearning";
      field state "performanceData";
      field state "learnerInterests";
      clipped state "supplementalContent";
      field state "podcastBackstory";
      field state "realismIntensity";
      field state "isCopilotActive";
      field state "isEcosystemEngineEnabled";
      field state "isDailyScriptEngineEnabled";
      field state "teachingTechnique";
      field state "accent";
      field state "targetLanguage";
      field state "channelDescription";
      field state "targetAudience";
      field state "defaultTags";
      field state "seoKeywords";
      clipped state "rawContent";
      clipped state "insightsContent";
      clipped state "bookletPart";
      clipped state "podcastScript";
      clipped state "showNotesContent";
      clipped state "socialMediaTeaserContent";
      field state "generateShowNotes";
      field state "generateSocialMediaTeaser";
      field state "activeTab";
      field state "theme";
      field state "seoTitleOverride";
      field state "seoKeywordsOverride";
      field state "seoBundle";
      field state "uploadPack";
      field state "coreAudioSrt";
      field state "roleConfig" ].

Definition buildPersistSnapshot (state : json) : json :=
  let core := core_of state in
  JObj [ (str "data", core); (str "checksum", JStr (calculateChecksum core)) ].

(** A failed write is caught and logged: the storage stays as it was. *)
Definition savePersistedState (w : Window) (state : json) : Window :=
  match JSON_stringify (buildPersistSnapshot state) with
  | Some payload => fst (setItem w STORAGE_KEY payload)
  | None => w
  end.

Definition roleConfig_default : json :=
  obj [ ("host"%string, obj [ ("name"%string, text "Luna"); ("tone"%string, text "warm, clear, patient") ]);
        ("coach"%string, obj [ ("name"%string, text "Liam");
                        ("tone"%string, text "helpful, concise, encouraging") ]);
        ("characters"%string,
         JArr [ obj [ ("name"%string, text "Ava"); ("role"%string, text "learner");
                      ("note"%string, text "A2-B1 mistakes") ];
                obj [ ("name"%string, text "Sam"); ("role"%string, text "clerk");
                      ("note"%string, text "native, simple speech") ] ]) ].

Definition migration_defaults : list (string * json) :=
  [ ("version"%string, JStr SESSION_VERSION);
    ("dailyScriptMode"%string, text "Podcast");
    ("useSrtAsCore"%string, JBool true);
    ("seoBundle"%string, JNull);
    ("uploadPack"%string, JNull);
    ("coreAudioSrt"%string, JNull);
    ("roleConfig"%string, roleConfig_default) ].

Definition migrateState (data : json) : list (jstr * json) :=
  fold_left (fun o kv => default_if_absent (fst kv) (snd kv) o)
            migration_defaults (spread data).

Definition loadPersistedState (w : Window) : option json * Window :=
  match getItem w STORAGE_KEY with
  | None => (None, w)
  | Some raw =>
      if is_empty raw then (None, w)
      else
        match JSON_parse canon raw with
        | None => (None, removeItem w STORAGE_KEY)
        | Some parsed =>
            if negb (is_envelope parsed) then (None, removeItem w STORAGE_KEY)
            else
              let data := get parsed (str "data") in
              let checksum := get parsed (str "checksum") in
              let recalculated := calculateChecksum data in
              if negb (is_str recalculated checksum)
              then (None, removeItem w STORAGE_KEY)
              else if negb (is_str SESSION_VERSION (get data (str "version")))
              then
                let migrated := JObj (migrateState data) in
                (Some migrated, savePersistedState w migrated)
              else (Some data, w)
        end
  end.

Definition clearPersistedState (w : Window) : Window := removeItem w STORAGE_KEY.

End Platform.

End AppStorePersist.

(* ================================================================== *)
(** ** The persistence of [src/store/appStore.ts] *)
(* ================================================================== *)

Module AppStore.
Import Json LocalStorage PersistCommon.

Definition SESSION_VERSION : jstr := str "4.0.0".

(** [generationSections] of [src/types/index.ts], the keys. *)
Definition generationSections : list string :=
  [ "TITLE"; "OVERVIEW"; "READING_SECTION"; "LISTENING_SECTION";
    "SPEAKING_SECTION"; "WRITING_SECTION"; "QUIZ_SECTION"; "SUMMARY_SECTION";
    "DESIGN_SUGGESTIONS"; "PODCAST_SCRIPT"; "SHOW_NOTES"; "SOCIAL_MEDIA_TEASER" ]%string.

Section Platform.

Variable canon : jstr -> jstr.
(** [SHA256(json).toString()]; [None] is a call that throws. *)
Variable SHA256 : option jstr -> option jstr.

Definition calculateChecksum (data : json) : jstr :=
  match SHA256 (JSON_stringify data) with
  | Some h => h
  | None => str "invalid"
  end.

Definition stateToPersist (state : json) : json :=
  JObj
    [ field state "currentScreen";
      field state "level";
      field state "topic";
      field state "host1Persona";
      field state "host2Persona";
      field state "host1Name";
      field state "host2Name";
      field state "hostRelationship";
      field state "channelName";
      field state "presetId";
      field state "podcastPacing";
      field state "podcastInformality";
      field state "podcastStyle";
      field state "overlayIntensity";
      field state "podcastDuration";
      field state "emotionalArc";
      field state "hookStyle";
      field state "podcastMode";
      field state "monologueStyle";
      field state "monologueHostName";
      field state "previousContent";
      field state "isAdaptiveLearning";
      field state "performanceData";
      field state "learnerInterests";
      clipped state "supplementalContent";
      field state "podcastBackstory";
      field state "realismIntensity";
      field state "isCopilotActive";
      field state "isEcosystemEngineEnabled";
      field state "isDailyScriptEngineEnabled";
      field state "teachingTechnique";
      clipped state "rawContent";
      clipped state "insightsContent";
      clipped state "bookletPart";
      clipped state "podcastScript";
      clipped state "showNotesContent";
      clipped state "socialMediaTeaserContent";
      field state "generateShowNotes";
      field state "generateSocialMediaTeaser";
      field state "activeTab";
      field state "theme";
      (str "coverImage", JNull);
      (str "illustrations", JArr []);
      (str "generationStep",
       if is_str (str "complete") (get state (str "generationStep"))
       then JStr (str "complete") else JStr (str "idle"));
      field state "error";
      clipped state "lessonPlan";
      field state "generationProgress";
      (str "currentlyGeneratingSection", JNull);
      field state "learnerDNA";
      field state "channelDescription";
      field state "targetAudience";
      field state "defaultTags";
      field state "seoKeywords";
      field state "accent";
      field state "targetLanguage";
      field state "dailyScriptMode";
      field state "dailyScript";
      field state "useSrtAsCore";
      (str "seoTitleOverride", nullish (get state (str "seoTitleOverride")));
      (str "seoKeywordsOverride", nullish (get state (str "seoKeywordsOverride")));
      field state "seoBundle";
      field state "uploadPack";
      field state "coreAudioSrt";
      field state "roleConfig" ].

(** The object the checksum is taken of. *)
Definition signed (version data : json) : json :=
  JObj [ (str "version", version); (str "data", data) ].

Definition envelope_of (data : json) : json :=
  JObj [ (str "version", JStr SESSION_VERSION);
         (str "data", data);
         (str "checksum",
          JStr (calculateChecksum (signed (JStr SESSION_VERSION) data))) ].

Definition set_prop (o : json) (k : string) (v : json) : json :=
  match o with
  | JObj l => JObj (obj_set (str k) v l)
  | _ => o
  end.

(** [persistSave]: the storage, and the state with its toast when the write
    failed and the notice was asked for. *)
Definition persistSave (w : Window) (state : json) (debouncedNotice : bool)
  : Window * json :=
  let envelope := envelope_of (stateToPersist state) in
  let '(w', ok) := setItem w SESSION_KEY (ser envelope) in
  if negb ok && negb debouncedNotice
  then (w', set_prop state "toastMessage"
              (text "Error: Auto-save failed. Your session might be out of sync."))
  else (w', state).

Definition roleConfig_default : json :=
  obj [ ("host"%string, obj [ ("name"%string, text "Luna"); ("tone"%string, text "warm, clear, patient") ]);
        ("coach"%string, obj [ ("name"%string, text "Liam");
                        ("tone"%string, text "helpful, concise, encouraging") ]);
        ("characters"%string,
         JArr [ obj [ ("name"%string, text "Ava"); ("role"%string, text "learner");
                      ("note"%string, text "A2-B1 common mistakes") ];
                obj [ ("name"%string, text "Sam"); ("role"%string, text "clerk");
                      ("note"%string, text "native, simple speech") ] ]) ].

(** [generationSections.reduce(...)]: every section key at ["pending"]. *)
Definition progress_default : json :=
  JObj (fold_left (fun acc k => obj_set (str k) (text "pending") acc)
                  generationSections []).

Definition migration_defaults : list (string * json) :=
  [ ("presetId"%string, text "custom");
    ("generationProgress"%string, progress_default);
    ("dailyScriptMode"%string, text "Podcast");
    ("isDailyScriptEngineEnabled"%string, JBool false);
    ("useSrtAsCore"%string, JBool true);
    ("seoTitleOverride"%string, JNull);
    ("seoKeywordsOverride"%string, JNull);
    ("seoBundle"%string, JNull);
    ("uploadPack"%string, JNull);
    ("coreAudioSrt"%string, JNull);
    ("roleConfig"%string, roleConfig_default) ].

(** [migrateSession]: [None] is [null]. *)
Definition migrateSession (raw : json) : option (list (jstr * json)) :=
  if negb (truthy raw) || negb (is_object_type raw) then None
  else
    let version := get raw (str "version") in
    if negb (truthy version) || negb (is_string version) then None
    else
      Some (fold_left (fun o kv => default_if_absent (fst kv) (snd kv) o)
                      migration_defaults (spread (get raw (str "data")))).

Definition persistLoad (w : Window) : option json * Window :=
  match getItem w SESSION_KEY with
  | None => (None, w)
  | Some raw =>
      if is_empty raw then (None, w)
      else
        match JSON_parse canon raw with
        | None => (None, removeItem w SESSION_KEY)
        | Some parsed =>
            if negb (truthy parsed) || negb (is_envelope parsed)
            then (None, removeItem w SESSION_KEY)
            else
              let version := get parsed (str "version") in
              let data := get parsed (str "data") in
              let recalculated := calculateChecksum (signed version data) in
              if negb (is_str recalculated (get parsed (str "checksum")))
              then (None, removeItem w SESSION_KEY)
              else if negb (is_str SESSION_VERSION version)
              then
                match migrateSession parsed with
                | Some migrated =>
                    (Some (JObj migrated),
                     fst (setItem w SESSION_KEY (ser (envelope_of (JObj migrated)))))
                | None => (None, w)
                end
              else (Some data, w)
        end
  end.

End Platform.

End AppStore.

(* ================================================================== *)
(** ** Notions and samples for the properties of the persistence *)
(* ================================================================== *)

Module PersistSamples.
Import Json LocalStorage PersistCommon.

(** The value a list of migration defaults has for a key. *)
Definition default_value (defaults : list (string * json)) (k : jstr) : option json :=
  lookup k (map (fun kv => (str (fst kv), snd kv)) defaults).

(** What a migration is to hold at key [k]: the input's value when the input
    has the key, the default of the list otherwise. *)
Definition filled (input : list (jstr * json)) (defaults : list (string * json))
           (k : jstr) : option json :=
  match lookup k input with
  | Some v => Some v
  | None => default_value defaults k
  end.

(** A storage that takes every write, holding [value] under the session key. *)
Definition holding (value : jstr) : Window :=
  Some (mkStorage (fun k => if jstr_eqb k SESSION_KEY then Some value else None)
                  (fun _ _ => true)).

Definition empty_storage : Storage := mkStorage (fun _ => None) (fun _ _ => true).

(** A storage over its quota: it takes no write. *)
Definition full_storage : Storage := mkStorage (fun _ => None) (fun _ _ => false).

(** A digest function that throws whatever it is given. *)
Definition digest_throws (t : option jstr) : option jstr := None.

(** A platform for running the samples: numeric literals read as written and
    a digest that is the text itself, so that two texts never collide. *)
Definition canon_id (t : jstr) : jstr := t.
Definition digest_id (t : option jstr) : option jstr := t.


(** A state with a level and a topic. *)
Definition state_small : json :=
  obj [ ("level"%string, text "B1"); ("topic"%string, text "Travel") ].

(** An envelope without a version. *)
Definition envelope_unversioned : json :=
  obj [ ("data"%string, state_small); ("checksum"%string, text "abc") ].

(** An envelope of an older version. *)
Definition envelope_old : json :=
  obj [ ("version"%string, text "3.0.0"); ("data"%string, state_small);
        ("checksum"%string, text "abc") ].

(** The text of an envelope without a version whose checksum is the digest
    [persistLoad] recomputes. *)
Definition unversioned_text : jstr :=
  ser (obj [ ("data"%string, state_small);
             ("checksum"%string,
              JStr (AppStore.calculateChecksum digest_id
                      (AppStore.signed JUndef state_small))) ]).

(** The text of an envelope of the current version of the store with a
    checksum that is not the digest of anything. *)
Definition unsigned_text : jstr :=
  ser (obj [ ("version"%string, JStr AppStore.SESSION_VERSION);
             ("data"%string, state_small);
             ("checksum"%string, text "tampered") ]).

(** A state saved under an older version, and a storage that holds its
    envelope as each layer would have written it. *)
Definition state_older : json :=
  obj [ ("version"%string, text "2.0.0"); ("topic"%string, text "Travel") ].

Definition older_text : jstr :=
  ser (obj [ ("data"%string, state_older);
             ("checksum"%string,
              JStr (AppStorePersist.calculateChecksum digest_id state_older)) ]).

Definition older_text2 : jstr :=
  ser (obj [ ("version"%string, text "3.0.0");
             ("data"%string, state_small);
             ("checksum"%string,
              JStr (AppStore.calculateChecksum digest_id
                      (AppStore.signed (text "3.0.0") state_small))) ]).

(** The checksum a digest function gives a text, with the catch of
    [calculateChecksum]. *)
Definition checksum_of_text (digest : option jstr -> option jstr) (t : jstr) : jstr :=
  match digest (Some t) with
  | Some h => h
  | None => str "invalid"
  end.

(** A digest function under which no two texts have the same checksum, as
    SHA-256 is taken to be; one that throws is not. *)
Definition collision_free (digest : option jstr -> option jstr) : Prop :=
  forall t t' : jstr, checksum_of_text digest t = checksum_of_text digest t' -> t = t'.

(** The text [t] reads as the value [v]. *)
Definition reads_as (canon : jstr -> jstr) (t : jstr) (v : json) : Prop :=
  exists n, n <= length t /\ parses_to canon t v n.

(** [state_small] with an X for the first letter of its topic. *)
Definition state_xravel : json :=
  obj [ ("level"%string, text "B1"); ("topic"%string, text "Xravel") ].

Definition storing (value : jstr) : Storage :=
  mkStorage (fun k => if jstr_eqb k SESSION_KEY then Some value else None)
            (fun _ _ => true).

End PersistSamples.

(* ================================================================== *)
(** ** Actions and helpers of [src/store/appStore.ts] *)
(* ================================================================== *)

Module AppStoreActions.
Import Json LocalStorage PersistCommon AppStore.

(** [{ ...o, ...partial }], which is what the store's [set(partial)] makes of
    the state [o]. *)
Definition assign (o partial : list (jstr * json)) : list (jstr * json) :=
  fold_left (fun a kv => obj_set (fst kv) (snd kv) a) partial o.

Definition set_state (state : list (jstr * json)) (partial : list (string * json))
  : list (jstr * json) :=
  assign state (map (fun kv => (str (fst kv), snd kv)) partial).

(** The fields [loadSession] sets after the loaded ones. *)
Definition loaded_overrides : list (string * json) :=
  [ ("generationStep"%string, text "idle");
    ("error"%string, JNull);
    ("toastMessage"%string, text "Session loaded.");
    ("isGeneratingCover"%string, JBool false);
    ("isGeneratingIllustrations"%string, JBool false);
    ("isGeneratingGrowthTool"%string, JBool false);
    ("_runId"%string, JNull) ].

Section Platform.

Variable canon : jstr -> jstr.

(** [loadSession]: the new state and storage.  Reading [parsed.version] of
    [null] throws, which the [catch] turns into the same as a text that does
    not parse. *)
Definition loadSession (w : Window) (state : list (jstr * json))
  : list (jstr * json) * Window :=
  let corrupted :=
    (set_state state
       [ ("toastMessage"%string,
          text "Error: Session data was corrupted. Starting fresh.") ],
     removeItem w SESSION_KEY) in
  let fresh :=
    (set_state state
       [ ("toastMessage"%string,
          text "Couldn't load session data. Starting fresh.") ],
     removeItem w SESSION_KEY) in
  match getItem w SESSION_KEY with
  | None => (state, w)
  | Some saved =>
      if is_empty saved then (state, w)
      else
        match JSON_parse canon saved with
        | None | Some JNull | Some JUndef => corrupted
        | Some parsed =>
            let migrated :=
              if is_str SESSION_VERSION (get parsed (str "version"))
              then get parsed (str "data")
              else match migrateSession parsed with
                   | Some m => JObj m
                   | None => JNull
                   end in
            if truthy migrated
            then (assign state (set_state (spread migrated) loaded_overrides), w)
            else fresh
        end
  end.

End Platform.

(** [makeInitialProgress] *)
Definition makeInitialProgress : list (jstr * json) :=
  fold_left (fun acc k => obj_set (str k) (text "pending") acc) generationSections [].

(** [if (next[k] === "in_progress") next[k] = "complete"] *)
Definition mark_step (next : list (jstr * json)) (k : jstr) : list (jstr * json) :=
  if is_str (str "in_progress") (get (JObj next) k)
  then obj_set k (text "complete") next
  else next.

(** [markProgressFromTag] *)
Definition markProgressFromTag (current : list (jstr * json)) (tag : jstr)
  : list (jstr * json) :=
  let keys := map str generationSections in
  let next := fold_left mark_step keys current in
  if existsb (jstr_eqb tag) keys
  then obj_set tag (text "in_progress") next
  else next.

(** The list of [addLearnerInterest], [addDefaultTag] and [addSeoKeyword]:
    the trimmed item is appended unless it is empty or already there. *)
Definition add_item (item : jstr) (items : list jstr) : list jstr :=
  let t := trim item in
  if is_empty t || existsb (jstr_eqb t) items then items else items ++ [t].

(** The list of [removeLearnerInterest], [removeDefaultTag] and
    [removeSeoKeyword]. *)
Definition remove_item (item : jstr) (items : list jstr) : list jstr :=
  filter (fun i => negb (jstr_eqb i item)) items.

(** *** parseAndSetContent *)

Definition SECTION_TEASER : jstr := str "<SECTION:SOCIAL_MEDIA_TEASER>".
Definition SECTION_SHOWNOTES : jstr := str "<SECTION:SHOW_NOTES>".
Definition SECTION_PODCAST : jstr := str "<SECTION:PODCAST_SCRIPT>".

(** [s.indexOf(p)]; [None] is [-1]. *)
Fixpoint indexOf_from (p s : jstr) (i : nat) : option nat :=
  if starts_with p s then Some i
  else match s with
       | [] => None
       | _ :: s' => indexOf_from p s' (S i)
       end.

Definition indexOf (s p : jstr) : option nat := indexOf_from p s 0.

(** What is before the first [marker] and, trimmed, what is after it. *)
Definition cut (marker content : jstr) : jstr * jstr :=
  match indexOf content marker with
  | Some i => (firstn i content, trim (skipn (i + length marker) content))
  | None => (content, [])
  end.

Definition literal (s : string) : regex := map (fun c => one (isCh c)) (str s).

(** [/<SECTION:[^>]+>\s*/g] *)
Definition SECTION_TAG_RE : regex :=
  literal "<SECTION:" ++ [ plus (fun c => negb (isCh 62 c)); one (isCh 62); star isSpace ].

Record Content := mkContent {
  bookletPart : jstr;
  podcastScript : jstr;
  showNotesContent : jstr;
  socialMediaTeaserContent : jstr
}.

(** [parseAndSetContent]: the partial state handed to [apply]. *)
Definition parseAndSetContent (content : jstr) : Content :=
  let '(beforeTeaser, teaserContent) := cut SECTION_TEASER content in
  let '(beforeShowNotes, showNotes) := cut SECTION_SHOWNOTES beforeTeaser in
  let '(beforePodcast, podcastContent) := cut SECTION_PODCAST beforeShowNotes in
  let bookletContent :=
    trim (replace_all SECTION_TAG_RE (const_str []) beforePodcast) in
  mkContent bookletContent podcastContent showNotes teaserContent.

(** A text without the unit that starts a tag. *)
Definition tagless (s : jstr) : Prop := Forall (fun c => c <> 60%N) s.

End AppStoreActions.

(* ================================================================== *)
(** * Properties *)
(* ================================================================== *)

Import Srt SrtText.


(* ================================================================== *)
(** ** Rounding to a double *)
(* ================================================================== *)

Section DoubleFacts.
Import Double.
Local Open Scope Q_scope.


Lemma pow2_pos (e : Z) : 0 < pow2 e.
Proof. apply Qpower_0_lt. reflexivity. Qed.

Lemma pow2_plus (a b : Z) : pow2 (a + b) == pow2 a * pow2 b.
Proof. apply Qpower_plus. discriminate. Qed.

Lemma pow2_le (a b : Z) : (a <= b)%Z -> pow2 a <= pow2 b.
Proof. intros H. apply Qpower_le_compat_l; [exact H | discriminate]. Qed.

Lemma pow2_lt (a b : Z) : (a < b)%Z -> pow2 a < pow2 b.
Proof. intros H. apply Qpower_lt_compat_l; [exact H | reflexivity]. Qed.

Lemma pow2_Z (k : Z) : (0 <= k)%Z -> pow2 k == inject_Z (2 ^ k).
Proof. intros H. unfold pow2. rewrite Zpower_Qpower by exact H. reflexivity. Qed.

Lemma rne_cases (x : Q) :
  let f := Qfloor x in
  (rne x = f /\ x - inject_Z f <= 1 # 2) \/ (rne x = (f + 1)%Z /\ 1 # 2 <= x - inject_Z f).
Proof.
  intros f. unfold rne. fold f.
  destruct (Qcompare_spec (x - inject_Z f) (1 # 2)) as [E|E|E].
  - destruct (Z.even f); [left | right]; split; try reflexivity;
      rewrite E; apply Qle_refl.
  - left. split; [reflexivity | apply Qlt_le_weak, E].
  - right. split; [reflexivity | apply Qlt_le_weak, E].
Qed.

Lemma Qfloor_bounds (x : Q) : inject_Z (Qfloor x) <= x < inject_Z (Qfloor x) + 1.
Proof.
  split; [apply Qfloor_le|]. pose proof (Qlt_floor x) as H.
  rewrite inject_Z_plus in H. exact H.
Qed.

Lemma rne_comp (x y : Q) : x == y -> rne x = rne y.
Proof.
  intros H. unfold rne. rewrite (Qfloor_comp x y H).
  assert (Qcompare (x - inject_Z (Qfloor y)) (1 # 2)
          = Qcompare (y - inject_Z (Qfloor y)) (1 # 2)) as ->; [|reflexivity].
  apply Qcompare_comp; [rewrite H; reflexivity | reflexivity].
Qed.

Lemma rne_inject_Z (k : Z) : rne (inject_Z k) = k.
Proof.
  unfold rne. rewrite Qfloor_Z.
  assert (Qcompare (inject_Z k - inject_Z k) (1 # 2) = Lt) as ->; [|reflexivity].
  apply Qlt_alt. setoid_replace (inject_Z k - inject_Z k) with 0 by ring. reflexivity.
Qed.

Lemma rne_err (x : Q) : - (1 # 2) <= inject_Z (rne x) - x <= 1 # 2.
Proof.
  pose proof (Qfloor_bounds x) as [H1 H2].
  destruct (rne_cases x) as [[-> H]|[-> H]].
  - lra.
  - rewrite inject_Z_plus. change (inject_Z 1) with 1. lra.
Qed.

Lemma rne_mono (x y : Q) : x <= y -> (rne x <= rne y)%Z.
Proof.
  intros Hxy.
  pose proof (Qfloor_resp_le x y Hxy) as Hf.
  destruct (Z.eq_dec (Qfloor x) (Qfloor y)) as [E|NE].
  - unfold rne. rewrite E.
    destruct (Qcompare_spec (x - inject_Z (Qfloor y)) (1 # 2)) as [Ex|Ex|Ex];
      destruct (Qcompare_spec (y - inject_Z (Qfloor y)) (1 # 2)) as [Ey|Ey|Ey];
      try (destruct (Z.even (Qfloor y))); try lia; exfalso; lra.
  - assert (Qfloor x + 1 <= Qfloor y)%Z as Hlt by lia.
    destruct (rne_cases x) as [[-> _]|[-> _]];
      destruct (rne_cases y) as [[-> _]|[-> _]]; lia.
Qed.

Lemma round_at_mono (q : Z) (x y : Q) : x <= y -> round_at q x <= round_at q y.
Proof.
  intros H. unfold round_at. apply Qmult_le_compat_r; [|apply Qlt_le_weak, pow2_pos].
  rewrite <- Zle_Qle. apply rne_mono.
  apply Qmult_le_compat_r; [exact H|]. apply Qlt_le_weak, Qinv_lt_0_compat, pow2_pos.
Qed.

Lemma round_at_grid (q k : Z) : round_at q (inject_Z k * pow2 q) == inject_Z k * pow2 q.
Proof.
  unfold round_at.
  rewrite (rne_comp (inject_Z k * pow2 q / pow2 q) (inject_Z k)).
  - rewrite rne_inject_Z. reflexivity.
  - field. pose proof (pow2_pos q). lra.
Qed.

Lemma round_at_comp (q : Z) (x y : Q) : x == y -> round_at q x == round_at q y.
Proof.
  intros H. unfold round_at. rewrite (rne_comp (x / pow2 q) (y / pow2 q)); [reflexivity|].
  rewrite H. reflexivity.
Qed.

(** A power of two at or above the unit of the grid is on the grid. *)
Lemma pow2_on_grid (q e : Z) : (q <= e)%Z -> pow2 e == inject_Z (2 ^ (e - q)) * pow2 q.
Proof.
  intros H. rewrite <- pow2_Z by lia. rewrite <- pow2_plus.
  replace (e - q + q)%Z with e by lia. reflexivity.
Qed.

Lemma round_at_err (q : Z) (x : Q) :
  - pow2 (q - 1) <= round_at q x - x <= pow2 (q - 1).
Proof.
  unfold round_at. pose proof (rne_err (x / pow2 q)) as [H1 H2].
  pose proof (pow2_pos q) as Hq.
  assert (pow2 (q - 1) == (1 # 2) * pow2 q) as ->.
  { unfold Z.sub. rewrite pow2_plus. unfold pow2 at 2. rewrite Qpower_opp.
    change (2 ^ 1) with 2. field. }
  set (y := x / pow2 q) in *. set (r := inject_Z (rne y)) in *.
  assert (r * pow2 q - x == (r - y) * pow2 q) as -> by (unfold y; field; lra).
  split.
  - assert (0 <= (r - y + (1 # 2)) * pow2 q) as H
        by (apply Qmult_le_0_compat; lra). lra.
  - assert (0 <= ((1 # 2) - (r - y)) * pow2 q) as H
        by (apply Qmult_le_0_compat; lra). lra.
Qed.

(** *** The exponent *)

Lemma inject_Z_pos (k : Z) : (0 < k)%Z -> 0 < inject_Z k.
Proof. intros H. unfold Qlt. cbn. lia. Qed.

Lemma ilog2_spec (x : Q) : 0 < x -> pow2 (ilog2 x) <= x < pow2 (ilog2 x + 1).
Proof.
  intros Hx. destruct x as [n d]. unfold ilog2. cbn [Qnum Qden].
  assert (0 < n)%Z as Hn by (unfold Qlt in Hx; cbn in Hx; lia).
  pose proof (Z.log2_spec n Hn) as [Ha1 Ha2].
  pose proof (Z.log2_spec (Zpos d) (Pos2Z.is_pos d)) as [Hb1 Hb2].
  pose proof (Z.log2_nonneg n) as Ha0. pose proof (Z.log2_nonneg (Zpos d)) as Hb0.
  set (a := Z.log2 n) in *. set (b := Z.log2 (Zpos d)) in *.
  assert (n # d == inject_Z n / inject_Z (Zpos d)) as Hq by apply Qmake_Qdiv.
  assert (0 < inject_Z (Zpos d)) as Hd by (apply inject_Z_pos; lia).
  assert (forall e, pow2 (a - b + e) == inject_Z (2 ^ a) / inject_Z (2 ^ b) * pow2 e) as Hp.
  { intros e. rewrite pow2_plus. unfold Z.sub. rewrite pow2_plus.
    unfold pow2 at 2. rewrite Qpower_opp. rewrite <- !pow2_Z by lia.
    unfold pow2. field. apply Qpower_not_0. discriminate. }
  assert (0 < inject_Z (2 ^ b)) as Hpb
      by (apply inject_Z_pos, Z.pow_pos_nonneg; lia).
  assert (0 < inject_Z (2 ^ a)) as Hpa
      by (apply inject_Z_pos, Z.pow_pos_nonneg; lia).
  (* x * 2^b * d cross products *)
  assert (forall u v : Z, (0 < v)%Z -> forall w, 0 < w ->
            (inject_Z u / inject_Z v * w <= n # d
             <-> inject_Z u * w * inject_Z (Zpos d) <= inject_Z n * inject_Z v)) as Hle.
  { intros u v Hv w Hw. rewrite Hq.
    assert (0 < inject_Z v) as Hv' by (apply inject_Z_pos; lia).
    split; intros H.
    - apply (Qmult_le_r _ _ (/ (inject_Z v * inject_Z (Zpos d)))).
      + apply Qinv_lt_0_compat. apply Qmult_lt_0_compat; assumption.
      + setoid_replace (inject_Z u * w * inject_Z (Z.pos d) * / (inject_Z v * inject_Z (Z.pos d)))
          with (inject_Z u / inject_Z v * w) by (field; lra).
        setoid_replace (inject_Z n * inject_Z v * / (inject_Z v * inject_Z (Z.pos d)))
          with (inject_Z n / inject_Z (Z.pos d)) by (field; lra).
        exact H.
    - apply (Qmult_le_r _ _ (/ (inject_Z v * inject_Z (Zpos d)))) in H.
      + setoid_replace (inject_Z u * w * inject_Z (Z.pos d) * / (inject_Z v * inject_Z (Z.pos d)))
          with (inject_Z u / inject_Z v * w) in H by (field; lra).
        setoid_replace (inject_Z n * inject_Z v * / (inject_Z v * inject_Z (Z.pos d)))
          with (inject_Z n / inject_Z (Z.pos d)) in H by (field; lra).
        exact H.
      + apply Qinv_lt_0_compat. apply Qmult_lt_0_compat; assumption. }
  assert (forall u v : Z, (0 < v)%Z -> forall w, 0 < w ->
            (n # d < inject_Z u / inject_Z v * w
             <-> inject_Z n * inject_Z v < inject_Z u * w * inject_Z (Zpos d))) as Hlt.
  { intros u v Hv w Hw. split; intros H.
    - apply Qnot_le_lt. intros Hc. apply (Hle u v Hv w Hw) in Hc.
      apply (Qlt_not_le _ _ H). exact Hc.
    - apply Qnot_le_lt. intros Hc. apply (Hle u v Hv w Hw) in Hc.
      apply (Qlt_not_le _ _ H). exact Hc. }
  assert (0 < 2 ^ b)%Z as Zb by (apply Z.pow_pos_nonneg; lia).
  assert (pow2 (-1) == 1 # 2) as Hm1 by reflexivity.
  assert (pow2 0 == 1) as H0 by reflexivity.
  assert (pow2 1 == 2) as H1 by reflexivity.
  destruct (n * 2 ^ b <? Zpos d * 2 ^ a)%Z eqn:E.
  - apply Z.ltb_lt in E.
    replace (a - b - 1)%Z with (a - b + -1)%Z by lia.
    replace (a - b + -1 + 1)%Z with (a - b + 0)%Z by lia.
    rewrite !Hp. split.
    + apply (Hle (2 ^ a)%Z (2 ^ b)%Z Zb (pow2 (-1)) (pow2_pos _)).
      rewrite Hm1.
      assert (inject_Z (2 ^ a) * inject_Z (Z.pos d) <= 2 * (inject_Z n * inject_Z (2 ^ b))).
      { change 2 with (inject_Z 2). rewrite <- !inject_Z_mult, <- Zle_Qle.
        assert (Zpos d < 2 * 2 ^ b)%Z by (rewrite <- Z.pow_succ_r by lia; exact Hb2).
        nia. }
      lra.
    + apply (Hlt (2 ^ a)%Z (2 ^ b)%Z Zb (pow2 0) (pow2_pos _)).
      rewrite H0, Qmult_1_r. rewrite <- !inject_Z_mult, <- Zlt_Qlt. lia.
  - apply Z.ltb_ge in E.
    replace (a - b)%Z with (a - b + 0)%Z at 1 by lia.
    rewrite !Hp. split.
    + apply (Hle (2 ^ a)%Z (2 ^ b)%Z Zb (pow2 0) (pow2_pos _)).
      rewrite H0, Qmult_1_r. rewrite <- !inject_Z_mult, <- Zle_Qle. lia.
    + apply (Hlt (2 ^ a)%Z (2 ^ b)%Z Zb (pow2 1) (pow2_pos _)).
      rewrite H1.
      assert (inject_Z n * inject_Z (2 ^ b) < 2 * (inject_Z (2 ^ a) * inject_Z (Z.pos d))).
      { change 2 with (inject_Z 2). rewrite <- !inject_Z_mult, <- Zlt_Qlt.
        assert (n < 2 * 2 ^ a)%Z by (rewrite <- Z.pow_succ_r by lia; exact Ha2).
        assert (2 ^ b <= Zpos d)%Z by exact Hb1.
        nia. }
      lra.
Qed.

(** *** Rounding to a double *)

Lemma INF_pos : 0 < INF.
Proof. apply pow2_pos. Qed.

Lemma clamp_cases (r : Q) :
  (INF <= r /\ clamp r = INF) \/ (r <= - INF /\ clamp r = - INF)
  \/ (- INF < r < INF /\ clamp r = r).
Proof.
  unfold clamp. pose proof INF_pos as Hi.
  destruct (Qle_bool INF r) eqn:E1.
  - left. split; [apply Qle_bool_iff, E1 | reflexivity].
  - assert (r < INF) as H1.
    { apply Qnot_le_lt. intros H. apply Qle_bool_iff in H. congruence. }
    destruct (Qle_bool r (- INF)) eqn:E2.
    + right. left. split; [apply Qle_bool_iff, E2 | reflexivity].
    + right. right. split; [|reflexivity]. split; [|exact H1].
      apply Qnot_le_lt. intros H. apply Qle_bool_iff in H. congruence.
Qed.

Lemma clamp_mono (a b : Q) : a <= b -> clamp a <= clamp b.
Proof.
  intros H. pose proof INF_pos as Hi.
  destruct (clamp_cases a) as [[Ha ->]|[[Ha ->]|[Ha ->]]];
    destruct (clamp_cases b) as [[Hb ->]|[[Hb ->]|[Hb ->]]]; lra.
Qed.


Lemma fl_rounded (x : Q) : fl x == clamp (rounded x).
Proof.
  unfold fl, rounded. destruct (Qeq_bool x 0).
  - destruct (clamp_cases 0) as [[H _]|[[H _]|[_ ->]]]; pose proof INF_pos; lra.
  - apply Qred_correct.
Qed.


Lemma ulp_exp_expo (x : Q) : ulp_exp x = (expo x - 52)%Z.
Proof. reflexivity. Qed.

Lemma expo_bounds (x : Q) :
  ~ x == 0 ->
  Qabs x < pow2 (expo x + 1)
  /\ ((-1022 < expo x)%Z -> pow2 (expo x) <= Qabs x).
Proof.
  intros Hx.
  assert (0 < Qabs x) as Hpos.
  { pose proof (Qabs_nonneg x). destruct (Qeq_dec (Qabs x) 0) as [E|E]; [|lra].
    exfalso. apply Hx. 
    destruct (Qlt_le_dec x 0) as [H1|H1].
    - rewrite (Qabs_neg x) in E by lra. lra.
    - rewrite (Qabs_pos x) in E by lra. exact E. }
  destruct (ilog2_spec (Qabs x) Hpos) as [H1 H2]. unfold expo. split.
  - eapply Qlt_le_trans; [exact H2|]. apply pow2_le. lia.
  - intros H. replace (Z.max (ilog2 (Qabs x)) (-1022)) with (ilog2 (Qabs x)) by lia.
    exact H1.
Qed.

Lemma expo_min (x : Q) : (-1022 <= expo x)%Z.
Proof. unfold expo. lia. Qed.

Lemma expo_le (x y : Q) :
  ~ x == 0 -> Qabs x <= Qabs y -> (expo x <= expo y)%Z.
Proof.
  intros Hx Hxy.
  assert (~ y == 0) as Hy.
  { intros E. rewrite E in Hxy. change (Qabs 0) with 0 in Hxy.
    pose proof (Qabs_nonneg x). apply Hx.
    destruct (Qlt_le_dec x 0) as [H1|H1].
    - rewrite (Qabs_neg x) in Hxy by lra. lra.
    - rewrite (Qabs_pos x) in Hxy by lra. lra. }
  destruct (expo_bounds x Hx) as [_ Hx2]. destruct (expo_bounds y Hy) as [Hy1 _].
  pose proof (expo_min y).
  destruct (Z_le_gt_dec (expo x) (expo y)) as [Hc|Hc]; [exact Hc|].
  exfalso. assert (-1022 < expo x)%Z as Hn by lia. specialize (Hx2 Hn).
  assert (pow2 (expo y + 1) <= pow2 (expo x)) by (apply pow2_le; lia).
  lra.
Qed.

Lemma round_at_ge_grid (q k : Z) (x : Q) :
  inject_Z k * pow2 q <= x -> inject_Z k * pow2 q <= round_at q x.
Proof.
  intros H. eapply Qle_trans; [|apply (round_at_mono q _ _ H)].
  rewrite round_at_grid. apply Qle_refl.
Qed.

Lemma round_at_le_grid (q k : Z) (x : Q) :
  x <= inject_Z k * pow2 q -> round_at q x <= inject_Z k * pow2 q.
Proof.
  intros H. eapply Qle_trans; [apply (round_at_mono q _ _ H)|].
  rewrite round_at_grid. apply Qle_refl.
Qed.

Lemma rounded_pos_bounds (x : Q) :
  0 < x ->
  0 <= rounded x <= pow2 (expo x + 1)
  /\ ((-1022 < expo x)%Z -> pow2 (expo x) <= rounded x).
Proof.
  intros Hx. assert (~ x == 0) as Hne by lra.
  unfold rounded. replace (Qeq_bool x 0) with false
    by (symmetry; apply not_true_iff_false; intros E; apply Qeq_bool_iff in E; contradiction).
  rewrite ulp_exp_expo. set (e := expo x). set (q := (e - 52)%Z).
  destruct (expo_bounds x Hne) as [H1 H2]. fold e in H1, H2.
  rewrite (Qabs_pos x) in H1, H2 by lra.
  split; [split|].
  - assert (inject_Z 0 * pow2 q <= round_at q x) as H
        by (apply round_at_ge_grid; change (inject_Z 0) with 0; lra).
    change (inject_Z 0) with 0 in H. lra.
  - rewrite (pow2_on_grid q (e + 1)) by (unfold q; lia).
    apply round_at_le_grid.
    rewrite <- (pow2_on_grid q (e + 1)) by (unfold q; lia). lra.
  - intros Hn. specialize (H2 Hn).
    rewrite (pow2_on_grid q e) by (unfold q; lia).
    apply round_at_ge_grid.
    rewrite <- (pow2_on_grid q e) by (unfold q; lia). exact H2.
Qed.

Lemma rounded_neg_bounds (x : Q) :
  x < 0 ->
  - pow2 (expo x + 1) <= rounded x <= 0
  /\ ((-1022 < expo x)%Z -> rounded x <= - pow2 (expo x)).
Proof.
  intros Hx. assert (~ x == 0) as Hne by lra.
  unfold rounded. replace (Qeq_bool x 0) with false
    by (symmetry; apply not_true_iff_false; intros E; apply Qeq_bool_iff in E; contradiction).
  rewrite ulp_exp_expo. set (e := expo x). set (q := (e - 52)%Z).
  destruct (expo_bounds x Hne) as [H1 H2]. fold e in H1, H2.
  rewrite (Qabs_neg x) in H1, H2 by lra.
  assert (forall k, - (inject_Z k * pow2 q) == inject_Z (- k) * pow2 q) as Hopp.
  { intros k. rewrite inject_Z_opp. ring. }
  split; [split|].
  - rewrite (pow2_on_grid q (e + 1)) by (unfold q; lia).
    rewrite Hopp. apply round_at_ge_grid.
    rewrite <- Hopp, <- (pow2_on_grid q (e + 1)) by (unfold q; lia). lra.
  - assert (round_at q x <= inject_Z 0 * pow2 q) as H
        by (apply round_at_le_grid; change (inject_Z 0) with 0; lra).
    change (inject_Z 0) with 0 in H. lra.
  - intros Hn. specialize (H2 Hn).
    rewrite (pow2_on_grid q e) by (unfold q; lia).
    rewrite Hopp. apply round_at_le_grid.
    rewrite <- Hopp, <- (pow2_on_grid q e) by (unfold q; lia). lra.
Qed.

Lemma rounded_0 (x : Q) : x == 0 -> rounded x = 0.
Proof.
  intros H. unfold rounded. apply Qeq_bool_iff in H. rewrite H. reflexivity.
Qed.

Lemma rounded_mono (x y : Q) : x <= y -> rounded x <= rounded y.
Proof.
  intros Hxy.
  destruct (Q_dec x 0) as [[Hx|Hx]|Hx]; destruct (Q_dec y 0) as [[Hy|Hy]|Hy];
    try (exfalso; lra).
  - (* both negative *)
    assert (~ y == 0) as Hyn by lra.
    assert ((expo y <= expo x)%Z) as He
        by (apply expo_le; [exact Hyn | rewrite !Qabs_neg by lra; lra]).
    destruct (Z.eq_dec (expo y) (expo x)) as [E|NE].
    + unfold rounded.
      replace (Qeq_bool x 0) with false
        by (symmetry; apply not_true_iff_false; intros E0; apply Qeq_bool_iff in E0; lra).
      replace (Qeq_bool y 0) with false
        by (symmetry; apply not_true_iff_false; intros E0; apply Qeq_bool_iff in E0; lra).
      rewrite !ulp_exp_expo, E. apply round_at_mono, Hxy.
    + destruct (rounded_neg_bounds x Hx) as [_ Hx2].
      destruct (rounded_neg_bounds y Hy) as [[Hy1 _] _].
      pose proof (expo_min y).
      assert (rounded x <= - pow2 (expo x)) as H1 by (apply Hx2; lia).
      assert (pow2 (expo y + 1) <= pow2 (expo x)) by (apply pow2_le; lia).
      lra.
  - destruct (rounded_neg_bounds x Hx) as [[_ H] _].
    destruct (rounded_pos_bounds y Hy) as [[H' _] _]. lra.
  - destruct (rounded_neg_bounds x Hx) as [[_ H] _]. rewrite (rounded_0 y Hy). exact H.
  - (* both positive *)
    assert (~ x == 0) as Hxn by lra.
    assert ((expo x <= expo y)%Z) as He
        by (apply expo_le; [exact Hxn | rewrite !Qabs_pos by lra; lra]).
    destruct (Z.eq_dec (expo x) (expo y)) as [E|NE].
    + unfold rounded.
      replace (Qeq_bool x 0) with false
        by (symmetry; apply not_true_iff_false; intros E0; apply Qeq_bool_iff in E0; lra).
      replace (Qeq_bool y 0) with false
        by (symmetry; apply not_true_iff_false; intros E0; apply Qeq_bool_iff in E0; lra).
      rewrite !ulp_exp_expo, E. apply round_at_mono, Hxy.
    + destruct (rounded_pos_bounds x Hx) as [[_ Hx1] _].
      destruct (rounded_pos_bounds y Hy) as [_ Hy2].
      pose proof (expo_min x).
      assert (pow2 (expo y) <= rounded y) as H1 by (apply Hy2; lia).
      assert (pow2 (expo x + 1) <= pow2 (expo y)) by (apply pow2_le; lia).
      lra.
  - rewrite (rounded_0 x Hx). destruct (rounded_pos_bounds y Hy) as [[H _] _]. exact H.
  - rewrite (rounded_0 x Hx), (rounded_0 y Hy). apply Qle_refl.
Qed.

(** Rounding keeps the order. *)
Lemma fl_mono (x y : Q) : x <= y -> fl x <= fl y.
Proof. intros H. rewrite !fl_rounded. apply clamp_mono, rounded_mono, H. Qed.

Lemma fl_0 : fl 0 = 0.
Proof. reflexivity. Qed.

Lemma fl_nonpos (x : Q) : x <= 0 -> fl x <= 0.
Proof. intros H. exact (fl_mono x 0 H). Qed.

Lemma fl_nonneg (x : Q) : 0 <= x -> 0 <= fl x.
Proof. intros H. exact (fl_mono 0 x H). Qed.

Lemma fl_comp (x y : Q) : x == y -> fl x == fl y.
Proof. intros H. apply Qle_antisym; apply fl_mono; rewrite H; apply Qle_refl. Qed.

(** *** Integers and quotients *)

Lemma rounded_nonzero (x : Q) : ~ x == 0 -> rounded x = round_at (expo x - 52) x.
Proof.
  intros H. unfold rounded.
  replace (Qeq_bool x 0) with false
    by (symmetry; apply not_true_iff_false; intros E; apply Qeq_bool_iff in E; contradiction).
  reflexivity.
Qed.

Lemma expo_upper (x : Q) (e : Z) :
  0 < x -> x < pow2 (e + 1) -> (-1022 <= e)%Z -> (expo x <= e)%Z.
Proof.
  intros Hx H2 He.
  destruct (expo_bounds x) as [_ B]; [lra|].
  pose proof (Qabs_pos x ltac:(lra)) as Ha.
  destruct (Z_lt_le_dec e (expo x)) as [C|C]; [|exact C].
  exfalso. assert (pow2 (e + 1) <= pow2 (expo x)) by (apply pow2_le; lia).
  specialize (B ltac:(lia)). lra.
Qed.

(** A value on the grid of its own binade is a double. *)
Lemma fl_on_grid (x : Q) (k : Z) :
  0 < x -> x < INF -> x == inject_Z k * pow2 (expo x - 52) -> fl x == x.
Proof.
  intros Hx Hi Hk. rewrite fl_rounded, rounded_nonzero by lra.
  assert (round_at (expo x - 52) x == x) as E.
  { rewrite (round_at_comp _ _ _ Hk), round_at_grid. symmetry. exact Hk. }
  destruct (clamp_cases (round_at (expo x - 52) x)) as [[H _]|[[H _]|[_ ->]]].
  - lra.
  - pose proof INF_pos. lra.
  - exact E.
Qed.

(** The integers below [2^53] are doubles. *)
Lemma fl_int (k : Z) : (0 <= k <= 2 ^ 53)%Z -> fl (inject_Z k) == inject_Z k.
Proof.
  intros Hk. destruct (Z.eq_dec k 0) as [->|Hne]; [reflexivity|].
  assert (0 < inject_Z k) as Hpos by (apply inject_Z_pos; lia).
  assert (inject_Z k <= pow2 53) as Hup.
  { rewrite pow2_Z by lia. rewrite <- Zle_Qle. lia. }
  assert (pow2 53 < INF) as H53 by (apply pow2_lt; lia).
  assert (pow2 0 <= inject_Z k) as Hlow.
  { rewrite pow2_Z by lia. rewrite <- Zle_Qle. change (2 ^ 0)%Z with 1%Z. lia. }
  set (e := expo (inject_Z k)).
  assert (0 <= e)%Z as He0.
  { destruct (expo_bounds (inject_Z k)) as [B _]; [lra|]. fold e in B.
    rewrite Qabs_pos in B by lra.
    destruct (Z_lt_le_dec e 0) as [C|C]; [|exact C].
    exfalso. assert (pow2 (e + 1) <= pow2 0) by (apply pow2_le; lia). lra. }
  destruct (Z_le_gt_dec e 52) as [He|He].
  - apply (fl_on_grid _ (k * 2 ^ (52 - e))); [exact Hpos | lra |]. fold e.
    rewrite inject_Z_mult, <- pow2_Z by lia.
    rewrite <- Qmult_assoc, <- pow2_plus.
    replace (52 - e + (e - 52))%Z with 0%Z by lia.
    change (pow2 0) with 1. ring.
  - (* only [2^53] itself *)
    assert (e = 53)%Z as E53.
    { assert (e <= 53)%Z; [|lia]. apply expo_upper; [exact Hpos | | lia].
      eapply Qle_lt_trans; [exact Hup|]. apply pow2_lt. lia. }
    assert (inject_Z k == pow2 53) as Ek.
    { apply Qle_antisym; [exact Hup|].
      destruct (expo_bounds (inject_Z k)) as [_ B]; [lra|]. fold e in B.
      rewrite E53 in B. rewrite Qabs_pos in B by lra. apply B. lia. }
    apply (fl_on_grid _ (2 ^ 52)); [exact Hpos | lra |]. fold e. rewrite E53, Ek.
    rewrite <- pow2_Z by lia. rewrite <- pow2_plus. reflexivity.
Qed.

Lemma clamp_pos_le (r : Q) : 0 <= r -> clamp r <= r.
Proof.
  intros H. pose proof INF_pos.
  destruct (clamp_cases r) as [[Hr ->]|[[Hr ->]|[_ ->]]]; lra.
Qed.

(** Rounding a positive number raises it by at most half a unit in the
    last place. *)
Lemma fl_above (x : Q) : 0 < x -> fl x - x <= pow2 (expo x - 53).
Proof.
  intros Hx. rewrite fl_rounded.
  destruct (rounded_pos_bounds x Hx) as [[H0 _] _].
  pose proof (clamp_pos_le _ H0) as Hc.
  rewrite rounded_nonzero in Hc |- * by lra.
  destruct (round_at_err (expo x - 52) x) as [_ He].
  replace (expo x - 52 - 1)%Z with (expo x - 53)%Z in He by lia.
  rewrite rounded_nonzero in H0 by lra. lra.
Qed.

Lemma Qfloor_unique (y : Q) (k : Z) :
  inject_Z k <= y -> y < inject_Z (k + 1) -> Qfloor y = k.
Proof.
  intros H1 H2. pose proof (Qfloor_le y) as F1. pose proof (Qlt_floor y) as F2.
  assert (inject_Z k < inject_Z (Qfloor y + 1)) as A
      by (eapply Qle_lt_trans; [exact H1 | exact F2]).
  assert (inject_Z (Qfloor y) < inject_Z (k + 1)) as B
      by (eapply Qle_lt_trans; [exact F1 | exact H2]).
  rewrite <- Zlt_Qlt in A, B. lia.
Qed.

(** [Math.floor(t / d)] is the integer quotient as long as [t] is below
    [2^53]: the quotient is rounded by less than [1/d]. *)
Lemma floor_fl_div (t d : Z) :
  (0 <= t < 2 ^ 53)%Z -> (0 < d <= 2 ^ 53)%Z ->
  Qfloor (fl (inject_Z t / inject_Z d)) = (t / d)%Z.
Proof.
  intros Ht Hd.
  assert (0 < inject_Z d) as Hdq by (apply inject_Z_pos; lia).
  pose proof (Z.div_mod t d ltac:(lia)) as Hdm.
  pose proof (Z.mod_pos_bound t d ltac:(lia)) as Hmod.
  set (k := (t / d)%Z) in *. set (r := (t mod d)%Z) in *.
  assert (0 <= k)%Z as Hk0 by (apply Z.div_pos; lia).
  set (u := / inject_Z d).
  assert (0 < u) as Hu by (apply Qinv_lt_0_compat; exact Hdq).
  assert (inject_Z d * u == 1) as Hdu by (unfold u; field; lra).
  assert (inject_Z t / inject_Z d == inject_Z t * u) as Hx0 by reflexivity.
  assert (inject_Z t == inject_Z d * inject_Z k + inject_Z r) as Htq
      by (rewrite Hdm at 1; rewrite inject_Z_plus, inject_Z_mult; reflexivity).
  assert (inject_Z t * u == inject_Z k + inject_Z r * u) as Hx.
  { rewrite Htq. setoid_replace ((inject_Z d * inject_Z k + inject_Z r) * u)
      with (inject_Z k * (inject_Z d * u) + inject_Z r * u) by ring.
    rewrite Hdu. ring. }
  assert (0 <= inject_Z r * u) as Hr0.
  { apply Qmult_le_0_compat; [|lra]. change 0 with (inject_Z 0).
    rewrite <- Zle_Qle. lia. }
  assert (inject_Z r * u <= 1 - u) as Hr1.
  { assert (inject_Z r + 1 <= inject_Z d) as Hrd.
    { change 1 with (inject_Z 1). rewrite <- inject_Z_plus, <- Zle_Qle. lia. }
    apply (Qmult_le_compat_r _ _ u) in Hrd; [|lra].
    setoid_replace ((inject_Z r + 1) * u) with (inject_Z r * u + u) in Hrd by ring.
    lra. }
  apply Qfloor_unique.
  - assert (k <= 2 ^ 53)%Z as Hk53.
    { assert (k <= t)%Z; [|lia]. unfold k. apply Z.div_le_upper_bound; nia. }
    rewrite <- (fl_int k) by lia. apply fl_mono. rewrite Hx0, Hx. lra.
  - rewrite inject_Z_plus. change (inject_Z 1) with 1.
    destruct (Z.eq_dec t 0) as [Et|Et].
    + assert (inject_Z t / inject_Z d == 0) as E0.
      { rewrite Et. unfold Qdiv. apply Qmult_0_l. }
      rewrite (fl_comp _ _ E0). change (fl 0) with 0.
      assert (0 <= inject_Z k); [|lra].
      change 0 with (inject_Z 0). rewrite <- Zle_Qle. lia.
    + rewrite (fl_comp _ _ Hx0).
      set (x := inject_Z t * u) in *.
      assert (1 <= inject_Z t) as Ht1
          by (change 1 with (inject_Z 1); rewrite <- Zle_Qle; lia).
      assert (inject_Z t < pow2 53) as Ht53
          by (rewrite pow2_Z by lia; rewrite <- Zlt_Qlt; lia).
      assert (inject_Z d <= pow2 53) as Hd53
          by (rewrite pow2_Z by lia; rewrite <- Zle_Qle; lia).
      assert (pow2 53 * pow2 (-53) == 1) as Hpp
          by (rewrite <- pow2_plus; reflexivity).
      pose proof (pow2_pos (-53)) as Hp53.
      assert (pow2 (-53) <= u) as Hu53.
      { apply (Qmult_le_compat_r _ _ u) in Hd53; [|lra].
        apply (Qmult_le_compat_r _ _ (pow2 (-53))) in Hd53; [|lra].
        setoid_replace (pow2 53 * u * pow2 (-53)) with (pow2 53 * pow2 (-53) * u)
          in Hd53 by ring.
        rewrite Hdu, Hpp in Hd53. lra. }
      assert (u <= x) as Hux.
      { unfold x. apply (Qmult_le_compat_r _ _ u) in Ht1; lra. }
      assert (0 < x) as Hxpos by lra.
      pose proof (fl_above x Hxpos) as Herr.
      destruct (expo_bounds x) as [B1 B2]; [lra|].
      rewrite Qabs_pos in B1, B2 by lra.
      assert (-1022 < expo x)%Z as Hn.
      { destruct (Z_lt_le_dec (-1022) (expo x)) as [C|C]; [exact C|].
        exfalso. assert (pow2 (expo x + 1) <= pow2 (-53)) by (apply pow2_le; lia).
        lra. }
      specialize (B2 Hn).
      assert (pow2 (expo x - 53) == pow2 (expo x) * pow2 (-53)) as Hsplit
          by (rewrite <- pow2_plus; reflexivity).
      assert (pow2 (expo x) * pow2 (-53) <= x * pow2 (-53)) as H1
          by (apply Qmult_le_compat_r; lra).
      assert (x * pow2 (-53) < u) as H2.
      { unfold x.
        setoid_replace (inject_Z t * u * pow2 (-53))
          with (inject_Z t * pow2 (-53) * u) by ring.
        assert (inject_Z t * pow2 (-53) < 1) as H3.
        { apply (Qmult_lt_compat_r _ _ (pow2 (-53))) in Ht53; [|exact Hp53].
          rewrite Hpp in Ht53. exact Ht53. }
        apply (Qmult_lt_compat_r _ _ u) in H3; [|exact Hu]. lra. }
      rewrite Hsplit in Herr. lra.
Qed.

End DoubleFacts.
(** ** The dedup pass *)

Lemma jstr_eqb_eq (a b : jstr) : jstr_eqb a b = true <-> a = b.
Proof.
  unfold jstr_eqb. destruct (list_eq_dec N.eq_dec a b); split; congruence.
Qed.

Lemma jstr_eqb_refl (a : jstr) : jstr_eqb a a = true.
Proof. apply jstr_eqb_eq. reflexivity. Qed.

Lemma last_cons {A} (a d : A) (l : list A) : last (a :: l) d = last l a.
Proof.
  revert a d. induction l as [|b l IH]; intros a d; [reflexivity|].
  change (last (a :: b :: l) d) with (last (b :: l) d). rewrite !IH. reflexivity.
Qed.

Section Dedup.
Context {A : Type} (key : A -> jstr).

Lemma dedup_from_cons (prev : jstr) (c : A) (l : list A) :
  dedup_from key prev (c :: l)
  = (if keepb key prev c then [c] else []) ++ dedup_from key (key c) l.
Proof. unfold keepb. simpl. destruct (_ && _); reflexivity. Qed.

Lemma dedup_from_app (prev : jstr) (l1 l2 : list A) :
  dedup_from key prev (l1 ++ l2)
  = dedup_from key prev l1
    ++ dedup_from key (last (map key l1) prev) l2.
Proof.
  revert prev. induction l1 as [|c l1 IH]; intros prev.
  - reflexivity.
  - rewrite <- app_comm_cons, !dedup_from_cons, IH, <- app_assoc.
    do 2 f_equal. simpl map. rewrite last_cons. reflexivity.
Qed.

Lemma dedup_from_incl (prev : jstr) (l : list A) (x : A) :
  In x (dedup_from key prev l) -> In x l.
Proof.
  revert prev. induction l as [|c l IH]; intros prev; [easy|].
  rewrite dedup_from_cons. intros H. apply in_app_or in H. destruct H as [H|H].
  - destruct (keepb key prev c); [left; destruct H as [H|[]]; exact H | destruct H].
  - right. eapply IH, H.
Qed.

Lemma dedup_from_positions (prev : jstr) (l : list A) :
  dedup_from key prev l
  = map snd (filter (fun pc => keepb key (fst pc) (snd pc))
                    (combine (prev :: map key l) l)).
Proof.
  revert prev. induction l as [|c l IH]; intros prev; [reflexivity|].
  rewrite dedup_from_cons, IH. simpl combine. simpl filter.
  destruct (keepb key prev c); reflexivity.
Qed.

Lemma dedup_from_map {B : Type} (g : B -> A) (prev : jstr) (l : list B) :
  map g (dedup_from (fun x => key (g x)) prev l) = dedup_from key prev (map g l).
Proof.
  revert prev. induction l as [|c l IH]; intros prev; [reflexivity|].
  simpl. destruct (_ && _); simpl; rewrite IH; reflexivity.
Qed.

Lemma dedup_from_StronglySorted (R : A -> A -> Prop) (prev : jstr) (l : list A) :
  StronglySorted R l -> StronglySorted R (dedup_from key prev l).
Proof.
  intros H. revert prev. induction H as [|c l Hl IH Hc]; intros prev.
  - constructor.
  - rewrite dedup_from_cons.
    assert (Forall (R c) (dedup_from key (key c) l)) as Hall.
    { rewrite Forall_forall in *. intros x Hx. eapply Hc, dedup_from_incl, Hx. }
    destruct (keepb key prev c); simpl; [constructor|]; auto.
Qed.
End Dedup.

Lemma StronglySorted_adjacent {A} (R : A -> A -> Prop) (l : list A) i x y :
  StronglySorted R l -> nth_error l i = Some x -> nth_error l (S i) = Some y -> R x y.
Proof.
  intros H. revert i. induction H as [|c l Hl IH Hc]; intros i Hx Hy.
  - destruct i; discriminate.
  - destruct i as [|i].
    + simpl in Hx, Hy. injection Hx as <-.
      rewrite Forall_forall in Hc. apply Hc.
      destruct l; [discriminate|]. simpl in Hy. injection Hy as <-. now left.
    + simpl in Hx. change (nth_error l (S i) = Some y) in Hy. eauto.
Qed.

(** ** The scan loop *)

Lemma has_at_false (a : jstr) (l : list Chapter) :
  has_at a l = false <-> ~ In a (map at_ l).
Proof.
  unfold has_at. induction l as [|c l IH]; simpl.
  - tauto.
  - rewrite orb_false_iff, IH. split.
    + intros [H1 H2] [H|H]; [|tauto]. subst a. rewrite jstr_eqb_refl in H1. discriminate.
    + intros H. split; [|tauto].
      destruct (jstr_eqb (at_ c) a) eqn:E; [|reflexivity].
      apply jstr_eqb_eq in E. tauto.
Qed.

Lemma has_at_true (a : jstr) (l : list Chapter) :
  has_at a l = true <-> In a (map at_ l).
Proof.
  destruct (has_at a l) eqn:E.
  - split; [intros _|reflexivity].
    destruct (in_dec (list_eq_dec N.eq_dec) a (map at_ l)) as [H|H]; [exact H|].
    apply has_at_false in H. congruence.
  - apply has_at_false in E. split; [discriminate | tauto].
Qed.

Lemma fold_left_invariant {A B : Type} (f : A -> B -> A) (P : A -> Prop) (l : list B) :
  (forall a b, In b l -> P a -> P (f a b)) -> forall a, P a -> P (fold_left f l a).
Proof.
  induction l as [|b l IH]; intros Hf a Ha; [exact Ha|].
  simpl. apply IH.
  - intros a' b' Hb'. apply Hf. now right.
  - apply Hf; [now left | exact Ha].
Qed.

Lemma NoDup_snoc {A} (l : list A) (x : A) :
  NoDup l -> ~ In x l -> NoDup (l ++ [x]).
Proof.
  induction 1 as [|y l Hy Hl IH]; intros Hx; simpl.
  - repeat constructor. intros [].
  - constructor.
    + rewrite in_app_iff. simpl. intros [H|[H|[]]]; [tauto|]. subst. apply Hx. now left.
    + apply IH. intros H. apply Hx. now right.
Qed.

Section Scan.
Local Open Scope Q_scope.
Variable minGap : Q.
Variable pick : jstr -> jstr.

Lemma scan_step_erase (chs : list (SrtEntry * Chapter)) (la : option Q) (e : SrtEntry) :
  scan_step minGap pick (map snd chs, la) e
  = (map snd (fst (scan_step_traced minGap pick (chs, la) e)),
     snd (scan_step_traced minGap pick (chs, la) e)).
Proof.
  unfold scan_step, scan_step_traced.
  destruct (negb (gapOk minGap la e) || negb (contentful e)); [reflexivity|].
  destruct (negb (has_at _ _)); [|reflexivity].
  simpl. rewrite map_app. reflexivity.
Qed.

Lemma scan_erase (entries : list SrtEntry) :
  scan minGap pick entries
  = (map snd (fst (scan_traced minGap pick entries)),
     snd (scan_traced minGap pick entries)).
Proof.
  unfold scan, scan_traced.
  change (@nil Chapter, @None Q) with (map snd (@nil (SrtEntry * Chapter)), @None Q).
  generalize (@nil (SrtEntry * Chapter)) (@None Q).
  induction entries as [|e es IH]; intros chs la; [reflexivity|].
  cbn [fold_left]. rewrite scan_step_erase.
  destruct (scan_step_traced minGap pick (chs, la) e) as [chs' la'].
  apply IH.
Qed.


Lemma StronglySorted_snoc {A} (R : A -> A -> Prop) (l : list A) (x : A) :
  StronglySorted R l -> Forall (fun y => R y x) l -> StronglySorted R (l ++ [x]).
Proof.
  intros H. induction H as [|c l Hl IH Hc]; intros Hx; simpl.
  - repeat constructor.
  - inversion Hx; subst. constructor; [auto|].
    apply Forall_app. split; [assumption | repeat constructor; assumption].
Qed.

Lemma chained_snoc {A} (R : A -> A -> Prop) (l : list A) (x : A) :
  chained R l ->
  (forall y, hd_error (rev l) = Some y -> R y x) ->
  chained R (l ++ [x]).
Proof.
  induction l as [|a l IH]; intros Hc Hl; [exact I|].
  destruct l as [|b l'].
  - simpl. split; [|exact I]. apply Hl. reflexivity.
  - change ((a :: b :: l') ++ [x]) with (a :: (b :: l') ++ [x]).
    destruct Hc as [Hab Hc]. cbn [chained app]. split; [exact Hab|].
    apply IH; [exact Hc|].
    intros y Hy. apply Hl. cbn [rev] in *.
    destruct (rev l' ++ [b]) as [|z r] eqn:E; [discriminate|].
    cbn [app hd_error] in *. exact Hy.
Qed.

Lemma last_start_snoc (chs : list (SrtEntry * Chapter)) (x : SrtEntry * Chapter) :
  last_start (chs ++ [x]) = Some (start (fst x)).
Proof. unfold last_start. rewrite rev_app_distr. reflexivity. Qed.

Lemma last_start_hd (chs : list (SrtEntry * Chapter)) (a : Q) (y : SrtEntry) :
  last_start chs = Some a -> hd_error (rev (map fst chs)) = Some y -> start y = a.
Proof.
  unfold last_start. rewrite <- map_rev. destruct (rev chs) as [|x r]; [discriminate|].
  cbn [map hd_error]. intros H1 H2. injection H1 as <-. injection H2 as <-. reflexivity.
Qed.

Lemma scan_step_inv (entries : list SrtEntry) acc e :
  In e entries -> scan_inv minGap pick entries acc ->
  scan_inv minGap pick entries (scan_step_traced minGap pick acc e).
Proof.
  intros He [Hmade Hnodup Hlast Hchain Hsorted Hbelow]. destruct acc as [chs la].
  simpl in *. unfold scan_step_traced.
  destruct (negb (gapOk minGap la e) || negb (contentful e)) eqn:Egate;
    [constructor; assumption|].
  destruct (negb (has_at _ _)) eqn:Edup; [|constructor; assumption].
  apply orb_false_iff in Egate. destruct Egate as [Egap Econt].
  apply negb_false_iff in Egap, Econt. apply negb_true_iff in Edup.
  apply has_at_false in Edup.
  assert (forall a, la = Some a -> minGap <= Double.sub (start e) a) as Hgap.
  { intros a ->. simpl in Egap. apply Qle_bool_iff in Egap. exact Egap. }
  assert (0 < minGap -> forall a, la = Some a -> a < start e) as Hup.
  { intros Hg a Ha. specialize (Hgap a Ha).
    destruct (Qlt_le_dec a (start e)) as [C|C]; [exact C|].
    exfalso. assert (Double.sub (start e) a <= 0) by (apply fl_nonpos; lra). lra. }
  assert (0 < minGap -> Forall (fun x => gap_rel minGap (fst x) e) chs) as Hrel.
  { intros Hg. destruct la as [a|].
    - specialize (Hbelow Hg a eq_refl). specialize (Hgap a eq_refl).
      unfold gap_rel. eapply Forall_impl; [|exact Hbelow]. simpl. intros x Hx.
      eapply Qle_trans; [exact Hgap|]. apply fl_mono. lra.
    - destruct chs as [|x chs']; [constructor|].
      exfalso. unfold last_start in Hlast. cbn [rev] in Hlast.
      destruct (rev chs' ++ [x]) eqn:E; [|discriminate].
      destruct (rev chs'); discriminate. }
  constructor; simpl.
  - apply Forall_app. split; [assumption|]. repeat constructor; assumption.
  - rewrite !map_app. simpl. apply NoDup_snoc; assumption.
  - rewrite last_start_snoc. reflexivity.
  - rewrite map_app. apply chained_snoc; [exact Hchain|].
    intros y Hy. unfold gap_rel. destruct la as [a|].
    + rewrite (last_start_hd chs a y (eq_sym Hlast) Hy). apply Hgap. reflexivity.
    + exfalso. unfold last_start in Hlast. rewrite <- map_rev in Hy.
      destruct (rev chs); discriminate.
  - intros Hg. rewrite map_app. simpl. apply StronglySorted_snoc; [auto|].
    rewrite Forall_map. auto.
  - intros Hg a Ha. injection Ha as <-.
    apply Forall_app. split.
    + destruct la as [a|].
      * specialize (Hbelow Hg a eq_refl). specialize (Hup Hg a eq_refl).
        eapply Forall_impl; [|exact Hbelow]. simpl. intros x Hx. lra.
      * destruct chs as [|x chs']; [constructor|].
        exfalso. unfold last_start in Hlast. cbn [rev] in Hlast.
        destruct (rev chs' ++ [x]) eqn:E; [|discriminate].
        destruct (rev chs'); discriminate.
    + repeat constructor. simpl. lra.
Qed.

Lemma scan_traced_inv (entries : list SrtEntry) :
  scan_inv minGap pick entries (scan_traced minGap pick entries).
Proof.
  unfold scan_traced.
  apply fold_left_invariant with (P := scan_inv minGap pick entries).
  - intros a b Hb Ha. apply scan_step_inv; assumption.
  - constructor; simpl; intros; try constructor; try reflexivity; discriminate.
Qed.
End Scan.

(** ** Facts about the matcher *)

Lemma match_at_one (P : N -> bool) (before after : list N) :
  match_at [one P] before after
  = match after with
    | c :: after' => if P c then Some (MState (c :: before) after' [] []) else None
    | [] => None
    end.
Proof.
  unfold match_at, one, init_state. destruct after as [|c after']; [reflexivity|].
  cbn. destruct (P c); reflexivity.
Qed.

Lemma test_one (P : N -> bool) (s : jstr) : test [one P] s = existsb P s.
Proof.
  unfold test. generalize (@nil N) as before.
  induction s as [|c s IH]; intros before.
  - reflexivity.
  - cbn [search existsb]. rewrite match_at_one.
    destruct (P c); [reflexivity|]. apply IH.
Qed.

Lemma replace_all_from_length (r : regex) (f : mstate -> jstr) :
  (forall before after st,
      match_at r before after = Some st ->
      length (f st) + length (rest st) = length after) ->
  forall fuel before after,
    length (replace_all_from fuel r f before after) = length after.
Proof.
  intros Hf. induction fuel as [|fuel IH]; intros before after; [reflexivity|].
  cbn [replace_all_from].
  assert (length match after with
                 | [] => []
                 | c :: after' => c :: replace_all_from fuel r f (c :: before) after'
                 end = length after) as Hstep.
  { destruct after; [reflexivity|]. simpl. now rewrite IH. }
  destruct (match_at r before after) as [st|] eqn:E; [|exact Hstep].
  specialize (Hf _ _ _ E).
  destruct (length (rest st) <? length after) eqn:Elt; rewrite length_app.
  - rewrite IH. exact Hf.
  - apply Nat.ltb_ge in Elt. rewrite Hstep. lia.
Qed.

Lemma match_word_start (before after : list N) (st : mstate) :
  match_at WORD_START_RE before after = Some st ->
  length (map upper_unit (group 1 (caps st))) + length (rest st) = length after.
Proof.
  unfold match_at, WORD_START_RE, init_state, one. cbn [m pre rest opens caps].
  destruct (xorb _ _); [|discriminate].
  destruct after as [|c after']; [discriminate|].
  cbn [run_len]. destruct (isLower c); [|discriminate].
  cbn -[Nat.sub]. change (2 - 1) with 1. cbn -[Nat.sub].
  replace (S (length before) - length before) with 1 by lia.
  intros H; injection H as <-; reflexivity.
Qed.

(** ** Lengths *)

Lemma trimStart_length (s : jstr) : length (trimStart s) <= length s.
Proof.
  induction s as [|c s IH]; simpl; [lia|]. destruct (isSpace c); simpl; lia.
Qed.

Lemma trim_length (s : jstr) : length (trim s) <= length s.
Proof.
  unfold trim. rewrite length_rev.
  etransitivity; [apply trimStart_length|]. rewrite length_rev.
  apply trimStart_length.
Qed.

Lemma slice0_length (s : jstr) (e : Z) :
  (0 <= e)%Z -> (Z.of_nat (length (slice0 s e)) <= e)%Z.
Proof.
  intros He. unfold slice0. destruct (e <? 0)%Z eqn:E; [lia|].
  rewrite length_firstn. lia.
Qed.

Lemma pickTitle_length (L : Z) (p : bool) (txt : jstr) :
  (1 <= L)%Z ->
  pickTitle L p txt = str "Chapter"
  \/ (Z.of_nat (length (pickTitle L p txt)) <= L)%Z.
Proof.
  intros HL. unfold pickTitle.
  set (t1 := replace_first TRAIL_RE [] _).
  match goal with
  | |- context [replace_all WORD_START_RE _ ?t] => set (t2 := t)
  end.
  assert (Z.of_nat (length t2) <= L)%Z as Ht2.
  { subst t2. destruct (Z.of_nat (length t1) >? L)%Z eqn:E1; [|lia].
    set (t' := trim _).
    destruct (Z.of_nat (length t') >? L)%Z eqn:E2; [|lia].
    rewrite length_app. simpl.
    pose proof (trim_length (slice0 t' (L - 1))).
    pose proof (slice0_length t' (L - 1)). lia. }
  set (t3 := replace_all _ _ t2).
  assert (length t3 = length t2) as Ht3.
  { subst t3. unfold replace_all. apply replace_all_from_length.
    exact match_word_start. }
  destruct (is_empty t3); [now left | right; lia].
Qed.

(** ** Anchors *)

Lemma uint_chars_digits (d : Decimal.uint) : forallb isDigit (uint_chars d) = true.
Proof. induction d; simpl; auto. Qed.

Lemma padStart2_digits (s : jstr) :
  forallb isDigit s = true -> forallb isDigit (padStart2 s) = true.
Proof.
  intros H. unfold padStart2. rewrite forallb_app, H, andb_true_r.
  generalize (2 - length s). induction n; simpl; auto.
Qed.

Lemma padStart2_length (s : jstr) : 2 <= length (padStart2 s).
Proof. unfold padStart2. rewrite length_app, repeat_length. lia. Qed.

Lemma split_colon_digits (h r : jstr) :
  forallb isDigit h = true -> split_colon (h ++ 58%N :: r) = Some (h, r).
Proof.
  induction h as [|c h IH]; simpl; [reflexivity|].
  intros H. apply andb_true_iff in H. destruct H as [Hc Hh].
  rewrite (IH Hh).
  destruct (isCh 58 c) eqn:E; [|reflexivity].
  unfold isCh in E. apply N.eqb_eq in E. subst c. discriminate.
Qed.

Lemma split_colon_none (s : jstr) :
  forallb isDigit s = true -> split_colon s = None.
Proof.
  induction s as [|c s IH]; simpl; [reflexivity|].
  intros H. apply andb_true_iff in H. destruct H as [Hc Hs].
  rewrite (IH Hs).
  destruct (isCh 58 c) eqn:E; [|reflexivity].
  unfold isCh in E. apply N.eqb_eq in E. subst c. discriminate.
Qed.

Lemma minutes_two_digits (n : nat) :
  n < 60 -> two_digits_below_60 (padStart2 (NatString (N.of_nat n))) = true.
Proof.
  intros H. do 60 (destruct n as [|n]; [reflexivity|]). lia.
Qed.

Lemma minutes_digits (n : nat) :
  n < 60 -> forallb isDigit (padStart2 (NatString (N.of_nat n))) = true.
Proof.
  intros _. apply padStart2_digits, uint_chars_digits.
Qed.

Lemma anchor_of_well_formed (h m : Z) :
  (0 <= m < 60)%Z -> well_formed_anchor (anchor_of h m) = true.
Proof.
  intros Hmm. unfold anchor_of, well_formed_anchor.
  replace (Z.to_N m) with (N.of_nat (Z.to_nat m)) by lia.
  assert (Z.to_nat m < 60) as Hn by lia.
  destruct (h >? 0)%Z.
  - rewrite <- app_assoc. change (str ":" ++ ?x) with (58%N :: x).
    rewrite split_colon_digits by apply padStart2_digits, uint_chars_digits.
    rewrite (minutes_two_digits _ Hn).
    rewrite padStart2_digits by apply uint_chars_digits.
    pose proof (padStart2_length (NatString (Z.to_N h))) as Hl.
    apply Nat.leb_le in Hl. rewrite Hl. reflexivity.
  - simpl app. rewrite split_colon_none by (apply minutes_digits; exact Hn).
    apply minutes_two_digits; exact Hn.
Qed.

(** The digits of a number read back as the number. *)
Lemma digits_value_acc (d : Decimal.uint) (acc : positive) :
  fold_left (fun a c => (a * 10 + (Z.of_N c - 48))%Z) (uint_chars d) (Zpos acc)
  = Zpos (Pos.of_uint_acc d acc).
Proof.
  revert acc. induction d; intros acc; cbn [uint_chars fold_left Pos.of_uint_acc];
    [reflexivity | rewrite <- IHd; f_equal; lia ..].
Qed.

Lemma digits_value_uint (d : Decimal.uint) :
  digits_value (uint_chars d) = Z.of_N (Pos.of_uint d).
Proof.
  unfold digits_value. induction d; cbn [uint_chars fold_left Pos.of_uint];
    [reflexivity | exact IHd | apply (digits_value_acc d) ..].
Qed.

Lemma digits_value_NatString (n : N) : digits_value (NatString n) = Z.of_N n.
Proof.
  unfold NatString. rewrite digits_value_uint.
  change (Pos.of_uint (N.to_uint n)) with (N.of_uint (N.to_uint n)).
  rewrite DecimalN.Unsigned.of_to. reflexivity.
Qed.

Lemma digits_value_padStart2 (s : jstr) : digits_value (padStart2 s) = digits_value s.
Proof.
  unfold padStart2, digits_value. rewrite fold_left_app.
  replace (fold_left _ (repeat 48%N (2 - length s)) 0%Z) with 0%Z; [reflexivity|].
  induction (2 - length s) as [|k IH]; [reflexivity | exact IH].
Qed.

Lemma anchor_of_minutes (h m : Z) :
  (0 <= h)%Z -> (0 <= m)%Z -> anchor_minutes (anchor_of h m) = (h * 60 + m)%Z.
Proof.
  intros Hh Hm. unfold anchor_of, anchor_minutes.
  destruct (h >? 0)%Z eqn:E.
  - rewrite <- app_assoc. change (str ":" ++ ?x) with (58%N :: x).
    rewrite split_colon_digits by apply padStart2_digits, uint_chars_digits.
    rewrite !digits_value_padStart2, !digits_value_NatString. lia.
  - simpl app. rewrite split_colon_none by apply padStart2_digits, uint_chars_digits.
    rewrite digits_value_padStart2, digits_value_NatString.
    assert (h = 0)%Z by lia. lia.
Qed.

Lemma String_of_int_small (k : Z) :
  (k < 2 ^ 53)%Z -> Double.String_of_int k = NatString (Z.to_N k).
Proof.
  intros H. unfold Double.String_of_int.
  replace (k <? 2 ^ 53)%Z with true by (symmetry; apply Z.ltb_lt; exact H).
  reflexivity.
Qed.

(** Below [2^53] seconds the two divisions are exact. *)
Lemma secToHHMM_exact (sec : Q) :
  (Qfloor sec < 2 ^ 53)%Z ->
  secToHHMM sec
  = anchor_of (Z.max 0 (Qfloor sec) / 3600) ((Z.max 0 (Qfloor sec) mod 3600) / 60).
Proof.
  intros H. unfold secToHHMM, anchor_of, Double.div.
  set (t := Z.max 0 (Qfloor sec)).
  assert (0 <= t < 2 ^ 53)%Z as Ht by (unfold t; lia).
  pose proof (Z.mod_pos_bound t 3600 ltac:(lia)) as Hmod.
  change 3600%Q with (inject_Z 3600). change 60%Q with (inject_Z 60).
  rewrite (floor_fl_div t 3600) by lia.
  rewrite (floor_fl_div (t mod 3600) 60) by lia.
  assert (t / 3600 <= t)%Z as Hh by (apply Z.div_le_upper_bound; lia).
  assert ((t mod 3600) / 60 < 60)%Z as Hm by (apply Z.div_lt_upper_bound; lia).
  rewrite !String_of_int_small by lia. reflexivity.
Qed.

Lemma secToHHMM_well_formed (sec : Q) :
  (Qfloor sec < 2 ^ 53)%Z -> well_formed_anchor (secToHHMM sec) = true.
Proof.
  intros H. rewrite secToHHMM_exact by exact H.
  apply anchor_of_well_formed.
  pose proof (Z.mod_pos_bound (Z.max 0 (Qfloor sec)) 3600 ltac:(lia)).
  split; [apply Z.div_pos; lia | apply Z.div_lt_upper_bound; lia].
Qed.

Lemma secToHHMM_minutes (sec : Q) :
  (Qfloor sec < 2 ^ 53)%Z ->
  anchor_minutes (secToHHMM sec) = (Z.max 0 (Qfloor sec) / 60)%Z.
Proof.
  intros H. rewrite secToHHMM_exact by exact H.
  set (t := Z.max 0 (Qfloor sec)). assert (0 <= t)%Z as Ht by (unfold t; lia).
  pose proof (Z.mod_pos_bound t 3600 ltac:(lia)) as Hmod.
  rewrite anchor_of_minutes by (apply Z.div_pos; lia).
  pose proof (Z.div_mod t 3600 ltac:(lia)) as H1.
  pose proof (Z.div_mod (t mod 3600) 60 ltac:(lia)) as H2.
  pose proof (Z.mod_pos_bound (t mod 3600) 60 ltac:(lia)) as H3.
  apply (Z.div_unique t 60 _ ((t mod 3600) mod 60)); lia.
Qed.

Lemma secToHHMM_floor (sec : Q) :
  secToHHMM sec = secToHHMM (inject_Z (Z.max 0 (Qfloor sec))).
Proof.
  unfold secToHHMM. rewrite Qfloor_Z.
  replace (Z.max 0 (Z.max 0 (Qfloor sec))) with (Z.max 0 (Qfloor sec)) by lia.
  reflexivity.
Qed.

Lemma secToHHMM_negative (sec : Q) : (sec < 0)%Q -> secToHHMM sec = str "00".
Proof.
  intros H. unfold secToHHMM.
  assert (Qfloor sec < 0)%Z as Hf.
  { rewrite Zlt_Qlt. eapply Qle_lt_trans; [apply Qfloor_le | exact H]. }
  replace (Z.max 0 (Qfloor sec)) with 0%Z by lia. reflexivity.
Qed.

(** ** The assembled list *)

Section Assembled.
Local Open Scope Q_scope.
Variable opts : option Opts.
Variable entries : list SrtEntry.

Let pick := pickTitle (opt_titleMaxLen opts) (opt_preferSentenceEnds opts).
Let minGap := opt_minGapSec opts.


Lemma assemble_erase : map snd (assemble_traced opts entries) = assemble opts entries.
Proof.
  unfold assemble_traced, assemble, ensure_zero. rewrite scan_erase. cbn [fst].
  destruct (negb (has_at _ _)); cbn [map snd]; rewrite map_map; reflexivity.
Qed.

Lemma assemble_traced_ok : Forall (traced_ok opts entries) (assemble_traced opts entries).
Proof.
  pose proof (inv_made _ _ _ _ (scan_traced_inv minGap pick entries)) as H.
  assert (Forall (traced_ok opts entries) (map real (fst (scan_traced minGap pick entries)))) as H'.
  { rewrite Forall_map. eapply Forall_impl; [|exact H].
    intros [e c] (Hm & Hc & Hi). unfold traced_ok, made_from in *. simpl in *. auto. }
  unfold assemble_traced. fold pick minGap.
  destruct (negb (has_at _ _)); [constructor|]; auto. reflexivity.
Qed.

Lemma assemble_NoDup : NoDup (map at_ (assemble opts entries)).
Proof.
  pose proof (inv_nodup _ _ _ _ (scan_traced_inv minGap pick entries)) as H.
  unfold assemble, ensure_zero. rewrite scan_erase. cbn [fst]. fold pick minGap.
  destruct (negb (has_at _ _)) eqn:E; [|exact H].
  apply negb_true_iff, has_at_false in E. simpl. constructor; assumption.
Qed.

Lemma assemble_has_zero : In (str "00") (map at_ (assemble opts entries)).
Proof.
  unfold assemble, ensure_zero.
  destruct (negb (has_at _ _)) eqn:E; [now left|].
  apply negb_false_iff, has_at_true in E. exact E.
Qed.

Lemma assemble_traced_sorted :
  0 < minGap -> StronglySorted (traced_gap opts) (assemble_traced opts entries).
Proof.
  intros Hg.
  pose proof (inv_sorted _ _ _ _ (scan_traced_inv minGap pick entries) Hg) as H.
  assert (StronglySorted (traced_gap opts) (map real (fst (scan_traced minGap pick entries)))) as H'.
  { induction (fst (scan_traced minGap pick entries)) as [|x l IH]; simpl; [constructor|].
    simpl in H. apply StronglySorted_inv in H. destruct H as [Hl Hx].
    constructor; [auto|].
    rewrite Forall_map. rewrite Forall_map in Hx.
    eapply Forall_impl; [|exact Hx].
    intros y Hy e1 e2 E1 E2. simpl in E1, E2. injection E1 as <-. injection E2 as <-.
    exact Hy. }
  unfold assemble_traced. fold pick minGap.
  destruct (negb (has_at _ _)); [|exact H'].
  constructor; [exact H'|]. apply Forall_forall. intros y _ e1 e2 H1. discriminate.
Qed.

Lemma assemble_traced_chained : chained (traced_gap opts) (assemble_traced opts entries).
Proof.
  pose proof (inv_chained _ _ _ _ (scan_traced_inv minGap pick entries)) as H.
  assert (chained (traced_gap opts) (map real (fst (scan_traced minGap pick entries)))) as H'.
  { induction (fst (scan_traced minGap pick entries)) as [|x l IH]; [exact I|].
    destruct l as [|y l']; [exact I|].
    cbn [map chained] in *. destruct H as [Hxy H]. split; [|apply IH; exact H].
    intros e1 e2 E1 E2. simpl in E1, E2. injection E1 as <-. injection E2 as <-.
    exact Hxy. }
  unfold assemble_traced. fold pick minGap.
  destruct (negb (has_at _ _)); [|exact H'].
  destruct (map real _) as [|y l]; [exact I|].
  split; [|exact H']. intros e1 e2 E1. discriminate.
Qed.

End Assembled.

Lemma chained_adjacent {A} (R : A -> A -> Prop) (l : list A) (i : nat) (a b : A) :
  chained R l -> nth_error l i = Some a -> nth_error l (S i) = Some b -> R a b.
Proof.
  revert i. induction l as [|x l IH]; intros i Hc Ha Hb; [destruct i; discriminate|].
  destruct l as [|y l']; [destruct i as [|[|i]]; discriminate|].
  destruct Hc as [Hxy Hc]. destruct i as [|i].
  - simpl in Ha, Hb. injection Ha as <-. injection Hb as <-. exact Hxy.
  - apply (IH i Hc); assumption.
Qed.

Lemma extract_traced_erase (opts : option Opts) (entries : list SrtEntry) :
  map snd (extract_traced opts entries) = extractChapters_entries opts entries.
Proof.
  unfold extract_traced, extractChapters_entries, dedup.
  rewrite <- assemble_erase.
  destruct entries as [|e es]; [reflexivity|].
  apply (dedup_from_map chapter_key snd).
Qed.

Lemma extract_traced_In (opts : option Opts) (entries : list SrtEntry) (x : Traced) :
  In x (extract_traced opts entries) -> In x (assemble_traced opts entries).
Proof.
  unfold extract_traced. destruct entries as [|e es]; [intros []|].
  apply dedup_from_incl.
Qed.

(** ** Counting anchors *)

Lemma count_at_app (a : jstr) (l1 l2 : list Chapter) :
  count_at a (l1 ++ l2) = count_at a l1 + count_at a l2.
Proof. unfold count_at. rewrite filter_app, length_app. reflexivity. Qed.

Lemma count_at_absent (a : jstr) (l : list Chapter) :
  ~ In a (map at_ l) -> count_at a l = 0.
Proof.
  unfold count_at. induction l as [|c l IH]; simpl; [reflexivity|].
  intros H. destruct (jstr_eqb (at_ c) a) eqn:E.
  - apply jstr_eqb_eq in E. tauto.
  - apply IH. tauto.
Qed.

Lemma count_at_dedup_from (a : jstr) (prev : jstr) (l : list Chapter) :
  count_at a (dedup_from chapter_key prev l) <= count_at a l.
Proof.
  revert prev. induction l as [|c l IH]; intros prev; [reflexivity|].
  rewrite dedup_from_cons, count_at_app.
  change (c :: l) with ([c] ++ l). rewrite (count_at_app a [c] l).
  specialize (IH (chapter_key c)).
  destruct (keepb chapter_key prev c); [lia|].
  unfold count_at at 1. simpl. lia.
Qed.

(** ** Chapter extraction *)

(** C3, as amended.  For a non-empty entry sequence the list assembled before
    the dedup pass holds exactly one chapter at ["00"]; the returned list holds
    at most one, and it holds one exactly when that chapter survives the dedup
    pass (its title key is non-empty and differs from the key just before
    it). *)
Theorem zero_anchor (input : jstr + list SrtEntry) (opts : option Opts) :
  entries_of input <> [] ->
  count_at (str "00") (assemble opts (entries_of input)) = 1
  /\ count_at (str "00") (extractChaptersFromSrt input opts) <= 1
  /\ exists l1 c l2,
      assemble opts (entries_of input) = l1 ++ c :: l2
      /\ at_ c = str "00"
      /\ extractChaptersFromSrt input opts
         = dedup l1
           ++ (if keepb chapter_key (last (map chapter_key l1) []) c then [c] else [])
           ++ dedup_from chapter_key (chapter_key c) l2
      /\ count_at (str "00") (extractChaptersFromSrt input opts)
         = if keepb chapter_key (last (map chapter_key l1) []) c then 1 else 0.
Proof.
  intros Hne. unfold extractChaptersFromSrt, extractChapters_entries.
  set (es := entries_of input) in *.
  pose proof (assemble_NoDup opts es) as Hnd.
  pose proof (assemble_has_zero opts es) as Hin.
  apply in_map_iff in Hin. destruct Hin as (c & Hc & Hin).
  apply in_split in Hin. destruct Hin as (l1 & l2 & Hsplit).
  rewrite Hsplit in Hnd. rewrite map_app in Hnd. simpl in Hnd.
  apply NoDup_remove_2 in Hnd. rewrite Hc in Hnd.
  assert (count_at (str "00") l1 = 0) as H1
      by (apply count_at_absent; rewrite in_app_iff in Hnd; tauto).
  assert (count_at (str "00") l2 = 0) as H2
      by (apply count_at_absent; rewrite in_app_iff in Hnd; tauto).
  assert (count_at (str "00") [c] = 1) as H0
      by (unfold count_at; simpl; rewrite Hc; reflexivity).
  assert (dedup (assemble opts es)
          = dedup l1
            ++ (if keepb chapter_key (last (map chapter_key l1) []) c then [c] else [])
            ++ dedup_from chapter_key (chapter_key c) l2) as Hd.
  { rewrite Hsplit. unfold dedup. rewrite dedup_from_app, dedup_from_cons. reflexivity. }
  assert (count_at (str "00") (dedup (assemble opts es))
          = if keepb chapter_key (last (map chapter_key l1) []) c then 1 else 0) as Hcount.
  { rewrite Hd, !count_at_app.
    pose proof (count_at_dedup_from (str "00") [] l1) as Hl1.
    pose proof (count_at_dedup_from (str "00") (chapter_key c) l2) as Hl2.
    fold (dedup l1) in Hl1.
    assert (count_at (str "00") [] = 0) as Hnil by reflexivity.
    destruct (keepb _ _ c); [rewrite H0 | rewrite Hnil]; lia. }
  destruct es as [|e es'] eqn:Ees; [congruence|]. rewrite <- Ees in *.
  split; [|split].
  - rewrite Hsplit. change (c :: l2) with ([c] ++ l2). rewrite !count_at_app. lia.
  - rewrite Hcount. destruct (keepb _ _ c); lia.
  - exists l1, c, l2. auto.
Qed.

(** C7, as amended.  The gap the loop measures is the difference of two
    starts rounded to a double.  Two neighbours of the returned list that
    both come from entries have starts whose rounded difference is at least
    [minGapSec] (in absolute value for every option; as [later - earlier],
    with the later start the larger one, when [minGapSec] is positive); in
    the list assembled before the dedup pass this holds of two neighbours for
    every [minGapSec]; and every chapter that comes from an entry comes from
    an eligible one. *)
Theorem min_gap_and_eligibility (input : jstr + list SrtEntry) (opts : option Opts) :
  map snd (extract_traced opts (entries_of input)) = extractChaptersFromSrt input opts
  /\ (forall i e1 c1 e2 c2,
         nth_error (extract_traced opts (entries_of input)) i = Some (Some e1, c1) ->
         nth_error (extract_traced opts (entries_of input)) (S i) = Some (Some e2, c2) ->
         (opt_minGapSec opts <= Qabs (Double.sub (start e2) (start e1)))%Q
         /\ ((0 < opt_minGapSec opts)%Q ->
             (opt_minGapSec opts <= Double.sub (start e2) (start e1))%Q
             /\ (start e1 < start e2)%Q))
  /\ (forall i e1 c1 e2 c2,
         nth_error (assemble_traced opts (entries_of input)) i = Some (Some e1, c1) ->
         nth_error (assemble_traced opts (entries_of input)) (S i) = Some (Some e2, c2) ->
         (opt_minGapSec opts <= Double.sub (start e2) (start e1))%Q)
  /\ (forall e c, In (Some e, c) (extract_traced opts (entries_of input)) ->
                  eligible e /\ In e (entries_of input)).
Proof.
  set (es := entries_of input).
  split; [apply extract_traced_erase|]. split; [|split].
  - intros i e1 c1 e2 c2 H1 H2.
    assert ((0 < opt_minGapSec opts)%Q ->
            (opt_minGapSec opts <= Double.sub (start e2) (start e1))%Q
            /\ (start e1 < start e2)%Q) as Hsigned.
    { intros Hg.
      pose proof (assemble_traced_sorted opts es Hg) as Hs.
      assert (StronglySorted (traced_gap opts) (extract_traced opts es)) as Hs'.
      { unfold extract_traced. destruct es; [constructor|].
        apply dedup_from_StronglySorted. exact Hs. }
      pose proof (StronglySorted_adjacent _ _ _ _ _ Hs' H1 H2 e1 e2 eq_refl eq_refl)
        as Hgap.
      split; [exact Hgap|].
      destruct (Qlt_le_dec (start e1) (start e2)) as [C|C]; [exact C|].
      exfalso.
      assert (Double.sub (start e2) (start e1) <= 0)%Q by (apply fl_nonpos; lra).
      lra. }
    split; [|exact Hsigned].
    destruct (Qlt_le_dec 0 (opt_minGapSec opts)) as [Hpos|Hneg].
    + destruct (Hsigned Hpos) as [Hgap _].
      pose proof (Qle_Qabs (Double.sub (start e2) (start e1))). lra.
    + pose proof (Qabs_nonneg (Double.sub (start e2) (start e1))). lra.
  - intros i e1 c1 e2 c2 H1 H2.
    exact (chained_adjacent _ _ _ _ _ (assemble_traced_chained opts es) H1 H2
                            e1 e2 eq_refl eq_refl).
  - intros e c Hin. apply extract_traced_In in Hin.
    pose proof (assemble_traced_ok opts es) as Hok.
    rewrite Forall_forall in Hok. specialize (Hok _ Hin).
    unfold traced_ok in Hok. simpl in Hok. destruct Hok as (_ & Hc & Hi).
    split; [|exact Hi].
    unfold contentful in Hc. apply andb_true_iff in Hc. destruct Hc as [Hw Hl].
    unfold W_RE in Hw. rewrite test_one in Hw. apply Nat.leb_le in Hl.
    split; assumption.
Qed.

(** C8, as amended.  The dedup pass keeps a chapter exactly when its key is
    non-empty and differs from the key of the chapter just before it in the
    assembled list, whether that one was kept or not. *)
Theorem dedup_semantics (input : jstr + list SrtEntry) (opts : option Opts) :
  extractChaptersFromSrt input opts
  = match entries_of input with
    | [] => []
    | _ :: _ => dedup_by_position (assemble opts (entries_of input))
    end.
Proof.
  unfold extractChaptersFromSrt, extractChapters_entries, dedup, dedup_by_position.
  destruct (entries_of input); [reflexivity|].
  apply dedup_from_positions.
Qed.

(** C9, as amended.  With [titleMaxLen >= 1] a title is the fallback
    ["Chapter"] or at most [titleMaxLen] long, so the bound holds from
    [titleMaxLen = 7] on. *)
Theorem title_length_bound (input : jstr + list SrtEntry) (opts : option Opts)
        (c : Chapter) :
  In c (extractChaptersFromSrt input opts) ->
  ((1 <= opt_titleMaxLen opts)%Z ->
     title c = str "Chapter"
     \/ (Z.of_nat (length (title c)) <= opt_titleMaxLen opts)%Z)
  /\ ((7 <= opt_titleMaxLen opts)%Z ->
      (Z.of_nat (length (title c)) <= opt_titleMaxLen opts)%Z).
Proof.
  intros Hin. unfold extractChaptersFromSrt in Hin.
  rewrite <- extract_traced_erase in Hin. apply in_map_iff in Hin.
  destruct Hin as (x & <- & Hx). apply extract_traced_In in Hx.
  pose proof (assemble_traced_ok opts (entries_of input)) as Hok.
  rewrite Forall_forall in Hok. specialize (Hok _ Hx).
  assert (exists txt, title (snd x)
                      = pickTitle (opt_titleMaxLen opts) (opt_preferSentenceEnds opts) txt)
    as (txt & Ht).
  { unfold traced_ok in Hok. destruct (fst x) as [e|].
    - destruct Hok as (-> & _). eexists. reflexivity.
    - rewrite Hok. eexists. reflexivity. }
  rewrite Ht.
  assert ((1 <= opt_titleMaxLen opts)%Z ->
          pickTitle (opt_titleMaxLen opts) (opt_preferSentenceEnds opts) txt = str "Chapter"
          \/ (Z.of_nat (length (pickTitle (opt_titleMaxLen opts)
                                          (opt_preferSentenceEnds opts) txt))
              <= opt_titleMaxLen opts)%Z) as H1
      by apply pickTitle_length.
  split; [exact H1|].
  intros H7. destruct H1 as [->| ]; [lia | simpl; lia | assumption].
Qed.

(** C10, as amended.  [secToHHMM] depends on [max(0, floor(sec))] only and
    gives ["00"] for a negative number.  For a number whose floor is below
    [2^53] it is the anchor of the hours and minutes of [max(0, floor(sec))]:
    well formed, and it reads back as the whole minutes of that many
    seconds.  The anchor of every returned chapter is ["00"] for the
    synthesised one and [secToHHMM] of the start of its entry otherwise. *)
Theorem anchor_clamp :
  (forall sec : Q, secToHHMM sec = secToHHMM (inject_Z (Z.max 0 (Qfloor sec))))
  /\ (forall sec : Q, (sec < 0)%Q -> secToHHMM sec = str "00")
  /\ (forall sec : Q,
         (Qfloor sec < 2 ^ 53)%Z ->
         secToHHMM sec
         = anchor_of (Z.max 0 (Qfloor sec) / 3600) ((Z.max 0 (Qfloor sec) mod 3600) / 60)
         /\ well_formed_anchor (secToHHMM sec) = true
         /\ anchor_minutes (secToHHMM sec) = (Z.max 0 (Qfloor sec) / 60)%Z)
  /\ (forall (entries : list SrtEntry) (opts : option Opts),
         map snd (extract_traced opts entries) = extractChaptersFromSrt (inr entries) opts
         /\ forall x, In x (extract_traced opts entries) ->
                      at_ (snd x) = match fst x with
                                    | Some e => secToHHMM (start e)
                                    | None => str "00"
                                    end).
Proof.
  split; [|split; [|split]].
  - apply secToHHMM_floor.
  - apply secToHHMM_negative.
  - intros sec H. split; [apply secToHHMM_exact, H|].
    split; [apply secToHHMM_well_formed, H | apply secToHHMM_minutes, H].
  - intros entries opts. split; [apply extract_traced_erase|].
    intros x Hx. apply extract_traced_In in Hx.
    pose proof (assemble_traced_ok opts entries) as Hok.
    rewrite Forall_forall in Hok. specialize (Hok _ Hx).
    unfold traced_ok in Hok. destruct (fst x) as [e|].
    + destruct Hok as (-> & _). reflexivity.
    + rewrite Hok. reflexivity.
Qed.

(** ** More facts about the matcher *)

Lemma first_some_some {A B} (f : A -> option B) (l : list A) (y : B) :
  first_some f l = Some y -> exists x, In x l /\ f x = Some y.
Proof.
  induction l as [|x l IH]; simpl; [discriminate|].
  destruct (f x) as [y'|] eqn:E.
  - intros H. injection H as <-. exists x. auto.
  - intros H. destruct (IH H) as (x' & Hx & Hf). exists x'. auto.
Qed.

Lemma skipn_skipn_add {A} (n k : nat) (l : list A) :
  skipn k (skipn n l) = skipn (n + k) l.
Proof.
  revert l. induction n as [|n IH]; intros l; [reflexivity|].
  destruct l as [|x l]; simpl; [now rewrite skipn_nil | apply IH].
Qed.

(** A match leaves a suffix of the input it started on. *)
Lemma m_rest_suffix (r : regex) (st st' : mstate) :
  m r st = Some st' -> exists k, rest st' = skipn k (rest st).
Proof.
  revert st. induction r as [|it r IH]; intros st H.
  - injection H as <-. exists 0. reflexivity.
  - destruct it as [P lo hi g| | | | g | g]; cbn [m] in H.
    + destruct (_ <? lo); [discriminate|].
      apply first_some_some in H. destruct H as (n & _ & H).
      apply IH in H. destruct H as (k & H). exists (n + k).
      rewrite H. simpl. apply skipn_skipn_add.
    + destruct (pre st); [eauto | discriminate].
    + destruct (rest st) eqn:E; [|discriminate].
      apply IH in H. rewrite E in *. exact H.
    + destruct (xorb _ _); [eauto | discriminate].
    + apply IH in H. exact H.
    + destruct (opens st) as [|[g' p] os]; [discriminate|].
      apply IH in H. exact H.
Qed.

Lemma In_skipn {A} (k : nat) (l : list A) (x : A) : In x (skipn k l) -> In x l.
Proof.
  revert l. induction k as [|k IH]; intros l; [auto|].
  destruct l as [|y l]; simpl; [auto|]. intros H. right. auto.
Qed.

Lemma match_at_rest_In (r : regex) (before after : list N) (st : mstate) (c : N) :
  match_at r before after = Some st -> In c (rest st) -> In c after.
Proof.
  intros H Hc. apply m_rest_suffix in H. destruct H as (k & H).
  rewrite H in Hc. simpl in Hc. eapply In_skipn, Hc.
Qed.

Lemma search_spec (r : regex) (before after : list N) (b' : list N) (st : mstate) :
  search r before after = Some (b', st) ->
  exists p a', after = p ++ a' /\ b' = rev p ++ before
               /\ match_at r b' a' = Some st.
Proof.
  revert before. induction after as [|c after IH]; intros before; cbn [search].
  - destruct (match_at r before []) eqn:E; [|discriminate].
    intros H. injection H as <- <-. exists [], []. auto.
  - destruct (match_at r before (c :: after)) eqn:E.
    + intros H. injection H as <- <-. exists [], (c :: after). auto.
    + intros H. apply IH in H. destruct H as (p & a' & -> & -> & H).
      exists (c :: p), a'. simpl. rewrite <- app_assoc. auto.
Qed.

Lemma search_none_cons (r : regex) (before : list N) (c : N) (after : list N) :
  search r before (c :: after) = None ->
  match_at r before (c :: after) = None /\ search r (c :: before) after = None.
Proof.
  cbn [search]. destruct (match_at r before (c :: after)); [discriminate|]. auto.
Qed.

(** Where the expression matches nowhere, replacing changes nothing. *)
Lemma replace_all_from_no_match (r : regex) (f : mstate -> jstr)
      (fuel : nat) (before after : list N) :
  search r before after = None -> replace_all_from fuel r f before after = after.
Proof.
  revert before after. induction fuel as [|fuel IH]; intros before after H;
    [reflexivity|].
  cbn [replace_all_from]. destruct after as [|c after].
  - cbn [search] in H. destruct (match_at r before []); [discriminate|reflexivity].
  - apply search_none_cons in H. destruct H as [-> H]. rewrite (IH _ _ H). reflexivity.
Qed.

Lemma test_false_search (r : regex) (s : jstr) :
  test r s = false -> search r [] s = None.
Proof. unfold test. destruct (search r [] s); [discriminate|reflexivity]. Qed.

Lemma replace_all_no_match (r : regex) (f : mstate -> jstr) (s : jstr) :
  test r s = false -> replace_all r f s = s.
Proof.
  intros H. apply replace_all_from_no_match, test_false_search, H.
Qed.

Lemma replace_first_no_match (r : regex) (t s : jstr) :
  test r s = false -> replace_first r t s = s.
Proof.
  intros H. unfold replace_first. rewrite (test_false_search _ _ H). reflexivity.
Qed.

(** Replacing by a constant only adds units of the constant. *)
Lemma replace_all_from_Forall (Q : N -> Prop) (r : regex) (t : jstr)
      (fuel : nat) (before after : list N) :
  Forall Q t -> Forall Q after ->
  Forall Q (replace_all_from fuel r (const_str t) before after).
Proof.
  intros Ht. revert before after.
  induction fuel as [|fuel IH]; intros before after Ha; [exact Ha|].
  cbn [replace_all_from].
  assert (Forall Q match after with
                   | [] => []
                   | c :: after' =>
                       c :: replace_all_from fuel r (const_str t) (c :: before) after'
                   end) as Hstep.
  { destruct after as [|c after]; [constructor|].
    inversion Ha; subst. constructor; auto. }
  destruct (match_at r before after) as [st|] eqn:E; [|exact Hstep].
  destruct (_ <? _); apply Forall_app; (split; [exact Ht|]); [|exact Hstep].
  apply IH. rewrite Forall_forall in *. intros c Hc.
  eapply Ha, match_at_rest_In; eauto.
Qed.

Lemma replace_all_Forall (Q : N -> Prop) (r : regex) (t s : jstr) :
  Forall Q t -> Forall Q s -> Forall Q (replace_all r (const_str t) s).
Proof. apply replace_all_from_Forall. Qed.

Lemma replace_first_Forall (Q : N -> Prop) (r : regex) (t s : jstr) :
  Forall Q t -> Forall Q s -> Forall Q (replace_first r t s).
Proof.
  intros Ht Hs. unfold replace_first.
  destruct (search r [] s) as [[b st]|] eqn:E; [|exact Hs].
  apply search_spec in E. destruct E as (p & a' & -> & -> & E).
  apply Forall_app in Hs. destruct Hs as [Hp Ha].
  rewrite app_nil_r, rev_involutive.
  apply Forall_app. split; [exact Hp|]. apply Forall_app. split; [exact Ht|].
  rewrite Forall_forall in *. intros c Hc. eapply Ha, match_at_rest_In; eauto.
Qed.

(** A one-unit class replaced everywhere is a map over the units. *)
Lemma replace_all_from_one (P : N -> bool) (t : jstr) (fuel : nat)
      (before after : list N) :
  length after < fuel ->
  replace_all_from fuel [one P] (const_str t) before after
  = flat_map (fun c => if P c then t else [c]) after.
Proof.
  revert before after. induction fuel as [|fuel IH]; intros before after Hl; [lia|].
  cbn [replace_all_from]. rewrite match_at_one.
  destruct after as [|c after]; [reflexivity|].
  simpl in Hl. cbn [flat_map].
  destruct (P c).
  - cbn [rest pre]. replace (length after <? length (c :: after)) with true
      by (symmetry; apply Nat.ltb_lt; simpl; lia).
    unfold const_str at 1. rewrite IH by lia. reflexivity.
  - rewrite IH by lia. reflexivity.
Qed.

Lemma replace_all_one (P : N -> bool) (t s : jstr) :
  replace_all [one P] (const_str t) s = flat_map (fun c => if P c then t else [c]) s.
Proof. apply replace_all_from_one. lia. Qed.

Lemma flat_map_class_id (P : N -> bool) (t s : jstr) :
  Forall (fun c => P c = false) s ->
  flat_map (fun c => if P c then t else [c]) s = s.
Proof.
  induction 1 as [|c s Hc Hs IH]; [reflexivity|].
  cbn [flat_map]. rewrite Hc, IH. reflexivity.
Qed.

Lemma flat_map_class_Forall (Q : N -> Prop) (P : N -> bool) (t s : jstr) :
  Forall Q t -> Forall (fun c => P c = false -> Q c) s ->
  Forall Q (flat_map (fun c => if P c then t else [c]) s).
Proof.
  intros Ht. induction 1 as [|c s Hc Hs IH]; [constructor|].
  cbn [flat_map]. apply Forall_app. split; [|exact IH].
  destruct (P c); [exact Ht | repeat constructor; auto].
Qed.

(** ** White space *)


Lemma run_len_skipn (P : N -> bool) (l : jstr) :
  match skipn (run_len P l) l with c :: _ => P c = false | [] => True end.
Proof.
  induction l as [|c l IH]; simpl; [exact I|].
  destruct (P c) eqn:E; simpl; [exact IH | exact E].
Qed.

Lemma match_at_plus (P : N -> bool) (before after : list N) :
  match_at [plus P] before after
  = match run_len P after with
    | 0 => None
    | S n => Some (MState (rev (firstn (S n) after) ++ before)
                          (skipn (S n) after) [] [])
    end.
Proof.
  unfold match_at, plus, init_state. cbn [m rest pre opens caps].
  destruct (run_len P after) as [|n]; [reflexivity|].
  replace (S n <? 1) with false by (symmetry; apply Nat.ltb_ge; lia).
  replace (S (S n) - 1) with (S n) by lia.
  rewrite seq_S, rev_app_distr. reflexivity.
Qed.

Lemma collapse_ws_single (fuel : nat) (before after : list N) :
  length after < fuel ->
  let out := replace_all_from fuel WS_RE (const_str (str " ")) before after in
  ws_single out = true /\ (hd_ws out = true -> hd_ws after = true).
Proof.
  revert before after. induction fuel as [|fuel IH]; intros before after Hl; [lia|].
  cbn zeta. cbn [replace_all_from]. unfold WS_RE. rewrite match_at_plus.
  destruct after as [|c after]; [split; auto|].
  simpl in Hl. cbn [run_len]. destruct (isSpace c) eqn:Ec.
  - cbn [rest pre]. 
    assert ((length (skipn (S (run_len isSpace after)) (c :: after))
             <? length (c :: after)) = true) as ->.
    { apply Nat.ltb_lt. rewrite length_skipn. simpl. lia. }
    pose proof (run_len_skipn isSpace after) as Hhd.
    cbn [skipn].
    set (rest' := skipn (run_len isSpace after) after) in *.
    assert (length rest' < fuel) as Hl'.
    { subst rest'. rewrite length_skipn. lia. }
    destruct (IH (rev (firstn (S (run_len isSpace after)) (c :: after)) ++ before)
                 rest' Hl') as [H1 H2].
    fold WS_RE.
    set (out' := replace_all_from fuel WS_RE _ _ rest') in *.
    assert (hd_ws out' = false) as Hout'.
    { destruct (hd_ws out') eqn:E; [|reflexivity].
      specialize (H2 eq_refl). destruct rest' as [|d rest']; [discriminate|].
      simpl in H2. congruence. }
    unfold const_str at 1. change (str " " ++ out') with (32%N :: out').
    split; [|auto]. cbn [ws_single]. rewrite Hout', H1. reflexivity.
  - fold WS_RE. destruct (IH (c :: before) after ltac:(lia)) as [H1 H2].
    split.
    + cbn [ws_single]. rewrite Ec. exact H1.
    + cbn [hd_ws]. congruence.
Qed.

Lemma replace_all_ws_single (u : jstr) :
  ws_single (replace_all WS_RE (const_str (str " ")) u) = true.
Proof.
  unfold replace_all.
  exact (proj1 (collapse_ws_single (S (length u)) [] u (Nat.lt_succ_diag_r _))).
Qed.

Lemma collapse_ws_tight (fuel : nat) (before after : list N) :
  length after < fuel -> ws_tight after = true ->
  replace_all_from fuel WS_RE (const_str (str " ")) before after = after.
Proof.
  revert before after. induction fuel as [|fuel IH]; intros before after Hl Ht; [lia|].
  cbn [replace_all_from]. unfold WS_RE. rewrite match_at_plus. fold WS_RE.
  destruct after as [|c after]; [reflexivity|].
  simpl in Hl. cbn [ws_tight] in Ht. apply andb_true_iff in Ht. destruct Ht as [Hc Ht].
  cbn [run_len]. destruct (isSpace c) eqn:Ec.
  - apply andb_true_iff in Hc. destruct Hc as [Hc Hd].
    destruct after as [|d after]; [discriminate|].
    apply negb_true_iff in Hd. cbn [run_len]. rewrite Hd.
    cbn [rest pre skipn firstn]. 
    replace (length (d :: after) <? length (c :: d :: after)) with true
      by (symmetry; apply Nat.ltb_lt; simpl; lia).
    rewrite IH by (simpl in *; auto; lia).
    unfold isCh in Hc. apply N.eqb_eq in Hc. subst c. reflexivity.
  - rewrite IH by (auto; lia). reflexivity.
Qed.

(** *** trim *)

Lemma trimStart_suffix (s : jstr) : exists a, s = a ++ trimStart s.
Proof.
  induction s as [|c s [a IH]]; [exists []; reflexivity|].
  simpl. destruct (isSpace c).
  - exists (c :: a). simpl. congruence.
  - exists []. reflexivity.
Qed.

Lemma trimStart_hd (s : jstr) : hd_ws (trimStart s) = false.
Proof.
  induction s as [|c s IH]; [reflexivity|].
  simpl. destruct (isSpace c) eqn:E; [exact IH | simpl; exact E].
Qed.

Lemma trimStart_fixed (s : jstr) : hd_ws s = false -> trimStart s = s.
Proof. destruct s as [|c s]; simpl; [reflexivity|]. intros ->. reflexivity. Qed.

Lemma trim_infix (s : jstr) : exists a b, s = a ++ trim s ++ b.
Proof.
  unfold trim. destruct (trimStart_suffix s) as [a Ha].
  destruct (trimStart_suffix (rev (trimStart s))) as [b Hb].
  exists a, (rev b). rewrite <- rev_app_distr, <- Hb, rev_involutive. exact Ha.
Qed.

Lemma trim_last (s : jstr) : hd_ws (rev (trim s)) = false.
Proof. unfold trim. rewrite rev_involutive. apply trimStart_hd. Qed.

Lemma hd_ws_app (a b : jstr) : hd_ws a = false -> a <> [] -> hd_ws (a ++ b) = false.
Proof. destruct a; [congruence | auto]. Qed.

Lemma trim_hd (s : jstr) : hd_ws (trim s) = false.
Proof.
  unfold trim. pose proof (trimStart_hd s) as H.
  destruct (trimStart_suffix (rev (trimStart s))) as [b Hb].
  set (y := trimStart s) in *. set (z := trimStart (rev y)) in *.
  assert (y = rev z ++ rev b) as Hy.
  { rewrite <- rev_app_distr, <- Hb, rev_involutive. reflexivity. }
  destruct (rev z) as [|c l] eqn:E; [reflexivity|].
  rewrite Hy in H. exact H.
Qed.

Lemma trim_fixed (s : jstr) :
  hd_ws s = false -> hd_ws (rev s) = false -> trim s = s.
Proof.
  intros H1 H2. unfold trim.
  rewrite (trimStart_fixed s H1), (trimStart_fixed _ H2). apply rev_involutive.
Qed.

Lemma ws_single_app_r (a b : jstr) : ws_single (a ++ b) = true -> ws_single b = true.
Proof.
  induction a as [|c a IH]; [auto|]. simpl. intros H.
  apply andb_true_iff in H. tauto.
Qed.

Lemma ws_single_app_l (a b : jstr) : ws_single (a ++ b) = true -> ws_single a = true.
Proof.
  induction a as [|c a IH]; [auto|]. simpl. intros H.
  apply andb_true_iff in H. destruct H as [Hc Ha]. rewrite (IH Ha), andb_true_r.
  destruct (isSpace c); [|reflexivity].
  apply andb_true_iff in Hc. destruct Hc as [-> Hd]. simpl.
  destruct a as [|d a]; [reflexivity | exact Hd].
Qed.

Lemma ws_single_tight (s : jstr) :
  ws_single s = true -> hd_ws (rev s) = false -> ws_tight s = true.
Proof.
  induction s as [|c s IH]; [reflexivity|].
  cbn [ws_single ws_tight]. intros H Hlast.
  apply andb_true_iff in H. destruct H as [Hc Hs].
  assert (s <> [] -> hd_ws (rev s) = false) as Hlast'.
  { intros Hne. simpl in Hlast. destruct (rev s) as [|d l] eqn:E.
    - apply (f_equal (@rev N)) in E. rewrite rev_involutive in E. contradiction.
    - exact Hlast. }
  destruct s as [|d s].
  - simpl in Hlast. rewrite Hlast. reflexivity.
  - rewrite IH by (auto; apply Hlast'; discriminate). rewrite andb_true_r.
    destruct (isSpace c); [|reflexivity].
    apply andb_true_iff in Hc. destruct Hc as [-> Hd]. exact Hd.
Qed.

(** ** cleanLine *)


Lemma Forall_infix {A} (Q : A -> Prop) (a l b : list A) :
  Forall Q (a ++ l ++ b) -> Forall Q l.
Proof.
  intros H. apply Forall_app in H. destruct H as [_ H].
  apply Forall_app in H. tauto.
Qed.

Lemma cleanLine_cleaned (s : jstr) : cleanLine s = [] \/ cleaned (cleanLine s).
Proof.
  unfold cleanLine.
  set (u4 := replace_all CUE_RE _ _).
  set (u5 := replace_all DASH_RE _ _).
  set (v := replace_all WS_RE _ u5).
  destruct (test PUNCT_ONLY_RE (trim v)) eqn:Ep; [now left|]. right.
  assert (Forall (fun c => in_range 0 31 c = false /\ isCh 65279 c = false) u4) as H4.
  { subst u4. apply replace_all_Forall; [repeat constructor|].
    apply replace_first_Forall; [constructor|].
    do 2 (apply replace_all_Forall; [repeat constructor|]).
    unfold CTRL_RE, BOM_RE. rewrite !replace_all_one.
    apply flat_map_class_Forall; [repeat constructor|].
    apply (flat_map_class_Forall
             (fun c => in_range 0 31 c = false -> _ /\ isCh 65279 c = false));
      [constructor|].
    apply Forall_forall. auto. }
  assert (Forall plain u5) as H5.
  { subst u5. unfold DASH_RE, SQUOTE_RE, DQUOTE_RE. rewrite !replace_all_one.
    apply flat_map_class_Forall; [repeat constructor|].
    apply (flat_map_class_Forall
             (fun c => isDash c = false -> _ /\ isDash c = false));
      [repeat constructor|].
    apply (flat_map_class_Forall
             (fun c => isSQuote c = false -> isDash c = false
                       -> (_ /\ isSQuote c = false) /\ isDash c = false));
      [repeat constructor|].
    eapply Forall_impl; [|exact H4]. unfold plain. cbv beta. tauto. }
  assert (Forall plain v) as Hv
      by (subst v; apply replace_all_Forall; [repeat constructor | exact H5]).
  destruct (trim_infix v) as (a & b & Hab).
  pose proof (replace_all_ws_single u5 : ws_single v = true) as Hs.
  assert (ws_single (trim v) = true) as Hs'.
  { rewrite Hab in Hs. apply ws_single_app_r in Hs. apply ws_single_app_l in Hs.
    exact Hs. }
  constructor.
  - rewrite Hab in Hv. eapply Forall_infix, Hv.
  - apply ws_single_tight; [exact Hs' | apply trim_last].
  - apply trim_hd.
  - apply trim_last.
  - exact Ep.
Qed.

Lemma cleanLine_fixed (w : jstr) :
  cleaned w ->
  test HTML_RE w = false -> test ASS_RE w = false ->
  test LABEL_RE w = false -> test CUE_RE w = false ->
  cleanLine w = w.
Proof.
  intros [Hp Ht Hh Hl Hw] Hhtml Hass Hlabel Hcue.
  assert (forall (P : N -> bool) t,
             (forall c, plain c -> P c = false) ->
             replace_all [one P] (const_str t) w = w) as Hone.
  { intros P t HP. rewrite replace_all_one. apply flat_map_class_id.
    eapply Forall_impl; [|exact Hp]. exact HP. }
  unfold cleanLine.
  unfold BOM_RE. rewrite Hone by (unfold plain; tauto).
  unfold CTRL_RE. rewrite Hone by (unfold plain; tauto).
  rewrite (replace_all_no_match HTML_RE) by exact Hhtml.
  rewrite (replace_all_no_match ASS_RE) by exact Hass.
  rewrite replace_first_no_match by exact Hlabel.
  rewrite (replace_all_no_match CUE_RE) by exact Hcue.
  unfold DQUOTE_RE. rewrite Hone by (unfold plain; tauto).
  unfold SQUOTE_RE. rewrite Hone by (unfold plain; tauto).
  unfold DASH_RE. rewrite Hone by (unfold plain; tauto).
  unfold replace_all. rewrite collapse_ws_tight by (auto; lia).
  rewrite trim_fixed by assumption. rewrite Hw. reflexivity.
Qed.

(** C4, as amended.  Cleaning a cleaned line again changes nothing as long as
    the first pass left no tag, speaker label or bracketed cue behind for the
    second one to match. *)
Theorem cleanLine_idempotent (s : jstr) :
  test HTML_RE (cleanLine s) = false ->
  test ASS_RE (cleanLine s) = false ->
  test LABEL_RE (cleanLine s) = false ->
  test CUE_RE (cleanLine s) = false ->
  cleanLine (cleanLine s) = cleanLine s.
Proof.
  intros H1 H2 H3 H4.
  destruct (cleanLine_cleaned s) as [->|Hc]; [reflexivity|].
  apply cleanLine_fixed; assumption.
Qed.

(** ** The parser's loop terminates *)

Lemma skip_blank_n_ge (n : nat) (lines : list jstr) (i : nat) :
  i <= skip_blank_n n lines i.
Proof.
  revert i. induction n as [|n IH]; intros i; simpl; [lia|].
  destruct (i <? length lines); [|lia].
  destruct (blank _); [|lia]. specialize (IH (S i)). lia.
Qed.

Lemma skip_blank_ge (lines : list jstr) (i : nat) : i <= skip_blank lines i.
Proof. apply skip_blank_n_ge. Qed.

Lemma collect_n_ge (n : nat) (lines : list jstr) (i : nat) (buf : list jstr) :
  i <= fst (collect_n n lines i buf).
Proof.
  revert i buf. induction n as [|n IH]; intros i buf; cbn [collect_n fst]; [lia|].
  destruct (i <? length lines); [|cbn [fst]; lia].
  destruct (at' lines i) as [[|c l]|]; cbn [fst]; try lia.
  destruct (is_empty (trim (c :: l))); cbn [fst]; [lia|].
  etransitivity; [|apply IH]. lia.
Qed.

Lemma parse_step_advances (lines : list jstr) (i : nat) (entries : list SrtEntry)
      (i' : nat) (es : list SrtEntry) :
  parse_step lines i entries = Continue i' es -> i < i'.
Proof.
  unfold parse_step. pose proof (skip_blank_ge lines i) as H0.
  set (i1 := skip_blank lines i) in *.
  destruct (length lines <=? i1); [discriminate|].
  destruct (at' lines i1) as [[|c0 l0]|]; try discriminate.
  destruct (test INT_RE (trim (c0 :: l0))).
  - destruct (length lines <=? S i1); [discriminate|].
    destruct (at' lines (S i1)) as [[|c1 l1]|]; try discriminate.
    destruct (exec TS_RE _) as [mt|].
    + pose proof (collect_n_ge (length lines - S (S i1)) lines (S (S i1)) []) as Hc.
      unfold collect. destruct (collect_n _ _ _ _) as [i3 buf]. cbn [fst] in Hc.
      intros H. injection H as <- _. pose proof (skip_blank_ge lines i3). lia.
    + intros H. injection H as <- _. lia.
  - destruct (length lines <=? i1); [discriminate|].
    destruct (at' lines i1) as [[|c1 l1]|]; try discriminate.
    destruct (exec TS_RE _) as [mt|].
    + pose proof (collect_n_ge (length lines - S i1) lines (S i1) []) as Hc.
      unfold collect. destruct (collect_n _ _ _ _) as [i3 buf]. cbn [fst] in Hc.
      intros H. injection H as <- _. pose proof (skip_blank_ge lines i3). lia.
    + intros H. injection H as <- _. lia.
Qed.

Lemma parse_loop_total (lines : list jstr) (fuel i : nat) (entries : list SrtEntry) :
  length lines - i <= fuel -> parse_loop fuel lines i entries <> None.
Proof.
  revert i entries. induction fuel as [|fuel IH]; intros i entries Hf.
  - simpl. replace (length lines <=? i) with true; [discriminate|].
    symmetry. apply Nat.leb_le. lia.
  - cbn [parse_loop]. destruct (length lines <=? i) eqn:E; [discriminate|].
    apply Nat.leb_gt in E.
    destruct (parse_step lines i entries) as [es|i' es] eqn:Es; [discriminate|].
    apply parse_step_advances in Es. apply IH. lia.
Qed.

Lemma parseSrt_opt_total (raw : jstr) : parseSrt_opt raw = Some (parseSrt raw).
Proof.
  unfold parseSrt, parseSrt_opt. destruct (is_empty raw); [reflexivity|].
  destruct (parse_loop _ _ 0 []) eqn:E; [reflexivity|].
  exfalso. revert E. apply parse_loop_total. lia.
Qed.

(** ** Concrete runs *)

(** C5, as amended.  The scenario of the specification parses to two entries;
    the text of the first keeps the space that replaced the closing tag.  The
    start of the second is the double that [5.2] denotes. *)
Theorem parse_scenario :
  parseSrt scenario =
  [ mkEntry 1 1 (7 # 2) (str "Hello there , friend!");
    mkEntry 2 (Double.fl (26 # 5)) 7 (str "This is a test.") ].
Proof. vm_compute. reflexivity. Qed.

Lemma parse_scenario_not_as_specified :
  parseSrt scenario <>
  [ mkEntry 1 1 (7 # 2) (str "Hello there, friend!");
    mkEntry 2 (Double.fl (26 # 5)) 7 (str "This is a test.") ].
Proof. rewrite parse_scenario. discriminate. Qed.

(** A second pass strips a second speaker label, and a cue closed by the
    bracket the first pass left over. *)
Lemma cleanLine_not_idempotent :
  cleanLine (cleanLine (str "A: B: hello")) <> cleanLine (str "A: B: hello")
  /\ cleanLine (cleanLine (str "x (ab))")) <> cleanLine (str "x (ab))").
Proof. split; vm_compute; discriminate. Qed.

Lemma cleanLine_idempotent_witness :
  cleanLine (cleanLine (str "Hello <b>there</b>, friend!"))
  = cleanLine (str "Hello <b>there</b>, friend!").
Proof.
  apply (cleanLine_idempotent (str "Hello <b>there</b>, friend!")); reflexivity.
Defined.

(** An entry whose title has no letter or digit loses its ["00"] chapter in the
    dedup pass, from an entry array and from raw text alike. *)
Lemma zero_anchor_lost :
  entries_of (inr sample_dashes) <> []
  /\ extractChaptersFromSrt (inr sample_dashes) None = []
  /\ entries_of (inl sample_stars_raw) <> []
  /\ extractChaptersFromSrt (inl sample_stars_raw) None = [].
Proof. repeat split; try (vm_compute; discriminate); vm_compute; reflexivity. Qed.

Lemma zero_anchor_witness :
  entries_of (inr sample_two) <> []
  /\ count_at (str "00") (assemble None (entries_of (inr sample_two))) = 1.
Proof.
  assert (entries_of (inr sample_two) <> []) as H by discriminate.
  split; [exact H|]. exact (proj1 (zero_anchor (inr sample_two) None H)).
Defined.

Lemma min_gap_witness :
  (opt_minGapSec None
   <= Double.sub (start (entry_at 60 "Another sentence of the topic"))
                 (start (entry_at 0 "Introduction to the topic")))%Q
  /\ (start (entry_at 0 "Introduction to the topic")
      < start (entry_at 60 "Another sentence of the topic"))%Q.
Proof.
  refine (proj2 (proj1 (proj2 (min_gap_and_eligibility (inr sample_two) None))
                   0 _ (mkChapter (str "00") (str "Introduction To The Topic"))
                   _ (mkChapter (str "01") (str "Another Sentence Of The Topic"))
                   _ _) _); vm_compute; reflexivity.
Defined.

(** The sum of [tsToSec] is rounded after the quotient is: the start
    [00:00:01,118] is not the double nearest to [1.118]. *)
Lemma tsToSec_rounds_twice :
  tsToSec (str "00") (str "00") (str "01") (str "118")
  = Double.add 1 (Double.div 118 1000)
  /\ tsToSec (str "00") (str "00") (str "01") (str "118") <> Double.fl (1118 # 1000).
Proof. split; vm_compute; [reflexivity | discriminate]. Qed.

(** Two cues written sixty seconds apart: the difference of their rounded
    starts is below sixty, and the second cue gives no chapter. *)
Lemma gap_rounded_below :
  map start (parseSrt sample_rounded_raw)
  = [ Double.add 4 (Double.div 2 1000); Double.add 64 (Double.div 2 1000) ]
  /\ (Double.sub (Double.add 64 (Double.div 2 1000)) (Double.add 4 (Double.div 2 1000))
      < 60)%Q
  /\ map at_ (extractChaptersFromSrt (inl sample_rounded_raw) None) = [ str "00" ].
Proof. repeat split; vm_compute; reflexivity. Qed.

(** C7 as worded fails.  The starts [2^-60] and [60] are doubles less than
    sixty seconds apart; their difference rounds to [60], so the second
    entry passes the gap test and both chapters are returned. *)
Lemma gap_below_minimum :
  extract_traced None sample_close
  = [ (Some (mkEntry 1 (1 # 1152921504606846976) 1 (str "Introduction to the topic")),
       mkChapter (str "00") (str "Introduction To The Topic"));
      (Some (mkEntry 2 60 61 (str "Another sentence of the topic")),
       mkChapter (str "01") (str "Another Sentence Of The Topic")) ]
  /\ extractChaptersFromSrt (inr sample_close) None
     = [ mkChapter (str "00") (str "Introduction To The Topic");
         mkChapter (str "01") (str "Another Sentence Of The Topic") ]
  /\ (60 - (1 # 1152921504606846976) < opt_minGapSec None)%Q
  /\ Double.fl (1 # 1152921504606846976) = (1 # 1152921504606846976)%Q
  /\ Double.fl 60 = 60%Q
  /\ Double.sub 60 (1 # 1152921504606846976) = 60%Q.
Proof. repeat split; vm_compute; reflexivity. Qed.

(** After a chapter with an empty key the code keeps a repeated title that the
    specification's wording would drop. *)
Lemma dedup_not_against_kept :
  extractChaptersFromSrt (inr sample_repeat) None
  <> dedup_kept (assemble None (entries_of (inr sample_repeat))).
Proof. vm_compute. discriminate. Qed.

(** With [titleMaxLen = 3] the fallback title is longer than the limit. *)
Lemma title_longer_than_limit :
  In (mkChapter (str "00") (str "Chapter"))
     (extractChaptersFromSrt (inr sample_dots) (opts_titleMaxLen 3))
  /\ (Z.of_nat (length (title (mkChapter (str "00") (str "Chapter"))))
      > opt_titleMaxLen (opts_titleMaxLen 3))%Z.
Proof. split; [vm_compute; auto | vm_compute; reflexivity]. Qed.

Lemma title_length_bound_witness :
  (Z.of_nat (length (title (mkChapter (str "01") (str "Another Sentence Of The Topic"))))
   <= opt_titleMaxLen None)%Z.
Proof.
  refine (proj2 (title_length_bound (inr sample_two) None _ _) _).
  - vm_compute. auto.
  - vm_compute. discriminate.
Defined.

Lemma anchor_clamp_witness : secToHHMM (-5 # 2) = str "00".
Proof. apply (proj1 (proj2 anchor_clamp)). reflexivity. Defined.

(** C10 as worded fails.  For the double [3.6e24] the hours are [1e21],
    which [String] writes with an exponent. *)
Lemma anchor_not_well_formed :
  Double.fl sec_huge = sec_huge
  /\ secToHHMM sec_huge = str "1e+21:37"
  /\ well_formed_anchor (secToHHMM sec_huge) = false.
Proof. repeat split; vm_compute; reflexivity. Qed.

(* ================================================================== *)
(** ** More about the parser *)
(* ================================================================== *)

Lemma filter_skipn_le {A} (p : A -> bool) (l : list A) (i j : nat) :
  i <= j -> length (filter p (skipn j l)) <= length (filter p (skipn i l)).
Proof.
  revert i j. induction l as [|x l IH]; intros i j Hij.
  - rewrite !skipn_nil. apply le_n.
  - destruct i as [|i].
    + destruct j as [|j]; [apply le_n|]. cbn [skipn].
      etransitivity; [apply (IH 0 j); lia|]. cbn [skipn filter].
      destruct (p x); cbn [length]; lia.
    + destruct j as [|j]; [lia|]. cbn [skipn]. apply IH. lia.
Qed.

Lemma filter_skipn_hit {A} (p : A -> bool) (l : list A) (i : nat) (x : A) :
  nth_error l i = Some x -> p x = true ->
  S (length (filter p (skipn (S i) l))) <= length (filter p (skipn i l)).
Proof.
  revert i. induction l as [|y l IH]; intros i Hx Hp.
  - destruct i; discriminate.
  - destruct i as [|i].
    + cbn in Hx. injection Hx as ->. cbn [skipn filter]. rewrite Hp.
      cbn [length]. destruct l; apply le_n.
    + cbn [nth_error] in Hx. change (skipn (S (S i)) (y :: l)) with (skipn (S i) l).
      change (skipn (S i) (y :: l)) with (skipn i l). apply IH; assumption.
Qed.

(** The text of an entry: white space collapsed, then trimmed. *)
Lemma trim_collapse_tidy (u : jstr) :
  let t := trim (replace_all WS_RE (const_str (str " ")) u) in
  is_empty t = false -> tidy t.
Proof.
  intros t Ht. subst t. set (v := replace_all WS_RE (const_str (str " ")) u) in *.
  destruct (trim_infix v) as (a & b & Hab).
  pose proof (replace_all_ws_single u : ws_single v = true) as Hs.
  assert (ws_single (trim v) = true) as Hs'.
  { rewrite Hab in Hs. apply ws_single_app_r in Hs. apply ws_single_app_l in Hs.
    exact Hs. }
  repeat split.
  - intros E. rewrite E in Ht. discriminate.
  - apply trim_hd.
  - apply trim_last.
  - apply ws_single_tight; [exact Hs' | apply trim_last].
Qed.

(** What one turn of the parser's loop does: it stops with the entries it
    had, or goes on further down, with the same entries or with one more,
    made from a timestamp line it has passed. *)
Lemma parse_step_spec (lines : list jstr) (i : nat) (entries : list SrtEntry) :
  match parse_step lines i entries with
  | Break es => es = entries
  | Continue i' es =>
      i < i'
      /\ (es = entries
          \/ exists e i2 l,
              es = entries ++ [e] /\ i <= i2 < i'
              /\ at' lines i2 = Some l /\ is_timestamp l = true
              /\ tidy (text e))
  end.
Proof.
  unfold parse_step. pose proof (skip_blank_ge lines i) as H0.
  set (i1 := skip_blank lines i) in *.
  destruct (length lines <=? i1); [reflexivity|].
  destruct (at' lines i1) as [[|c0 l0]|]; try reflexivity.
  destruct (test INT_RE (trim (c0 :: l0))).
  - destruct (length lines <=? S i1); [reflexivity|].
    destruct (at' lines (S i1)) as [[|c1 l1]|] eqn:E1; try reflexivity.
    destruct (exec TS_RE _) as [mt|] eqn:Em; [|split; [lia | left; reflexivity]].
    pose proof (collect_n_ge (length lines - S (S i1)) lines (S (S i1)) []) as Hc.
    unfold collect. destruct (collect_n _ _ _ _) as [i3 buf]. cbn [fst] in Hc.
    pose proof (skip_blank_ge lines i3) as H3.
    split; [lia|].
    destruct (is_empty (trim (replace_all WS_RE (const_str (str " "))
                                (join (str " ") buf)))) eqn:Et; [left; reflexivity|].
    right. eexists _, (S i1), (c1 :: l1).
    split; [reflexivity|]. split; [lia|]. split; [exact E1|].
    split; [unfold is_timestamp; rewrite Em; reflexivity|].
    cbn [text]. apply trim_collapse_tidy, Et.
  - destruct (length lines <=? i1); [reflexivity|].
    destruct (at' lines i1) as [[|c1 l1]|] eqn:E1; try reflexivity.
    destruct (exec TS_RE _) as [mt|] eqn:Em; [|split; [lia | left; reflexivity]].
    pose proof (collect_n_ge (length lines - S i1) lines (S i1) []) as Hc.
    unfold collect. destruct (collect_n _ _ _ _) as [i3 buf]. cbn [fst] in Hc.
    pose proof (skip_blank_ge lines i3) as H3.
    split; [lia|].
    destruct (is_empty (trim (replace_all WS_RE (const_str (str " "))
                                (join (str " ") buf)))) eqn:Et; [left; reflexivity|].
    right. eexists _, i1, (c1 :: l1).
    split; [reflexivity|]. split; [lia|]. split; [exact E1|].
    split; [unfold is_timestamp; rewrite Em; reflexivity|].
    cbn [text]. apply trim_collapse_tidy, Et.
Qed.

Lemma parse_loop_spec (lines : list jstr) (fuel i : nat) (entries r : list SrtEntry) :
  parse_loop fuel lines i entries = Some r ->
  length r + 0 <= length entries + length (filter is_timestamp (skipn i lines))
  /\ (Forall (fun e => tidy (text e)) entries -> Forall (fun e => tidy (text e)) r).
Proof.
  revert i entries. induction fuel as [|fuel IH]; intros i entries.
  - cbn [parse_loop]. destruct (length lines <=? i); [|discriminate].
    intros H. injection H as <-. split; [lia | auto].
  - cbn [parse_loop]. destruct (length lines <=? i).
    + intros H. injection H as <-. split; [lia | auto].
    + pose proof (parse_step_spec lines i entries) as Hs.
      destruct (parse_step lines i entries) as [es|i' es].
      * intros H. injection H as <-. subst es. split; [lia | auto].
      * intros H. destruct (IH _ _ H) as [Hlen Htidy].
        destruct Hs as [Hi [->|(e & i2 & l & -> & Hi2 & Hl & Hts & Ht)]].
        -- split; [|exact Htidy].
           pose proof (filter_skipn_le is_timestamp lines i i' ltac:(lia)). lia.
        -- split.
           ++ rewrite length_app in Hlen. cbn [length] in Hlen.
              pose proof (filter_skipn_hit is_timestamp lines i2 l Hl Hts).
              pose proof (filter_skipn_le is_timestamp lines i i2 ltac:(lia)).
              pose proof (filter_skipn_le is_timestamp lines (S i2) i' ltac:(lia)).
              lia.
           ++ intros Hall. apply Htidy. apply Forall_app. split; [exact Hall|].
              constructor; [exact Ht | constructor].
Qed.

(** *** The sort *)

Lemma insert_by_start_perm (e : SrtEntry) (l : list SrtEntry) :
  Permutation (e :: l) (insert_by_start e l).
Proof.
  induction l as [|x l IH]; [apply Permutation_refl|].
  cbn [insert_by_start]. destruct (Qle_bool (start e) (start x)).
  - apply Permutation_refl.
  - etransitivity; [apply perm_swap|]. apply perm_skip, IH.
Qed.

Lemma sort_by_start_perm (l : list SrtEntry) : Permutation l (sort_by_start l).
Proof.
  induction l as [|x l IH]; [apply Permutation_refl|].
  unfold sort_by_start. cbn [fold_right]. fold (sort_by_start l).
  etransitivity; [apply perm_skip, IH | apply insert_by_start_perm].
Qed.

Lemma insert_by_start_sorted (e : SrtEntry) (l : list SrtEntry) :
  StronglySorted by_start l -> StronglySorted by_start (insert_by_start e l).
Proof.
  induction 1 as [|x l Hl IH Hx]; [repeat constructor|].
  cbn [insert_by_start]. destruct (Qle_bool (start e) (start x)) eqn:E.
  - apply Qle_bool_iff in E. constructor; [constructor; assumption|].
    constructor; [exact E|].
    eapply Forall_impl; [|exact Hx]. intros y Hy. unfold by_start in *.
    eapply Qle_trans; eassumption.
  - constructor; [exact IH|].
    apply (Permutation_Forall (insert_by_start_perm e l)).
    constructor; [|exact Hx]. unfold by_start.
    destruct (Qlt_le_dec (start x) (start e)) as [H|H]; [apply Qlt_le_weak, H|].
    apply Qle_bool_iff in H. congruence.
Qed.

Lemma sort_by_start_sorted (l : list SrtEntry) : StronglySorted by_start (sort_by_start l).
Proof.
  induction l as [|x l IH]; [constructor|].
  unfold sort_by_start. cbn [fold_right]. apply insert_by_start_sorted, IH.
Qed.

Lemma parseSrt_unfold (raw : jstr) :
  raw <> [] ->
  exists r, parse_loop (length (parseSrt_lines raw)) (parseSrt_lines raw) 0 [] = Some r
            /\ parseSrt raw = sort_by_start r.
Proof.
  intros Hne. unfold parseSrt, parseSrt_opt.
  destruct raw as [|c raw]; [contradiction|]. cbn [is_empty].
  destruct (parse_loop _ _ 0 []) as [r|] eqn:E.
  - exists r. split; reflexivity.
  - exfalso. revert E. apply parse_loop_total. lia.
Qed.

Lemma parseSrt_tidy (raw : jstr) : Forall (fun e => tidy (text e)) (parseSrt raw).
Proof.
  destruct raw as [|c raw]; [constructor|].
  destruct (parseSrt_unfold (c :: raw)) as (r & Hr & ->); [discriminate|].
  apply (Permutation_Forall (sort_by_start_perm r)).
  apply (proj2 (parse_loop_spec _ _ _ _ _ Hr)). constructor.
Qed.

Lemma parseSrt_count (raw : jstr) :
  length (parseSrt raw) <= length (filter is_timestamp (parseSrt_lines raw)).
Proof.
  destruct raw as [|c raw]; [apply Nat.le_0_l|].
  destruct (parseSrt_unfold (c :: raw)) as (r & Hr & ->); [discriminate|].
  rewrite <- (Permutation_length (sort_by_start_perm r)).
  pose proof (proj1 (parse_loop_spec _ _ _ _ _ Hr)) as H.
  cbn [length skipn] in H. lia.
Qed.

Lemma filter_none {A} (p : A -> bool) (l : list A) :
  forallb (fun x => negb (p x)) l = true -> filter p l = [].
Proof.
  induction l as [|x l IH]; [reflexivity|]. cbn [forallb filter]. intros H.
  apply andb_true_iff in H. destruct H as [Hx Hl].
  apply negb_true_iff in Hx. rewrite Hx. apply IH, Hl.
Qed.

(** X1.  The parser's loop ends: with as many turns as there are lines left
    it returns, so [parseSrt] returns for every text. *)
Theorem parseSrt_terminates (raw : jstr) (i : nat) (entries : list SrtEntry) :
  parseSrt_opt raw = Some (parseSrt raw)
  /\ exists r, parse_loop (length (parseSrt_lines raw) - i) (parseSrt_lines raw) i entries
               = Some r.
Proof.
  split; [apply parseSrt_opt_total|].
  destruct (parse_loop _ _ i entries) as [r|] eqn:E; [exists r; reflexivity|].
  exfalso. revert E. apply parse_loop_total. lia.
Qed.

(** X2.  The entries [parseSrt] returns are in the order of their start
    times, and they are the entries its loop collected (none for the empty
    text), reordered by the sort it ends with. *)
Theorem parseSrt_sorted (raw : jstr) :
  StronglySorted by_start (parseSrt raw)
  /\ exists r,
       (if is_empty raw then r = []
        else parse_loop (length (parseSrt_lines raw)) (parseSrt_lines raw) 0 [] = Some r)
       /\ parseSrt raw = sort_by_start r
       /\ Permutation r (parseSrt raw).
Proof.
  destruct raw as [|c raw].
  - split; [constructor|]. exists []. repeat split. constructor.
  - destruct (parseSrt_unfold (c :: raw)) as (r & Hr & E); [discriminate|].
    split; [rewrite E; apply sort_by_start_sorted|].
    exists r. cbn [is_empty]. split; [exact Hr|]. split; [exact E|].
    rewrite E. apply sort_by_start_perm.
Qed.

(** X3.  No entry of [parseSrt] has an empty text; a text neither starts nor
    ends with white space, and its white space is single plain spaces. *)
Theorem parseSrt_texts_tidy (raw : jstr) (e : SrtEntry) :
  In e (parseSrt raw) ->
  text e <> [] /\ hd_ws (text e) = false /\ hd_ws (rev (text e)) = false
  /\ ws_tight (text e) = true.
Proof.
  intros H. pose proof (parseSrt_tidy raw) as Hall.
  rewrite Forall_forall in Hall. exact (Hall e H).
Qed.

Lemma parseSrt_texts_tidy_witness :
  ws_tight (str "Hello there , friend!") = true.
Proof.
  refine (proj2 (proj2 (proj2
    (parseSrt_texts_tidy scenario
       (mkEntry 1 1 (7 # 2) (str "Hello there , friend!")) _)))).
  vm_compute. left. reflexivity.
Defined.

(** X4.  Every entry comes from a timestamp line: [parseSrt] returns no more
    entries than the text has lines with a timestamp, and none for a text
    without one. *)
Theorem parseSrt_entries_bounded (raw : jstr) :
  length (parseSrt raw) <= length (filter is_timestamp (parseSrt_lines raw))
  /\ (forallb (fun l => negb (is_timestamp l)) (parseSrt_lines raw) = true ->
      parseSrt raw = []).
Proof.
  split; [apply parseSrt_count|].
  intros H. pose proof (parseSrt_count raw) as Hc.
  rewrite (filter_none is_timestamp _ H) in Hc. destruct (parseSrt raw); [reflexivity | cbn in Hc; lia].
Qed.

Lemma parseSrt_entries_bounded_witness : parseSrt (str "no cue here") = [].
Proof.
  apply (proj2 (parseSrt_entries_bounded (str "no cue here"))).
  vm_compute. reflexivity.
Defined.

(* ================================================================== *)
(** ** More about the chapters and the plain text *)
(* ================================================================== *)

Lemma dedup_from_NoDup {A B} (key : A -> jstr) (f : A -> B) (prev : jstr) (l : list A) :
  NoDup (map f l) -> NoDup (map f (dedup_from key prev l)).
Proof.
  revert prev. induction l as [|c l IH]; intros prev H; [constructor|].
  cbn [map] in H. inversion H as [|? ? Hc Hl]; subst.
  rewrite dedup_from_cons. destruct (keepb key prev c); cbn [app map].
  - constructor; [|apply IH, Hl].
    intros Hin. apply Hc. apply in_map_iff in Hin. destruct Hin as (x & Hx & Hin).
    apply in_map_iff. exists x. split; [exact Hx|]. eapply dedup_from_incl, Hin.
  - apply IH, Hl.
Qed.

Lemma dedup_from_length {A} (key : A -> jstr) (prev : jstr) (l : list A) :
  length (dedup_from key prev l) <= length l.
Proof.
  revert prev. induction l as [|c l IH]; intros prev; [apply le_n|].
  rewrite dedup_from_cons. rewrite length_app. specialize (IH (key c)).
  destruct (keepb key prev c); cbn [length]; lia.
Qed.

Lemma scan_step_length (minGap : Q) (pick : jstr -> jstr)
      (acc : list Chapter * option Q) (e : SrtEntry) :
  length (fst (scan_step minGap pick acc e)) <= S (length (fst acc)).
Proof.
  destruct acc as [chapters la]. unfold scan_step.
  destruct (negb (gapOk minGap la e) || negb (contentful e)); cbn [fst]; [lia|].
  destruct (negb (has_at _ chapters)); cbn [fst]; [|lia].
  rewrite length_app. cbn [length]. lia.
Qed.

Lemma scan_length (minGap : Q) (pick : jstr -> jstr) (entries : list SrtEntry)
      (acc : list Chapter * option Q) :
  length (fst (fold_left (scan_step minGap pick) entries acc))
  <= length (fst acc) + length entries.
Proof.
  revert acc. induction entries as [|e entries IH]; intros acc; cbn [fold_left length]; [lia|].
  etransitivity; [apply IH|]. pose proof (scan_step_length minGap pick acc e). lia.
Qed.

(** X5.  No two chapters of the result share an anchor. *)
Theorem chapters_anchors_distinct (input : jstr + list SrtEntry) (opts : option Opts) :
  NoDup (map at_ (extractChaptersFromSrt input opts)).
Proof.
  unfold extractChaptersFromSrt, extractChapters_entries.
  destruct (entries_of input) as [|e entries]; [constructor|].
  unfold dedup. apply dedup_from_NoDup, assemble_NoDup.
Qed.

(** X6.  There is at most one chapter per entry, besides the one at ["00"];
    without entries there is no chapter at all. *)
Theorem chapters_count (input : jstr + list SrtEntry) (opts : option Opts) :
  length (extractChaptersFromSrt input opts) <= S (length (entries_of input))
  /\ (entries_of input = [] -> extractChaptersFromSrt input opts = []).
Proof.
  unfold extractChaptersFromSrt, extractChapters_entries. split.
  - destruct (entries_of input) as [|e entries] eqn:E; [cbn; lia|].
    unfold dedup. etransitivity; [apply dedup_from_length|].
    unfold assemble, ensure_zero, scan.
    set (sc := fold_left _ _ _).
    pose proof (scan_length (opt_minGapSec opts)
                  (pickTitle (opt_titleMaxLen opts) (opt_preferSentenceEnds opts))
                  (e :: entries) ([], None)) as H.
    fold sc in H. cbn [fst length] in H.
    destruct (negb (has_at _ _)); cbn [length]; lia.
  - intros ->. reflexivity.
Qed.

Lemma chapters_count_witness : extractChaptersFromSrt (inl (str "no cue here")) None = [].
Proof.
  apply (proj2 (chapters_count (inl (str "no cue here")) None)).
  vm_compute. reflexivity.
Defined.

(** X7.  What [cleanLine] returns is the empty string or a line without
    control units, byte-order mark, curly quotes or long dashes, that neither
    starts nor ends with white space, whose white space is single plain
    spaces, and that is not punctuation only. *)
Theorem cleanLine_shape (s : jstr) :
  cleanLine s = []
  \/ (Forall plain (cleanLine s)
      /\ ws_tight (cleanLine s) = true
      /\ hd_ws (cleanLine s) = false
      /\ hd_ws (rev (cleanLine s)) = false
      /\ test PUNCT_ONLY_RE (cleanLine s) = false).
Proof.
  destruct (cleanLine_cleaned s) as [H|[H1 H2 H3 H4 H5]]; [left; exact H|].
  right. repeat split; assumption.
Qed.

(** *** srtToPlainText *)

Lemma lead_app (l1 l2 : list jstr) : lead (l1 ++ l2) = lead l1 ++ lead l2.
Proof. unfold lead. rewrite map_app, concat_app. reflexivity. Qed.

Lemma join_lead (l : list jstr) : join (str " ") l = tl (lead l).
Proof.
  induction l as [|x l IH]; [reflexivity|].
  destruct l as [|y l].
  - unfold lead. cbn. rewrite app_nil_r. reflexivity.
  - change (join (str " ") (x :: y :: l)) with (x ++ str " " ++ join (str " ") (y :: l)).
    rewrite IH. unfold lead. cbn [map concat tl app str]. reflexivity.
Qed.

Lemma pushBuf_empty (merged : list jstr) : pushBuf merged [] = merged.
Proof. reflexivity. Qed.

Lemma pushBuf_edges (merged : list jstr) (buf : jstr) :
  buf <> [] -> hd_ws buf = false -> hd_ws (rev buf) = false ->
  pushBuf merged buf = merged ++ [buf].
Proof.
  intros Hne H1 H2. unfold pushBuf. rewrite (trim_fixed buf H1 H2).
  destruct buf; [contradiction | reflexivity].
Qed.

(** The paragraphs under construction: each is within the limit or is the
    text of one entry. *)
Lemma merge_step_bounded (entries : list SrtEntry) (acc : list jstr * jstr) (e : SrtEntry) :
  let ok p := p <> [] /\ (length p <= 280
                          \/ exists e, In e entries /\ p = trim (Srt.text e)) in
  let okb b := length b <= 280 \/ exists e, In e entries /\ b = Srt.text e in
  In e entries ->
  Forall ok (fst acc) /\ okb (snd acc) ->
  Forall ok (fst (merge_step acc e)) /\ okb (snd (merge_step acc e)).
Proof.
  intros ok okb He [Hm Hb]. destruct acc as [merged buf]. cbn [fst snd] in *.
  unfold merge_step.
  destruct (length (extended buf (Srt.text e)) <=? 280) eqn:E; cbn [fst snd].
  - split; [exact Hm|]. left. apply Nat.leb_le, E.
  - split; [|right; exists e; split; [exact He | reflexivity]].
    unfold pushBuf. destruct (is_empty (trim buf)) eqn:Et; [exact Hm|].
    apply Forall_app. split; [exact Hm|]. constructor; [|constructor].
    split; [intros E0; rewrite E0 in Et; discriminate|].
    destruct Hb as [Hb|(e' & He' & ->)].
    + left. pose proof (trim_length buf). lia.
    + right. exists e'. split; [exact He' | reflexivity].
Qed.

Lemma fold_merge_bounded (entries rest : list SrtEntry) (acc : list jstr * jstr) :
  let ok p := p <> [] /\ (length p <= 280
                          \/ exists e, In e entries /\ p = trim (Srt.text e)) in
  let okb b := length b <= 280 \/ exists e, In e entries /\ b = Srt.text e in
  incl rest entries ->
  Forall ok (fst acc) /\ okb (snd acc) ->
  Forall ok (fst (fold_left merge_step rest acc))
  /\ okb (snd (fold_left merge_step rest acc)).
Proof.
  intros ok okb. revert acc. induction rest as [|e rest IH]; intros acc Hin H; [exact H|].
  cbn [fold_left]. apply IH.
  - intros x Hx. apply Hin. right. exact Hx.
  - apply merge_step_bounded; [apply Hin; left; reflexivity | exact H].
Qed.

(** X8.  No paragraph of [srtToPlainText] is empty, and each is at most 280
    units long unless it is the text of a single entry. *)
Theorem paragraphs_bounded (entries : list SrtEntry) (p : jstr) :
  In p (paragraphs entries) ->
  p <> [] /\ (length p <= 280 \/ exists e, In e entries /\ p = trim (Srt.text e)).
Proof.
  unfold paragraphs.
  pose proof (fold_merge_bounded entries entries ([], []) (incl_refl _)
                (conj (Forall_nil _) (or_introl (Nat.le_0_l _)))) as [Hm Hb].
  destruct (fold_left merge_step entries ([], [])) as [merged buf]. cbn [fst snd] in *.
  unfold pushBuf. destruct (is_empty (trim buf)) eqn:Et.
  - rewrite Forall_forall in Hm. apply Hm.
  - intros Hin. apply in_app_or in Hin. destruct Hin as [Hin|[<-|[]]].
    + rewrite Forall_forall in Hm. apply Hm, Hin.
    + split; [intros E0; rewrite E0 in Et; discriminate|].
      destruct Hb as [Hb|(e' & He' & ->)].
      * left. pose proof (trim_length buf). lia.
      * right. exists e'. split; [exact He' | reflexivity].
Qed.

Lemma paragraphs_bounded_witness :
  str "Good morning everyone and welcome back" <> []
  /\ (length (str "Good morning everyone and welcome back") <= 280
      \/ exists e, In e (parseSrt sample_srt)
                   /\ str "Good morning everyone and welcome back" = trim (Srt.text e)).
Proof.
  apply (paragraphs_bounded (parseSrt sample_srt)).
  vm_compute. left. reflexivity.
Defined.

Lemma extended_edges (buf line : jstr) :
  buf = [] \/ edges buf -> edges line -> edges (extended buf line).
Proof.
  intros [->|(Hb & Hb1 & Hb2)] (Hl & Hl1 & Hl2); [repeat split; assumption|].
  unfold extended. destruct buf as [|c buf]; [contradiction|]. cbn [is_empty].
  repeat split.
  - discriminate.
  - exact Hb1.
  - rewrite rev_app_distr. change (str " " ++ line) with ([32%N] ++ line).
    rewrite rev_app_distr. rewrite <- app_assoc.
    apply hd_ws_app; [exact Hl2|].
    intros E. apply (f_equal (@rev N)) in E. rewrite rev_involutive in E. contradiction.
Qed.

Lemma merge_step_lead (acc : list jstr * jstr) (e : SrtEntry) :
  snd acc = [] \/ edges (snd acc) -> edges (Srt.text e) ->
  edges (snd (merge_step acc e))
  /\ lead (fst (merge_step acc e) ++ nonempty (snd (merge_step acc e)))
     = lead (fst acc ++ nonempty (snd acc)) ++ lead [Srt.text e].
Proof.
  destruct acc as [merged buf]. cbn [fst snd]. intros Hb He.
  unfold merge_step.
  assert (forall b, edges b -> nonempty b = [b]) as Hn.
  { intros b (Hne & _). destruct b; [contradiction | reflexivity]. }
  destruct (length (extended buf (Srt.text e)) <=? 280); cbn [fst snd].
  - split; [apply extended_edges; assumption|].
    rewrite (Hn _ (extended_edges _ _ Hb He)).
    destruct Hb as [->|Hb].
    + cbn [extended is_empty nonempty]. rewrite app_nil_r. apply lead_app.
    + rewrite (Hn _ Hb). unfold extended.
      destruct buf as [|c buf]; [destruct Hb as (Hb & _); contradiction|].
      cbn [is_empty]. rewrite !lead_app. unfold lead. cbn [map concat str].
      rewrite !app_nil_r, <- !app_assoc. reflexivity.
  - split; [exact He|]. rewrite (Hn _ He).
    destruct Hb as [->|Hb].
    + rewrite pushBuf_empty. cbn [nonempty is_empty]. rewrite app_nil_r. apply lead_app.
    + destruct Hb as (Hb0 & Hb1 & Hb2).
      rewrite (pushBuf_edges merged buf Hb0 Hb1 Hb2).
      rewrite (Hn buf (conj Hb0 (conj Hb1 Hb2))). apply lead_app.
Qed.

Lemma fold_merge_lead (entries : list SrtEntry) (acc : list jstr * jstr) :
  snd acc = [] \/ edges (snd acc) ->
  Forall (fun e => edges (Srt.text e)) entries ->
  (snd (fold_left merge_step entries acc) = []
   \/ edges (snd (fold_left merge_step entries acc)))
  /\ lead (fst (fold_left merge_step entries acc)
           ++ nonempty (snd (fold_left merge_step entries acc)))
     = lead (fst acc ++ nonempty (snd acc)) ++ lead (map Srt.text entries).
Proof.
  revert acc. induction entries as [|e entries IH]; intros acc Hb Hall.
  - cbn [fold_left map]. split; [exact Hb|]. unfold lead at 3. cbn.
    rewrite app_nil_r. reflexivity.
  - inversion Hall as [|? ? He Hes]; subst. cbn [fold_left map].
    destruct (merge_step_lead acc e Hb He) as [Hb' Hl'].
    destruct (IH (merge_step acc e) (or_intror Hb') Hes) as [Hb'' Hl''].
    split; [exact Hb''|]. rewrite Hl'', Hl', <- app_assoc. f_equal.
    change (Srt.text e :: map Srt.text entries) with ([Srt.text e] ++ map Srt.text entries).
    symmetry. apply lead_app.
Qed.

Lemma paragraphs_words (entries : list SrtEntry) :
  Forall (fun e => edges (Srt.text e)) entries ->
  join (str " ") (paragraphs entries) = join (str " ") (map Srt.text entries).
Proof.
  intros Hall. rewrite !join_lead. f_equal.
  pose proof (fold_merge_lead entries ([], []) (or_introl eq_refl) Hall) as [Hb Hl].
  unfold paragraphs.
  destruct (fold_left merge_step entries ([], [])) as [merged buf]. cbn [fst snd] in *.
  cbn [nonempty is_empty app] in Hl. unfold lead at 2 in Hl. cbn [map concat app] in Hl.
  rewrite <- Hl. f_equal.
  destruct Hb as [->|(Hb0 & Hb1 & Hb2)].
  - rewrite pushBuf_empty. cbn [nonempty is_empty]. rewrite app_nil_r. reflexivity.
  - rewrite (pushBuf_edges merged buf Hb0 Hb1 Hb2).
    destruct buf; [contradiction | reflexivity].
Qed.

(** X9.  [srtToPlainText] keeps the words and their order: it is the join of
    its paragraphs by line feeds, and the paragraphs joined by spaces are the
    texts of the parsed entries joined by spaces. *)
Theorem srtToPlainText_words (raw : jstr) :
  srtToPlainText raw = join LF (paragraphs (parseSrt raw))
  /\ join (str " ") (paragraphs (parseSrt raw))
     = join (str " ") (map Srt.text (parseSrt raw)).
Proof.
  split.
  - unfold srtToPlainText. destruct raw as [|c raw]; [reflexivity|]. cbn [is_empty].
    destruct (parseSrt (c :: raw)); reflexivity.
  - apply paragraphs_words. eapply Forall_impl; [|apply parseSrt_tidy].
    intros e (H0 & H1 & H2 & _). repeat split; assumption.
Qed.

(* ================================================================== *)
(** ** JSON: reading back what was written *)
(* ================================================================== *)

Import Json.

Lemma json_induction (P : json -> Prop) :
  P JUndef -> P JNull -> (forall b, P (JBool b)) -> (forall lit, P (JNum lit)) ->
  (forall s, P (JStr s)) ->
  (forall l, Forall P l -> P (JArr l)) ->
  (forall l, Forall (fun kv : jstr * json => P (snd kv)) l -> P (JObj l)) ->
  forall v, P v.
Proof.
  intros Hu Hn Hb Hnum Hs Ha Ho.
  fix IH 1. intros [ | | b | lit | s | l | l ].
  - exact Hu.
  - exact Hn.
  - apply Hb.
  - apply Hnum.
  - apply Hs.
  - apply Ha. induction l as [|x l IHl]; constructor; [apply IH | exact IHl].
  - apply Ho. induction l as [|[k x] l IHl]; constructor; [apply IH | exact IHl].
Qed.

(** Comparisons of units, decided by arithmetic. *)
Ltac units :=
  unfold is_high, is_low, is_ws, isDigit, isCh, in_range in *;
  repeat match goal with
         | H : _ && _ = true |- _ => apply andb_true_iff in H; destruct H
         | H : _ || _ = false |- _ => apply orb_false_iff in H; destruct H
         | H : (_ =? _)%N = true |- _ => apply N.eqb_eq in H
         | H : (_ =? _)%N = false |- _ => apply N.eqb_neq in H
         | H : (_ <=? _)%N = true |- _ => apply N.leb_le in H
         | H : (_ <=? _)%N = false |- _ => apply N.leb_gt in H
         | H : (_ <? _)%N = true |- _ => apply N.ltb_lt in H
         | H : (_ <? _)%N = false |- _ => apply N.ltb_ge in H
         end;
  repeat match goal with
         | |- context [(?a =? ?b)%N] => destruct (N.eqb_spec a b)
         | |- context [(?a <=? ?b)%N] => destruct (N.leb_spec a b)
         | |- context [(?a <? ?b)%N] => destruct (N.ltb_spec a b)
         end;
  cbn [andb orb negb]; try reflexivity; try discriminate; try lia.

(** *** Strings *)

Lemma hexval_hexdigit (d : N) : (d < 16)%N -> hexval (hexdigit d) = Some d.
Proof.
  intros H.
  assert (In d (map N.of_nat (seq 0 16))) as Hin.
  { apply in_map_iff. exists (N.to_nat d). split; [lia|]. apply in_seq. lia. }
  cbn in Hin. repeat (destruct Hin as [<-|Hin]; [reflexivity|]). destruct Hin.
Qed.

Lemma unhex4_hex4 (c : N) :
  (c < 65536)%N ->
  unhex4 (hexdigit ((c / 4096) mod 16)) (hexdigit ((c / 256) mod 16))
         (hexdigit ((c / 16) mod 16)) (hexdigit (c mod 16)) = Some c.
Proof.
  intros H. unfold unhex4.
  rewrite !hexval_hexdigit by (apply N.mod_lt; discriminate).
  f_equal. zify. Z.to_euclidean_division_equations. lia.
Qed.

Lemma parse_uescape (c : N) (t : jstr) :
  (c < 65536)%N ->
  parse_string_body (uescape c ++ t) = cons_unit c (parse_string_body t).
Proof.
  intros H. unfold uescape, hex4. cbn [app parse_string_body isCh N.eqb Pos.eqb].
  rewrite (unhex4_hex4 c H). reflexivity.
Qed.

Lemma parse_raw_unit (c : N) (t : jstr) :
  (32 <= c)%N -> c <> 34%N -> c <> 92%N ->
  parse_string_body (c :: t) = cons_unit c (parse_string_body t).
Proof.
  intros H1 H2 H3. cbn [parse_string_body].
  replace (isCh 34 c) with false by units.
  replace (isCh 92 c) with false by units.
  replace (c <? 32)%N with false by units. reflexivity.
Qed.

Lemma parse_esc_unit (c : N) (t : jstr) :
  parse_string_body (esc_unit c ++ t) = cons_unit c (parse_string_body t).
Proof.
  unfold esc_unit.
  destruct (isCh 8 c) eqn:E8; [units; subst; reflexivity|].
  destruct (isCh 9 c) eqn:E9; [units; subst; reflexivity|].
  destruct (isCh 10 c) eqn:E10; [units; subst; reflexivity|].
  destruct (isCh 12 c) eqn:E12; [units; subst; reflexivity|].
  destruct (isCh 13 c) eqn:E13; [units; subst; reflexivity|].
  destruct (isCh 34 c) eqn:E34; [units; subst; reflexivity|].
  destruct (isCh 92 c) eqn:E92; [units; subst; reflexivity|].
  destruct (c <? 32)%N eqn:E.
  - apply parse_uescape. units.
  - apply parse_raw_unit; units.
Qed.

Lemma parse_quote_body_n (n : nat) (s rest : jstr) :
  length s <= n ->
  parse_string_body (quote_body s ++ 34%N :: rest) = Some (s, rest).
Proof.
  revert s. induction n as [|n IH]; intros s Hl.
  - destruct s; [reflexivity | simpl in Hl; lia].
  - destruct s as [|c s]; [reflexivity|]. simpl in Hl. cbn [quote_body].
    destruct (is_high c) eqn:Eh.
    + destruct s as [|d s].
      * rewrite parse_uescape by units. reflexivity.
      * destruct (is_low d) eqn:El.
        -- cbn [app]. rewrite !parse_raw_unit by units.
           simpl in Hl. rewrite IH by lia. reflexivity.
        -- rewrite <- app_assoc, parse_uescape by units.
           rewrite IH by (simpl in *; lia). reflexivity.
    + destruct (is_low c) eqn:El.
      * rewrite <- app_assoc, parse_uescape by units.
        rewrite IH by lia. reflexivity.
      * rewrite <- app_assoc, parse_esc_unit, IH by lia. reflexivity.
Qed.

Lemma parse_quote_body (s rest : jstr) :
  parse_string_body (quote_body s ++ 34%N :: rest) = Some (s, rest).
Proof. apply (parse_quote_body_n (length s)). lia. Qed.

Lemma parse_quote (s rest : jstr) :
  parse_string_body (quote_body s ++ [34%N] ++ rest) = Some (s, rest).
Proof. apply parse_quote_body. Qed.

(** *** Numbers *)

Lemma nstep_delim (st : nstate) (c : N) (rest : jstr) :
  delimb (c :: rest) = true -> nstep st c = None.
Proof.
  cbn [delimb]. intros H.
  assert (c = 44 \/ c = 93 \/ c = 125)%N as Hc.
  { destruct (isCh 44 c) eqn:E1; [units; auto|].
    destruct (isCh 93 c) eqn:E2; [units; auto|].
    destruct (isCh 125 c) eqn:E3; [units; auto|]. discriminate. }
  destruct Hc as [->|[->| ->]]; destruct st; reflexivity.
Qed.

Lemma lex_number_app (st : nstate) (lit rest : jstr) :
  lex_number st lit = Some (lit, []) -> delimb rest = true ->
  lex_number st (lit ++ rest) = Some (lit, rest).
Proof.
  revert st. induction lit as [|c lit IH]; intros st H Hd.
  - cbn [app]. cbn [lex_number] in H. destruct rest as [|d rest].
    + exact H.
    + cbn [lex_number]. rewrite (nstep_delim st d rest Hd).
      destruct (naccept st); [reflexivity | discriminate].
  - cbn [app lex_number] in *. destruct (nstep st c) as [st'|].
    + destruct (lex_number st' lit) as [[l r]|] eqn:E; [|discriminate].
      injection H as -> ->. rewrite (IH st' E Hd). reflexivity.
    + destruct (naccept st); [|discriminate]. discriminate.
Qed.

Lemma number_literal_lex (canon : jstr -> jstr) (lit : jstr) :
  number_literal canon lit = true ->
  lex_number NStart lit = Some (lit, []) /\ canon lit = lit.
Proof.
  unfold number_literal. destruct (lex_number NStart lit) as [[l r]|]; [|discriminate].
  intros H. apply andb_true_iff in H. destruct H as [H Hc].
  apply andb_true_iff in H. destruct H as [Hl Hr].
  apply jstr_eqb_eq in Hl, Hc. destruct r; [|discriminate]. subst l. auto.
Qed.

Lemma number_literal_head (canon : jstr -> jstr) (lit : jstr) :
  number_literal canon lit = true ->
  exists c t, lit = c :: t /\ (isCh 45 c || isDigit c) = true.
Proof.
  intros H. apply number_literal_lex in H. destruct H as [H _].
  destruct lit as [|c t]; [discriminate|]. exists c, t. split; [reflexivity|].
  cbn [lex_number nstep] in H.
  destruct (isCh 45 c); [reflexivity|].
  destruct (isCh 48 c) eqn:E; [units; subst; reflexivity|].
  destruct (isDigit c); [reflexivity | discriminate].
Qed.

(** *** Building an object key by key *)

Lemma lookup_absent (k : jstr) (l : list (jstr * json)) :
  Forall (fun k' => k' <> k) (map fst l) -> lookup k l = None.
Proof.
  induction l as [|[k' v] l IH]; intros H; [reflexivity|].
  inversion H; subst. cbn [lookup].
  destruct (jstr_eqb k' k) eqn:E; [apply jstr_eqb_eq in E; contradiction|].
  apply IH. assumption.
Qed.

Lemma insert_index_last (i : N) (k : jstr) (v : json) (l : list (jstr * json)) :
  Forall (fun k' => exists i', array_index k' = Some i' /\ (i' < i)%N) (map fst l) ->
  insert_index i k v l = l ++ [(k, v)].
Proof.
  induction l as [|[k' v'] l IH]; intros H; [reflexivity|].
  inversion H as [|? ? (i' & Hi' & Hlt) Hl]; subst. cbn [insert_index app].
  rewrite Hi'. replace (i' <? i)%N with true by (symmetry; apply N.ltb_lt; exact Hlt).
  rewrite IH by assumption. reflexivity.
Qed.

Lemma obj_set_last (k : jstr) (v : json) (l : list (jstr * json)) :
  Forall (fun k' => key_before k' k) (map fst l) -> obj_set k v l = l ++ [(k, v)].
Proof.
  intros H. unfold obj_set, has_key.
  rewrite lookup_absent
    by (eapply Forall_impl; [|exact H]; intros k' [Hne _]; exact Hne).
  destruct (array_index k) as [i|] eqn:E; [|reflexivity].
  apply insert_index_last. eapply Forall_impl; [|exact H].
  intros k' [_ Hk]. rewrite E in Hk. exact Hk.
Qed.

Lemma StronglySorted_app_last {A} (R : A -> A -> Prop) (l : list A) (x : A) (l' : list A) :
  StronglySorted R (l ++ x :: l') ->
  Forall (fun y => R y x) l /\ StronglySorted R ((l ++ [x]) ++ l').
Proof.
  intros H. split.
  - induction l as [|y l IH]; [constructor|].
    cbn [app] in H. apply StronglySorted_inv in H. destruct H as [Hs Hy].
    constructor; [|auto]. rewrite Forall_forall in Hy. apply Hy.
    apply in_or_app. right. now left.
  - rewrite <- app_assoc. exact H.
Qed.

Lemma obj_build (l2 l1 : list (jstr * json)) :
  StronglySorted key_before (map fst (l1 ++ l2)) ->
  fold_left (fun a kv => obj_set (fst kv) (snd kv) a) l2 l1 = l1 ++ l2.
Proof.
  revert l1. induction l2 as [|[k v] l2 IH]; intros l1 H.
  - cbn. now rewrite app_nil_r.
  - cbn [fold_left fst snd]. rewrite map_app in H. cbn [map fst] in H.
    apply StronglySorted_app_last in H. destruct H as [Hk Hs].
    rewrite obj_set_last by exact Hk.
    rewrite IH.
    + rewrite <- app_assoc. reflexivity.
    + rewrite !map_app. exact Hs.
Qed.

(** *** Arrays and objects *)

Lemma skip_ws_start (c : N) (t : jstr) : is_ws c = false -> skip_ws (c :: t) = c :: t.
Proof. intros H. cbn [skip_ws]. rewrite H. reflexivity. Qed.

Lemma parse_elems_ok (pv : jstr -> option (json * jstr))
      (texts : list jstr) (vals : list json) :
  Forall2 (fun t v => forall rest, delimb rest = true -> pv (t ++ rest) = Some (v, rest))
          texts vals ->
  texts <> [] ->
  forall n acc rest,
    length texts <= n ->
    parse_elems pv n (join [44%N] texts ++ 93%N :: rest) acc = Some (acc ++ vals, rest).
Proof.
  induction 1 as [|t v texts vals Ht Hts IH]; intros Hne n acc rest Hn; [exfalso; apply Hne; reflexivity|].
  destruct n as [|n]; [simpl in Hn; lia|]. simpl in Hn.
  destruct texts as [|t2 texts].
  - inversion Hts; subst. cbn [join parse_elems].
    rewrite Ht by reflexivity. reflexivity.
  - change (join [44%N] (t :: t2 :: texts)) with (t ++ [44%N] ++ join [44%N] (t2 :: texts)).
    rewrite <- !app_assoc. cbn [parse_elems]. rewrite Ht by reflexivity.
    cbn [app skip_ws is_ws isCh N.eqb Pos.eqb orb].
    rewrite IH by (try discriminate; simpl in *; lia).
    rewrite <- app_assoc. reflexivity.
Qed.

Lemma parse_members_ok (pv : jstr -> option (json * jstr))
      (ms : list (jstr * jstr * json)) :
  Forall (fun m => forall rest, delimb rest = true ->
                                pv (snd (fst m) ++ rest) = Some (snd m, rest)) ms ->
  ms <> [] ->
  forall n acc rest,
    length ms <= n ->
    parse_members pv n (join [44%N] (map member_of ms) ++ 125%N :: rest) acc
    = Some (fold_left (fun a m => obj_set (fst (fst m)) (snd m) a) ms acc, rest).
Proof.
  induction 1 as [|[[k t] v] ms Hm Hms IH]; intros Hne n acc rest Hn; [exfalso; apply Hne; reflexivity|].
  destruct n as [|n]; [simpl in Hn; lia|]. simpl in Hn. cbn [fst snd] in Hm.
  destruct ms as [|m2 ms].
  - cbn [map join]. unfold member_of, member_text, quote. cbn [fst snd].
    cbn [app parse_members skip_ws is_ws isCh N.eqb Pos.eqb orb].
    rewrite <- !app_assoc. cbn [app]. rewrite parse_quote_body.
    cbn [skip_ws is_ws isCh N.eqb Pos.eqb orb].
    rewrite Hm by reflexivity. reflexivity.
  - change (join [44%N] (map member_of ((k, t, v) :: m2 :: ms)))
      with (member_of (k, t, v) ++ [44%N] ++ join [44%N] (map member_of (m2 :: ms))).
    unfold member_of at 1. unfold member_text, quote. cbn [fst snd].
    cbn [app parse_members skip_ws is_ws isCh N.eqb Pos.eqb orb].
    rewrite <- !app_assoc. cbn [app]. rewrite parse_quote_body.
    cbn [skip_ws is_ws isCh N.eqb Pos.eqb orb].
    rewrite Hm by reflexivity.
    cbn [skip_ws is_ws isCh N.eqb Pos.eqb orb].
    rewrite IH by (try discriminate; simpl in *; lia). reflexivity.
Qed.

(** *** The round trip *)

Lemma join_length_ge_count (sep : jstr) (l : list jstr) :
  Forall (fun t => 1 <= length t) l -> length l <= length (join sep l).
Proof.
  induction 1 as [|t l Ht Hl IH]; [reflexivity|].
  destruct l as [|t2 l]; [simpl; lia|].
  change (join sep (t :: t2 :: l)) with (t ++ sep ++ join sep (t2 :: l)).
  rewrite !length_app. simpl in *. lia.
Qed.

Lemma join_length_ge_each (sep : jstr) (l : list jstr) (t : jstr) :
  In t l -> length t <= length (join sep l).
Proof.
  induction l as [|t1 l IH]; [intros []|].
  intros Hin. destruct l as [|t2 l].
  - destruct Hin as [->|[]]. reflexivity.
  - change (join sep (t1 :: t2 :: l)) with (t1 ++ sep ++ join sep (t2 :: l)).
    rewrite !length_app. destruct Hin as [->|Hin]; [lia|].
    specialize (IH Hin). lia.
Qed.

Lemma fold_max_ge_base {A} (f : A -> nat) (l : list A) (b : nat) :
  b <= fold_right (fun x a => Nat.max (f x) a) b l.
Proof. induction l; simpl; lia. Qed.

Lemma fold_max_ge_each {A} (f : A -> nat) (l : list A) (b : nat) (x : A) :
  In x l -> f x <= fold_right (fun x a => Nat.max (f x) a) b l.
Proof.
  induction l as [|y l IH]; [intros []|].
  intros [->|H]; simpl; [lia|]. specialize (IH H). lia.
Qed.

Lemma fold_max_le {A} (f : A -> nat) (l : list A) (b n : nat) :
  b <= n -> (forall x, In x l -> f x <= n) ->
  fold_right (fun x a => Nat.max (f x) a) b l <= n.
Proof.
  intros Hb. induction l as [|y l IH]; intros H; simpl; [exact Hb|].
  apply Nat.max_lub; [apply H; now left | apply IH; intros; apply H; now right].
Qed.

Lemma Forall2_map_self {A B} (g : A -> B) (P : B -> A -> Prop) (l : list A) :
  Forall (fun y => P (g y) y) l -> Forall2 P (map g l) l.
Proof. induction 1; cbn [map]; constructor; auto. Qed.

Lemma ser_obj_defined (l : list (jstr * json)) :
  forallb (fun kv : jstr * json => defined (snd kv)) l = true ->
  ser (JObj l)
  = 123%N :: join [44%N] (map (fun kv => member_text (fst kv) (ser (snd kv))) l)
    ++ [125%N].
Proof.
  intros H. cbn [ser]. do 3 f_equal.
  induction l as [|[k x] l IH]; [reflexivity|].
  cbn [forallb snd] in H. apply andb_true_iff in H. destruct H as [Hx Hl].
  cbn [flat_map map fst snd]. rewrite IH by exact Hl.
  destruct x; try reflexivity. discriminate.
Qed.

Lemma isCh_false (a c : N) : c <> a -> isCh a c = false.
Proof. intros H. apply N.eqb_neq. exact H. Qed.

Section RoundTrip.

Variable canon : jstr -> jstr.

Lemma parses_to_more (t : jstr) (v : json) (n n' : nat) :
  parses_to canon t v n -> n <= n' -> parses_to canon t v n'.
Proof.
  intros H Hn k rest Hd. replace (n' + k) with (n + (n' - n + k)) by lia.
  apply H. exact Hd.
Qed.

Lemma reads_back_num (lit : jstr) : reads_back canon (JNum lit).
Proof.
  intros _ Hwf. inversion Hwf as [ | | | ? Hlit | | | ]; subst.
  destruct (number_literal_head canon lit Hlit) as (c & t & -> & Hc).
  apply number_literal_lex in Hlit. destruct Hlit as [Hlex Hcanon].
  assert (is_ws c = false /\ isCh 34 c = false /\ isCh 91 c = false
          /\ isCh 123 c = false /\ isCh 110 c = false /\ isCh 116 c = false
          /\ isCh 102 c = false /\ isCh 93 c = false) as (H1 & H2 & H3 & H4 & H5 & H6 & H7 & H8).
  { assert (c = 45 \/ 48 <= c <= 57)%N as Hr.
    { apply orb_true_iff in Hc. destruct Hc as [Hc|Hc]; units. }
    unfold is_ws. rewrite !isCh_false by lia. repeat split. }
  split; [|split].
  - intros k rest Hd. cbn [weight Nat.add parse_value ser app].
    rewrite (skip_ws_start c _ H1), H2, H3, H4, H5, H6, H7, Hc.
    change (c :: t ++ rest) with ((c :: t) ++ rest).
    rewrite (lex_number_app _ _ _ Hlex Hd), Hcanon. reflexivity.
  - cbn [ser value_start]. rewrite H1, H8. reflexivity.
  - simpl. lia.
Qed.

Lemma reads_back_str (s : jstr) : reads_back canon (JStr s).
Proof.
  intros _ _. split; [|split].
  - intros k rest Hd. cbn [weight Nat.add parse_value ser]. unfold quote.
    cbn [app skip_ws is_ws isCh N.eqb Pos.eqb orb].
    rewrite <- app_assoc. cbn [app]. rewrite parse_quote_body. reflexivity.
  - reflexivity.
  - cbn [ser weight]. unfold quote. simpl. lia.
Qed.

Lemma reads_back_arr (l : list json) : Forall (reads_back canon) l -> reads_back canon (JArr l).
Proof.
  intros IH Hdef Hwf. cbn [defined] in Hdef.
  inversion Hwf as [ | | | | | ? Hl | ]; subst.
  assert (Forall (fun x => parses_to canon (ser x) x (weight x)
                           /\ value_start (ser x) = true
                           /\ weight x <= length (ser x)) l) as H.
  { rewrite Forall_forall in *. intros x Hx. apply IH; auto.
    rewrite forallb_forall in Hdef. auto. }
  clear IH Hdef Hwf Hl.
  set (f := fold_right (fun x a => Nat.max (weight x) a) (length l) l).
  assert (S f <= length (ser (JArr l))) as Hlen.
  { cbn [ser]. cbn [length]. rewrite length_app. cbn [length].
    enough (f <= length (join [44%N] (map ser l))) by lia.
    apply fold_max_le.
    - rewrite <- (length_map ser l) at 1. apply join_length_ge_count.
      rewrite Forall_map. eapply Forall_impl; [|exact H].
      intros x (_ & _ & Hx). destruct x; simpl in *; lia.
    - intros x Hx. rewrite Forall_forall in H. destruct (H x Hx) as (_ & _ & Hw).
      etransitivity; [exact Hw|]. apply join_length_ge_each. now apply in_map. }
  split; [|split]; [|reflexivity|exact Hlen].
  intros k rest Hd. cbn [weight]. fold f.
  change (S f + k) with (S (f + k)). cbn [parse_value ser].
  cbn [app skip_ws is_ws isCh N.eqb Pos.eqb orb].
  destruct l as [|x l]; [reflexivity|].
  assert (exists c t, ser x = c :: t /\ is_ws c = false /\ isCh 93 c = false)
    as (c & t & Hx & Hws & H93).
  { inversion H as [|? ? (_ & Hs & _) _]; subst.
    destruct (ser x) as [|c t]; [discriminate|]. exists c, t.
    cbn [value_start] in Hs. apply andb_true_iff in Hs. destruct Hs as [Hs1 Hs2].
    apply negb_true_iff in Hs1, Hs2. auto. }
  rewrite <- app_assoc.
  assert (exists r, join [44%N] (map ser (x :: l)) ++ [93%N] ++ rest = c :: r)
    as (r & Hr).
  { cbn [map]. destruct l as [|y l].
    - cbn [join]. rewrite Hx. eexists. reflexivity.
    - change (join [44%N] (ser x :: map ser (y :: l)))
        with (ser x ++ [44%N] ++ join [44%N] (map ser (y :: l))).
      rewrite Hx. eexists. reflexivity. }
  rewrite Hr, (skip_ws_start c r Hws), H93, <- Hr.
  change ([93%N] ++ rest) with (93%N :: rest).
  rewrite (parse_elems_ok (parse_value canon (f + k)) (map ser (x :: l)) (x :: l)).
  - reflexivity.
  - apply Forall2_map_self. rewrite Forall_forall in *. intros y Hy rest' Hd'.
    destruct (H y Hy) as (Hp & _).
    replace (f + k) with (weight y + (f + k - weight y)).
    + apply Hp. exact Hd'.
    + enough (weight y <= f) by lia.
      apply (fold_max_ge_each weight (x :: l) (length (x :: l)) y Hy).
  - discriminate.
  - rewrite length_map.
    pose proof (fold_max_ge_base weight (x :: l) (length (x :: l))) as Hb.
    fold f in Hb. lia.
Qed.

Lemma fold_left_map_arg {A B C} (f : A -> C -> A) (g : B -> C) (l : list B) (a : A) :
  fold_left f (map g l) a = fold_left (fun x y => f x (g y)) l a.
Proof. revert a. induction l as [|y l IH]; intros a; [reflexivity|]. apply IH. Qed.

Lemma reads_back_obj (l : list (jstr * json)) :
  Forall (fun kv : jstr * json => reads_back canon (snd kv)) l -> reads_back canon (JObj l).
Proof.
  intros IH Hdef Hwf. cbn [defined] in Hdef.
  inversion Hwf as [ | | | | | | ? Hsorted Hl ]; subst.
  assert (Forall (fun kv : jstr * json =>
                    parses_to canon (ser (snd kv)) (snd kv) (weight (snd kv))
                    /\ weight (snd kv) <= length (ser (snd kv))) l) as H.
  { rewrite Forall_forall in *. intros kv Hkv.
    rewrite forallb_forall in Hdef. destruct (IH kv Hkv) as (H1 & _ & H3); auto. }
  rewrite (ser_obj_defined l Hdef).
  clear IH Hwf Hl.
  set (g := fun kv : jstr * json => (fst kv, ser (snd kv), snd kv)).
  assert (map (fun kv : jstr * json => member_text (fst kv) (ser (snd kv))) l
          = map member_of (map g l)) as Htexts.
  { rewrite map_map. reflexivity. }
  rewrite Htexts.
  set (f := fold_right (fun kv a => Nat.max (weight (snd kv)) a) (length l) l).
  assert (S f <= length (123%N :: join [44%N] (map member_of (map g l)) ++ [125%N]))
    as Hlen.
  { cbn [length]. rewrite length_app. cbn [length].
    enough (f <= length (join [44%N] (map member_of (map g l)))) by lia.
    apply fold_max_le.
    - rewrite <- (length_map g l), <- (length_map member_of (map g l)) at 1.
      apply join_length_ge_count.
      rewrite !Forall_map. apply Forall_forall. intros kv _.
      unfold member_of, member_text, quote, g. cbn [fst snd length].
      rewrite length_app. cbn [length]. lia.
    - intros kv Hkv. rewrite Forall_forall in H. destruct (H kv Hkv) as (_ & Hw).
      etransitivity; [exact Hw|].
      etransitivity; [|apply (join_length_ge_each _ _ (member_of (g kv)))].
      + unfold member_of, member_text, g. cbn [fst snd].
        rewrite length_app. cbn [length]. lia.
      + apply in_map, in_map, Hkv. }
  split; [|split]; [|reflexivity|exact Hlen].
  intros k rest Hd. cbn [weight]. fold f.
  change (S f + k) with (S (f + k)). cbn [parse_value].
  cbn [app skip_ws is_ws isCh N.eqb Pos.eqb orb].
  destruct l as [|kv l]; [reflexivity|].
  rewrite <- app_assoc.
  assert (exists r, join [44%N] (map member_of (map g (kv :: l))) ++ [125%N] ++ rest
                    = 34%N :: r) as (r & Hr).
  { cbn [map]. destruct l as [|kv2 l].
    - cbn [join]. eexists. reflexivity.
    - change (join [44%N] (member_of (g kv) :: map member_of (map g (kv2 :: l))))
        with (member_of (g kv) ++ [44%N]
              ++ join [44%N] (map member_of (map g (kv2 :: l)))).
      eexists. reflexivity. }
  rewrite Hr. cbn [skip_ws is_ws isCh N.eqb Pos.eqb orb]. rewrite <- Hr.
  change ([125%N] ++ rest) with (125%N :: rest).
  rewrite (parse_members_ok (parse_value canon (f + k)) (map g (kv :: l))).
  - rewrite fold_left_map_arg. unfold g. cbn [fst snd].
    rewrite (obj_build (kv :: l) []) by exact Hsorted. reflexivity.
  - rewrite Forall_map. rewrite Forall_forall in *. intros y Hy rest' Hd'.
    destruct (H y Hy) as (Hp & _). unfold g. cbn [fst snd].
    replace (f + k) with (weight (snd y) + (f + k - weight (snd y))).
    + apply Hp. exact Hd'.
    + enough (weight (snd y) <= f) by lia.
      apply (fold_max_ge_each (fun kv => weight (snd kv)) (kv :: l)
                              (length (kv :: l)) y Hy).
  - discriminate.
  - rewrite length_map.
    pose proof (fold_max_ge_base (fun kv : jstr * json => weight (snd kv))
                                 (kv :: l) (length (kv :: l))) as Hb.
    fold f in Hb. lia.
Qed.

Lemma reads_back_all (v : json) : reads_back canon v.
Proof.
  induction v as [ | | b | lit | s | l IH | l IH ] using json_induction.
  - intros H. discriminate.
  - intros _ _. split; [|split]; [|reflexivity|simpl; lia].
    intros k rest Hd. reflexivity.
  - intros _ _. destruct b; (split; [|split]; [|reflexivity|simpl; lia]);
      intros k rest Hd; reflexivity.
  - apply reads_back_num.
  - apply reads_back_str.
  - apply reads_back_arr, IH.
  - apply reads_back_obj, IH.
Qed.

(** Reading the text of a value without [undefined] gives the value back. *)
Lemma JSON_parse_ser_defined (v : json) :
  defined v = true -> well_formed canon v -> JSON_parse canon (ser v) = Some v.
Proof.
  intros Hd Hwf. destruct (reads_back_all v Hd Hwf) as (Hp & _ & Hw).
  unfold JSON_parse.
  replace (S (length (ser v))) with (weight v + (S (length (ser v)) - weight v)) by lia.
  rewrite <- (app_nil_r (ser v)) at 2. rewrite Hp by reflexivity. reflexivity.
Qed.

End RoundTrip.

(** *** Values with [undefined] in them *)

Lemma norm_item_not_undef (v : json) : norm_item v <> JUndef.
Proof. destruct v; discriminate. Qed.

Lemma norm_item_eq (v : json) : v <> JUndef -> norm_item v = norm v.
Proof. destruct v; intros H; try reflexivity. contradiction. Qed.

Lemma present_norm_item (kv : jstr * json) :
  present kv = true -> norm (snd kv) = norm_item (snd kv).
Proof. destruct kv as [k x]. destruct x; try reflexivity. discriminate. Qed.

Lemma ser_obj_present (l : list (jstr * json)) :
  ser (JObj l)
  = 123%N :: join [44%N] (map (fun kv => member_text (fst kv) (ser (snd kv)))
                              (filter present l))
    ++ [125%N].
Proof.
  cbn [ser]. do 3 f_equal.
  induction l as [|[k x] l IH]; [reflexivity|].
  cbn [flat_map filter]. rewrite IH. destruct x; reflexivity.
Qed.

Lemma norm_obj_present (l : list (jstr * json)) :
  norm (JObj l) = JObj (map (fun kv => (fst kv, norm (snd kv))) (filter present l)).
Proof.
  cbn [norm]. f_equal.
  induction l as [|[k x] l IH]; [reflexivity|].
  cbn [flat_map filter]. rewrite IH. destruct x; reflexivity.
Qed.

Lemma filter_present_norm (l : list (jstr * json)) :
  filter present (map (fun kv => (fst kv, norm (snd kv))) (filter present l))
  = map (fun kv => (fst kv, norm (snd kv))) (filter present l).
Proof.
  induction l as [|[k x] l IH]; [reflexivity|].
  cbn [filter]. destruct (present (k, x)) eqn:E; [|exact IH].
  cbn [map filter fst snd]. rewrite IH.
  destruct x; try reflexivity. discriminate.
Qed.

Lemma norm_item_props (v : json) :
  defined (norm_item v) = true /\ ser (norm_item v) = ser v.
Proof.
  induction v as [ | | b | lit | s | l IH | l IH ] using json_induction;
    try (split; reflexivity).
  - change (norm_item (JArr l)) with (JArr (map norm_item l)).
    rewrite Forall_forall in IH. split.
    + cbn [defined]. rewrite forallb_forall. intros x Hx.
      apply in_map_iff in Hx. destruct Hx as (y & <- & Hy). apply (IH y Hy).
    + cbn [ser]. rewrite map_map. do 3 f_equal.
      apply map_ext_in. intros y Hy. apply (IH y Hy).
  - change (norm_item (JObj l)) with (norm (JObj l)).
    rewrite norm_obj_present. rewrite Forall_forall in IH. split.
    + cbn [defined]. rewrite forallb_forall. intros kv Hkv.
      apply in_map_iff in Hkv. destruct Hkv as (y & <- & Hy).
      apply filter_In in Hy. destruct Hy as [Hy Hp]. cbn [snd].
      rewrite (present_norm_item y Hp). apply (IH y Hy).
    + rewrite (ser_obj_present l), ser_obj_present, filter_present_norm, map_map.
      do 3 f_equal. apply map_ext_in. intros y Hy.
      apply filter_In in Hy. destruct Hy as [Hy Hp]. cbn [fst snd].
      rewrite (present_norm_item y Hp). f_equal. apply (IH y Hy).
Qed.

Lemma norm_defined (v : json) : defined v = true -> norm v = v.
Proof.
  induction v as [ | | b | lit | s | l IH | l IH ] using json_induction;
    try reflexivity; intros Hd; cbn [defined] in Hd.
  - rewrite forallb_forall in Hd. rewrite Forall_forall in IH.
    change (norm (JArr l)) with (JArr (map norm_item l)). f_equal.
    rewrite <- (map_id l) at 2. apply map_ext_in. intros x Hx.
    rewrite norm_item_eq by (intros ->; specialize (Hd _ Hx); discriminate).
    apply IH; auto.
  - rewrite forallb_forall in Hd. rewrite Forall_forall in IH.
    rewrite norm_obj_present. f_equal.
    assert (filter present l = l) as ->.
    { apply forallb_filter_id. rewrite forallb_forall. intros [k x] Hx.
      specialize (Hd _ Hx). destruct x; try reflexivity. discriminate. }
    rewrite <- (map_id l) at 2. apply map_ext_in. intros [k x] Hx.
    cbn [fst snd]. f_equal. apply (IH _ Hx). apply (Hd _ Hx).
Qed.

Lemma sorted_keys_filter {B} (R : jstr -> jstr -> Prop) (p : jstr * B -> bool)
      (l : list (jstr * B)) :
  StronglySorted R (map fst l) -> StronglySorted R (map fst (filter p l)).
Proof.
  induction l as [|kv l IH]; intros H; [constructor|].
  cbn [map] in H. apply StronglySorted_inv in H. destruct H as [Hs Hk].
  cbn [filter]. destruct (p kv); [|auto].
  cbn [map]. constructor; [auto|].
  rewrite Forall_forall in *. intros k Hin. apply Hk.
  apply in_map_iff in Hin. destruct Hin as (y & <- & Hy).
  apply filter_In in Hy. apply in_map. tauto.
Qed.

Section Normal.

Variable canon : jstr -> jstr.

Lemma well_formed_norm_item (v : json) :
  well_formed canon v -> well_formed canon (norm_item v).
Proof.
  induction v as [ | | b | lit | s | l IH | l IH ] using json_induction;
    intros Hwf; try exact Hwf.
  - constructor.
  - inversion Hwf as [ | | | | | ? Hl | ]; subst.
    change (norm_item (JArr l)) with (JArr (map norm_item l)). constructor.
    rewrite Forall_map. rewrite Forall_forall in *. auto.
  - inversion Hwf as [ | | | | | | ? Hs Hl ]; subst.
    change (norm_item (JObj l)) with (norm (JObj l)).
    rewrite norm_obj_present. constructor.
    + rewrite map_map. cbn [fst]. apply (sorted_keys_filter key_before present l Hs).
    + rewrite Forall_map. rewrite Forall_forall in *. intros kv Hkv.
      apply filter_In in Hkv. destruct Hkv as [Hkv Hp]. cbn [snd].
      rewrite (present_norm_item kv Hp). auto.
Qed.

(** [JSON.parse(JSON.stringify(v))] is [v] without what [JSON.stringify]
    leaves out. *)
Lemma JSON_parse_ser (v : json) :
  well_formed canon v -> JSON_parse canon (ser v) = Some (norm_item v).
Proof.
  intros Hwf. destruct (norm_item_props v) as [Hd Hs]. rewrite <- Hs.
  apply JSON_parse_ser_defined; [exact Hd | apply well_formed_norm_item, Hwf].
Qed.

Lemma ser_norm (v : json) : v <> JUndef -> ser (norm v) = ser v.
Proof.
  intros H. rewrite <- (norm_item_eq v H). apply norm_item_props.
Qed.

End Normal.

Lemma key_beforeb_true (k k' : jstr) : key_beforeb k k' = true -> key_before k k'.
Proof.
  unfold key_beforeb, key_before. intros H. apply andb_true_iff in H.
  destruct H as [Hne Hi]. split.
  - intros ->. rewrite jstr_eqb_refl in Hne. discriminate.
  - destruct (array_index k') as [i'|]; [|exact I].
    destruct (array_index k) as [i|]; [|discriminate].
    exists i. split; [reflexivity|]. apply N.ltb_lt. exact Hi.
Qed.

Lemma keys_sortedb_true (l : list jstr) :
  keys_sortedb l = true -> StronglySorted key_before l.
Proof.
  induction l as [|k l IH]; intros H; [constructor|].
  cbn [keys_sortedb] in H. apply andb_true_iff in H. destruct H as [Hk Hl].
  constructor; [auto|]. rewrite forallb_forall in Hk. apply Forall_forall.
  intros k' Hk'. apply key_beforeb_true. auto.
Qed.

Lemma well_formedb_true (canon : jstr -> jstr) (v : json) :
  well_formedb canon v = true -> well_formed canon v.
Proof.
  induction v as [ | | b | lit | s | l IH | l IH ] using json_induction;
    intros H; try (constructor; fail).
  - constructor. exact H.
  - constructor. cbn [well_formedb] in H. rewrite forallb_forall in H.
    rewrite Forall_forall in *. auto.
  - cbn [well_formedb] in H. apply andb_true_iff in H. destruct H as [Hk Hl].
    constructor; [apply keys_sortedb_true, Hk|].
    rewrite forallb_forall in Hl. rewrite Forall_forall in *. auto.
Qed.

(* ================================================================== *)
(** ** Persistence *)
(* ================================================================== *)

Import LocalStorage PersistCommon.

Lemma getItem_setItem (s : Storage) (k v : jstr) :
  accepts s k v = true ->
  snd (setItem (Some s) k v) = true
  /\ getItem (fst (setItem (Some s) k v)) k = Some v.
Proof.
  intros H. unfold setItem. rewrite H. cbn. rewrite jstr_eqb_refl. auto.
Qed.

Lemma getItem_removeItem (w : Window) (k : jstr) : getItem (removeItem w k) k = None.
Proof. destruct w as [s|]; [|reflexivity]. cbn. now rewrite jstr_eqb_refl. Qed.

Lemma lookup_well_formed (canon : jstr -> jstr) (k : jstr) (l : list (jstr * json)) (v : json) :
  Forall (fun kv => well_formed canon (snd kv)) l -> lookup k l = Some v ->
  well_formed canon v.
Proof.
  induction 1 as [|[k' x] l Hx Hl IH]; [discriminate|].
  cbn [lookup]. destruct (jstr_eqb k' k); [|exact IH].
  intros E. injection E as <-. exact Hx.
Qed.

Lemma well_formed_get (canon : jstr -> jstr) (state : json) (k : jstr) :
  well_formed canon state -> well_formed canon (get state k).
Proof.
  intros H. destruct state; try constructor.
  inversion H as [ | | | | | | ? Hs Hl ]; subst. cbn [get].
  destruct (lookup k members) eqn:E; [|constructor].
  eapply lookup_well_formed; eauto.
Qed.

Lemma well_formed_clip (canon : jstr -> jstr) (v : json) : well_formed canon (clip v).
Proof. destruct v; cbn [clip]; try constructor. destruct (_ <? _); constructor. Qed.

Lemma well_formed_nullish (canon : jstr -> jstr) (v : json) :
  well_formed canon v -> well_formed canon (nullish v).
Proof. destruct v; intros H; cbn [nullish]; try exact H; constructor. Qed.

Lemma get_head (k : jstr) (v : json) (l : list (jstr * json)) :
  get (JObj ((k, v) :: l)) k = v.
Proof. cbn [get lookup]. now rewrite jstr_eqb_refl. Qed.

Lemma norm_obj_cons (k : jstr) (v : json) (l : list (jstr * json)) :
  v <> JUndef ->
  norm (JObj ((k, v) :: l))
  = JObj ((k, norm v)
          :: map (fun kv => (fst kv, norm (snd kv))) (filter present l)).
Proof.
  intros H. rewrite norm_obj_present. cbn [filter].
  replace (present (k, v)) with true by (destruct v; try reflexivity; contradiction).
  reflexivity.
Qed.

Lemma ser_obj_cons (k : jstr) (v : json) (l : list (jstr * json)) :
  v <> JUndef ->
  ser (JObj ((k, v) :: l))
  = 123%N :: join [44%N]
               (member_text k (ser v)
                :: map (fun kv => member_text (fst kv) (ser (snd kv))) (filter present l))
    ++ [125%N].
Proof.
  intros H. rewrite ser_obj_present. cbn [filter].
  replace (present (k, v)) with true by (destruct v; try reflexivity; contradiction).
  reflexivity.
Qed.

Lemma is_str_refl (s : jstr) : is_str s (JStr s) = true.
Proof. apply jstr_eqb_refl. Qed.

Lemma is_str_eq (s : jstr) (v : json) : is_str s v = true <-> v = JStr s.
Proof.
  destruct v; cbn [is_str]; try (split; discriminate).
  rewrite jstr_eqb_eq. split; [intros ->; reflexivity | intros E; injection E; auto].
Qed.

Ltac solve_members :=
  repeat first
    [ apply Forall_nil
    | apply Forall_cons;
      [ first [ apply well_formed_get; assumption
              | apply well_formed_clip
              | apply well_formed_nullish, well_formed_get; assumption
              | constructor
              | match goal with |- well_formed _ (if ?b then _ else _) =>
                  destruct b; constructor end ]
      | ] ].

Section Persist1.

Import AppStorePersist.

Variable canon : jstr -> jstr.
Variable createHash : option jstr -> option jstr.

Lemma core_of_well_formed (state : json) :
  well_formed canon state -> well_formed canon (core_of state).
Proof.
  intros H. unfold core_of, field, clipped. constructor.
  - apply keys_sortedb_true. vm_compute. reflexivity.
  - cbn [snd]. solve_members.
Qed.

Lemma core_of_shape (state : json) :
  exists l, core_of state = JObj ((str "version", JStr SESSION_VERSION) :: l).
Proof. eexists. reflexivity. Qed.

Lemma calculateChecksum_norm (data : json) :
  data <> JUndef ->
  calculateChecksum createHash (norm data) = calculateChecksum createHash data.
Proof.
  intros H. unfold calculateChecksum.
  replace (JSON_stringify (norm data)) with (JSON_stringify data); [reflexivity|].
  pose proof (ser_norm data H) as Hs.
  destruct data; try contradiction; try reflexivity;
    cbn [JSON_stringify norm] in *; f_equal; symmetry; exact Hs.
Qed.

(** The loader accepts what parses to an envelope of the current version
    whose checksum is the one of its data. *)
Lemma load_accepts (w : Window) (raw : jstr) (parsed : json) :
  getItem w STORAGE_KEY = Some raw -> is_empty raw = false ->
  JSON_parse canon raw = Some parsed -> is_envelope parsed = true ->
  get parsed (str "checksum")
  = JStr (calculateChecksum createHash (get parsed (str "data"))) ->
  get (get parsed (str "data")) (str "version") = JStr SESSION_VERSION ->
  loadPersistedState canon createHash w = (Some (get parsed (str "data")), w).
Proof.
  intros Hget Hne Hparse Henv Hsum Hver. unfold loadPersistedState.
  rewrite Hget, Hne, Hparse, Henv. cbn [negb].
  rewrite Hsum, is_str_refl, Hver, is_str_refl. reflexivity.
Qed.

(** ... and rejects, removing the key, what does not parse, is no envelope
    or carries another checksum. *)
Lemma load_rejects (w : Window) (raw : jstr) :
  getItem w STORAGE_KEY = Some raw -> is_empty raw = false ->
  (JSON_parse canon raw = None
   \/ exists parsed,
       JSON_parse canon raw = Some parsed
       /\ (is_envelope parsed = false
           \/ get parsed (str "checksum")
              <> JStr (calculateChecksum createHash (get parsed (str "data"))))) ->
  loadPersistedState canon createHash w = (None, removeItem w STORAGE_KEY).
Proof.
  intros Hget Hne H. unfold loadPersistedState. rewrite Hget, Hne.
  destruct H as [->|(parsed & -> & H)]; [reflexivity|].
  destruct (is_envelope parsed); [|reflexivity]. cbn [negb].
  destruct H as [H|H]; [discriminate|].
  destruct (is_str _ _) eqn:E; [|reflexivity].
  apply is_str_eq in E. contradiction.
Qed.

Lemma snapshot_well_formed (state : json) :
  well_formed canon state -> well_formed canon (buildPersistSnapshot createHash state).
Proof.
  intros H. unfold buildPersistSnapshot. constructor.
  - apply keys_sortedb_true. reflexivity.
  - apply Forall_cons; [apply core_of_well_formed, H|].
    apply Forall_cons; [constructor | apply Forall_nil].
Qed.

Lemma snapshot_parses (state : json) :
  well_formed canon state ->
  JSON_parse canon (ser (buildPersistSnapshot createHash state))
  = Some (JObj [ (str "data", norm (core_of state));
                 (str "checksum", JStr (calculateChecksum createHash (core_of state))) ]).
Proof.
  intros H. rewrite JSON_parse_ser by apply snapshot_well_formed, H.
  unfold buildPersistSnapshot.
  change (norm_item (JObj ?l)) with (norm (JObj l)).
  destruct (core_of_shape state) as (l & E).
  rewrite norm_obj_cons by (rewrite E; discriminate). reflexivity.
Qed.

Lemma load_saved (w : Window) (state : json) :
  well_formed canon state ->
  getItem w STORAGE_KEY = Some (ser (buildPersistSnapshot createHash state)) ->
  loadPersistedState canon createHash w = (Some (norm (core_of state)), w).
Proof.
  intros Hwf Hget.
  pose proof (snapshot_parses state Hwf) as Hparse.
  destruct (core_of_shape state) as (l & E).
  assert (core_of state <> JUndef) as Hc by (rewrite E; discriminate).
  assert (norm (core_of state)
          = JObj ((str "version", JStr SESSION_VERSION)
                  :: map (fun kv => (fst kv, norm (snd kv))) (filter present l))) as En.
  { rewrite E. apply norm_obj_cons. discriminate. }
  rewrite (load_accepts w _ _ Hget eq_refl Hparse).
  - rewrite get_head. reflexivity.
  - unfold is_envelope. rewrite get_head, En. reflexivity.
  - rewrite get_head, calculateChecksum_norm by exact Hc. reflexivity.
  - rewrite get_head, En, get_head. reflexivity.
Qed.

Lemma save_writes (s : Storage) (state : json) :
  accepts s STORAGE_KEY (ser (buildPersistSnapshot createHash state)) = true ->
  getItem (savePersistedState createHash (Some s) state) STORAGE_KEY
  = Some (ser (buildPersistSnapshot createHash state)).
Proof.
  intros H. unfold savePersistedState. cbn [buildPersistSnapshot JSON_stringify].
  apply getItem_setItem, H.
Qed.

End Persist1.

Section Persist2.

Import AppStore.

Variable canon : jstr -> jstr.
Variable SHA256 : option jstr -> option jstr.

Lemma stateToPersist_well_formed (state : json) :
  well_formed canon state -> well_formed canon (stateToPersist state).
Proof.
  intros H. unfold stateToPersist, field, clipped. constructor.
  - apply keys_sortedb_true. vm_compute. reflexivity.
  - cbn [snd].
    repeat first
      [ apply Forall_nil
      | apply Forall_cons;
        [ first [ apply well_formed_get; assumption
                | apply well_formed_clip
                | apply well_formed_nullish, well_formed_get; assumption
                | constructor; apply Forall_nil
                | constructor
                | cbv beta; cbn [snd];
                  match goal with |- well_formed _ (if ?b then _ else _) =>
                    destruct b; constructor end ]
        | ] ].
Qed.

Lemma stateToPersist_shape (state : json) : exists l, stateToPersist state = JObj l.
Proof. eexists. reflexivity. Qed.

Lemma signed_norm (data : json) :
  data <> JUndef ->
  calculateChecksum SHA256 (signed (JStr SESSION_VERSION) (norm data))
  = calculateChecksum SHA256 (signed (JStr SESSION_VERSION) data).
Proof.
  intros H. unfold calculateChecksum, signed. cbn [JSON_stringify].
  rewrite !(ser_obj_cons (str "version")) by discriminate.
  cbn [filter]. 
  replace (present (str "data", norm data)) with true
    by (rewrite <- (norm_item_eq data H); pose proof (norm_item_not_undef data);
        destruct (norm_item data); try reflexivity; contradiction).
  replace (present (str "data", data)) with true
    by (destruct data; try reflexivity; contradiction).
  cbn [map fst snd]. rewrite (ser_norm data H). reflexivity.
Qed.

Lemma persist_accepts (w : Window) (raw : jstr) (parsed : json) :
  getItem w SESSION_KEY = Some raw -> is_empty raw = false ->
  JSON_parse canon raw = Some parsed -> is_envelope parsed = true ->
  get parsed (str "checksum")
  = JStr (calculateChecksum SHA256
            (signed (get parsed (str "version")) (get parsed (str "data")))) ->
  get parsed (str "version") = JStr SESSION_VERSION ->
  persistLoad canon SHA256 w = (Some (get parsed (str "data")), w).
Proof.
  intros Hget Hne Hparse Henv Hsum Hver. unfold persistLoad.
  rewrite Hget, Hne, Hparse, Henv.
  assert (truthy parsed = true) as ->.
  { unfold is_envelope in Henv. destruct parsed; try discriminate; reflexivity. }
  cbn [negb orb]. rewrite Hsum, is_str_refl. cbn [negb].
  rewrite Hver, is_str_refl. reflexivity.
Qed.

Lemma persist_rejects (w : Window) (raw : jstr) :
  getItem w SESSION_KEY = Some raw -> is_empty raw = false ->
  (JSON_parse canon raw = None
   \/ exists parsed,
       JSON_parse canon raw = Some parsed
       /\ (is_envelope parsed = false
           \/ get parsed (str "checksum")
              <> JStr (calculateChecksum SHA256
                         (signed (get parsed (str "version"))
                                 (get parsed (str "data")))))) ->
  persistLoad canon SHA256 w = (None, removeItem w SESSION_KEY).
Proof.
  intros Hget Hne H. unfold persistLoad. rewrite Hget, Hne.
  destruct H as [->|(parsed & -> & H)]; [reflexivity|].
  destruct (negb (truthy parsed)); [reflexivity|]. cbn [orb].
  destruct (is_envelope parsed); [|reflexivity]. cbn [negb].
  destruct H as [H|H]; [discriminate|].
  destruct (is_str _ _) eqn:E; [|reflexivity].
  apply is_str_eq in E. contradiction.
Qed.

Lemma envelope_well_formed (data : json) :
  well_formed canon data -> well_formed canon (envelope_of SHA256 data).
Proof.
  intros H. unfold envelope_of. constructor.
  - apply keys_sortedb_true. reflexivity.
  - apply Forall_cons; [constructor|].
    apply Forall_cons; [exact H|].
    apply Forall_cons; [constructor | apply Forall_nil].
Qed.

Lemma envelope_parses (data : json) :
  well_formed canon data -> data <> JUndef ->
  JSON_parse canon (ser (envelope_of SHA256 data))
  = Some (JObj [ (str "version", JStr SESSION_VERSION);
                 (str "data", norm data);
                 (str "checksum",
                  JStr (calculateChecksum SHA256 (signed (JStr SESSION_VERSION) data))) ]).
Proof.
  intros H Hd. rewrite JSON_parse_ser by apply envelope_well_formed, H.
  unfold envelope_of.
  change (norm_item (JObj ?l)) with (norm (JObj l)).
  rewrite norm_obj_cons by discriminate. cbn [filter].
  replace (present (str "data", data)) with true
    by (destruct data; try reflexivity; contradiction).
  reflexivity.
Qed.

Lemma get_second (k1 k2 : jstr) (v1 v2 : json) (l : list (jstr * json)) :
  jstr_eqb k1 k2 = false -> get (JObj ((k1, v1) :: (k2, v2) :: l)) k2 = v2.
Proof. intros H. cbn [get lookup]. rewrite H, jstr_eqb_refl. reflexivity. Qed.

Lemma get_third (k1 k2 k3 : jstr) (v1 v2 v3 : json) (l : list (jstr * json)) :
  jstr_eqb k1 k3 = false -> jstr_eqb k2 k3 = false ->
  get (JObj ((k1, v1) :: (k2, v2) :: (k3, v3) :: l)) k3 = v3.
Proof. intros H1 H2. cbn [get lookup]. rewrite H1, H2, jstr_eqb_refl. reflexivity. Qed.

(** The data of an envelope with the three fields of [envelope_of] is
    accepted. *)
Lemma persist_load_envelope (w : Window) (raw : jstr) (data data' : json) :
  getItem w SESSION_KEY = Some raw -> is_empty raw = false ->
  JSON_parse canon raw
  = Some (JObj [ (str "version", JStr SESSION_VERSION);
                 (str "data", data');
                 (str "checksum",
                  JStr (calculateChecksum SHA256 (signed (JStr SESSION_VERSION) data))) ]) ->
  truthy data' = true ->
  calculateChecksum SHA256 (signed (JStr SESSION_VERSION) data')
  = calculateChecksum SHA256 (signed (JStr SESSION_VERSION) data) ->
  persistLoad canon SHA256 w = (Some data', w).
Proof.
  intros Hget Hne Hparse Ht Hsum.
  rewrite (persist_accepts w _ _ Hget Hne Hparse).
  - rewrite get_second by reflexivity. reflexivity.
  - unfold is_envelope. rewrite get_second, get_third by reflexivity.
    rewrite Ht. reflexivity.
  - rewrite get_head, get_second, get_third by reflexivity. rewrite Hsum. reflexivity.
  - apply get_head.
Qed.

Lemma persist_load_saved (w : Window) (state : json) :
  well_formed canon state ->
  getItem w SESSION_KEY = Some (ser (envelope_of SHA256 (stateToPersist state))) ->
  persistLoad canon SHA256 w = (Some (norm (stateToPersist state)), w).
Proof.
  intros Hwf Hget.
  destruct (stateToPersist_shape state) as (l & E).
  assert (stateToPersist state <> JUndef) as Hd by (rewrite E; discriminate).
  apply (persist_load_envelope w _ (stateToPersist state) _ Hget eq_refl).
  - apply envelope_parses; [apply stateToPersist_well_formed, Hwf | exact Hd].
  - rewrite E. reflexivity.
  - apply signed_norm, Hd.
Qed.

Lemma persistSave_writes (s : Storage) (state : json) (notice : bool) :
  accepts s SESSION_KEY (ser (envelope_of SHA256 (stateToPersist state))) = true ->
  getItem (fst (persistSave SHA256 (Some s) state notice)) SESSION_KEY
  = Some (ser (envelope_of SHA256 (stateToPersist state)))
  /\ snd (persistSave SHA256 (Some s) state notice) = state.
Proof.
  intros H. unfold persistSave.
  destruct (getItem_setItem s SESSION_KEY _ H) as [Hok Hget].
  destruct (setItem (Some s) SESSION_KEY _) as [w' ok]. cbn [fst snd] in *.
  subst ok. cbn [negb andb]. auto.
Qed.

End Persist2.

(* ================================================================== *)
(** ** Migration *)
(* ================================================================== *)

Import PersistSamples.

Lemma lookup_app (k : jstr) (l l' : list (jstr * json)) :
  lookup k (l ++ l') = match lookup k l with Some v => Some v | None => lookup k l' end.
Proof.
  induction l as [|[k' v] l IH]; [reflexivity|]. cbn [app lookup].
  destruct (jstr_eqb k' k); [reflexivity | exact IH].
Qed.

Lemma lookup_insert_index (i : N) (k k' : jstr) (v : json) (l : list (jstr * json)) :
  lookup k' l = None ->
  lookup k (insert_index i k' v l) = if jstr_eqb k' k then Some v else lookup k l.
Proof.
  induction l as [|[k2 v2] l IH]; intros H; [reflexivity|].
  cbn [lookup] in H. destruct (jstr_eqb k2 k') eqn:E2; [discriminate|].
  cbn [insert_index].
  destruct (array_index k2) as [i2|]; [destruct (i2 <? i)%N|]; try reflexivity.
  cbn [lookup]. rewrite (IH H).
  destruct (jstr_eqb k2 k) eqn:E; [|reflexivity].
  destruct (jstr_eqb k' k) eqn:E'; [|reflexivity].
  apply jstr_eqb_eq in E, E'. subst. rewrite jstr_eqb_refl in E2. discriminate.
Qed.

Lemma lookup_obj_set_absent (k k' : jstr) (v : json) (l : list (jstr * json)) :
  lookup k' l = None ->
  lookup k (obj_set k' v l) = if jstr_eqb k' k then Some v else lookup k l.
Proof.
  intros H. unfold obj_set, has_key. rewrite H.
  destruct (array_index k') as [i|]; [apply lookup_insert_index, H|].
  rewrite lookup_app. cbn [lookup].
  destruct (lookup k l) eqn:E; [|reflexivity].
  destruct (jstr_eqb k' k) eqn:E'; [|reflexivity].
  apply jstr_eqb_eq in E'. subst. congruence.
Qed.

Lemma lookup_default_if_absent (k : jstr) (n : string) (v : json) (o : list (jstr * json)) :
  lookup k (default_if_absent n v o)
  = match lookup k o with
    | Some x => Some x
    | None => if jstr_eqb (str n) k then Some v else None
    end.
Proof.
  unfold default_if_absent, has_key.
  destruct (lookup (str n) o) as [x|] eqn:E.
  - destruct (lookup k o) eqn:Ek; [reflexivity|].
    destruct (jstr_eqb (str n) k) eqn:E'; [|reflexivity].
    apply jstr_eqb_eq in E'. subst. congruence.
  - rewrite (lookup_obj_set_absent k (str n) v o E).
    destruct (jstr_eqb (str n) k) eqn:E'; [|destruct (lookup k o); reflexivity].
    apply jstr_eqb_eq in E'. subst. rewrite E. reflexivity.
Qed.

(** Filling a list of defaults in: a key of the input keeps its value, any
    other key gets the first default the list has for it. *)
Lemma lookup_fill (defaults : list (string * json)) (o : list (jstr * json)) (k : jstr) :
  lookup k (fold_left (fun o kv => default_if_absent (fst kv) (snd kv) o) defaults o)
  = filled o defaults k.
Proof.
  revert o. induction defaults as [|[n v] defaults IH]; intros o.
  - unfold filled, default_value. cbn. destruct (lookup k o); reflexivity.
  - cbn [fold_left fst snd]. rewrite IH. unfold filled, default_value.
    rewrite lookup_default_if_absent. cbn [map lookup fst snd].
    destruct (lookup k o); [reflexivity|].
    destruct (jstr_eqb (str n) k); reflexivity.
Qed.

(** Filling in never removes or moves a member: the input is a prefix of the
    result when none of the added keys is an array index. *)
Lemma fill_length (defaults : list (string * json)) (o : list (jstr * json)) :
  length o <= length (fold_left (fun o kv => default_if_absent (fst kv) (snd kv) o) defaults o).
Proof.
  revert o. induction defaults as [|[n v] defaults IH]; intros o; [apply le_n|].
  cbn [fold_left fst snd]. etransitivity; [|apply IH].
  unfold default_if_absent, has_key, obj_set.
  destruct (lookup (str n) o) eqn:E; [apply le_n|]. unfold has_key. rewrite E.
  destruct (array_index (str n)) as [i|].
  - clear. induction o as [|[k2 v2] o IHo]; [cbn; lia|]. cbn [insert_index].
    destruct (array_index k2) as [i2|]; [destruct (i2 <? i)%N|]; cbn [length] in *; lia.
  - rewrite length_app. lia.
Qed.

Lemma migrateState_lookup (data : json) (k : jstr) :
  lookup k (AppStorePersist.migrateState data)
  = filled (spread data) AppStorePersist.migration_defaults k.
Proof. apply lookup_fill. Qed.

Lemma migrateSession_some (raw : json) :
  is_object_type raw = true -> truthy raw = true ->
  truthy (get raw (str "version")) = true ->
  is_string (get raw (str "version")) = true ->
  AppStore.migrateSession raw
  = Some (fold_left (fun o kv => default_if_absent (fst kv) (snd kv) o)
                    AppStore.migration_defaults (spread (get raw (str "data")))).
Proof.
  intros H1 H2 H3 H4. unfold AppStore.migrateSession. rewrite H1, H2, H3, H4. reflexivity.
Qed.

Lemma migrateSession_none (raw : json) :
  truthy (get raw (str "version")) && is_string (get raw (str "version")) = false ->
  AppStore.migrateSession raw = None.
Proof.
  intros H. unfold AppStore.migrateSession.
  destruct (negb (truthy raw) || negb (is_object_type raw)); [reflexivity|].
  destruct (truthy _), (is_string _); try discriminate; reflexivity.
Qed.

(** With every default already present the migration returns its input. *)
Lemma fill_unchanged (defaults : list (string * json)) (o : list (jstr * json)) :
  Forall (fun kv => has_key (str (fst kv)) o = true) defaults ->
  fold_left (fun o kv => default_if_absent (fst kv) (snd kv) o) defaults o = o.
Proof.
  induction 1 as [|[n v] defaults Hn _ IH]; [reflexivity|].
  cbn [fold_left fst snd] in *. unfold default_if_absent at 2. rewrite Hn. exact IH.
Qed.

Lemma default_value_in (defaults : list (string * json)) (n : string) :
  In (str n) (map (fun kv => str (fst kv)) defaults) ->
  default_value defaults (str n) <> None.
Proof.
  unfold default_value. induction defaults as [|[n' v'] defaults IH]; [contradiction|].
  cbn [map lookup fst snd]. intros [H|H].
  - rewrite H, jstr_eqb_refl. discriminate.
  - destruct (jstr_eqb (str n') (str n)); [discriminate | exact (IH H)].
Qed.

Lemma fill_has_key (defaults : list (string * json)) (o : list (jstr * json)) (n : string) :
  In (str n) (map (fun kv => str (fst kv)) defaults) ->
  has_key (str n)
    (fold_left (fun o kv => default_if_absent (fst kv) (snd kv) o) defaults o) = true.
Proof.
  intros H. unfold has_key. rewrite lookup_fill. unfold filled.
  destruct (lookup (str n) o); [reflexivity|].
  pose proof (default_value_in defaults n H) as Hd.
  destruct (default_value defaults (str n)); [reflexivity | contradiction].
Qed.

(** A second migration changes nothing. *)
Lemma fill_idempotent (defaults : list (string * json)) (o : list (jstr * json)) :
  let fill := fold_left (fun o kv => default_if_absent (fst kv) (snd kv) o) defaults in
  fill (fill o) = fill o.
Proof.
  intros fill. apply fill_unchanged. apply Forall_forall. intros [n v] Hin.
  cbn [fst]. apply fill_has_key.
  apply (in_map (fun kv => str (fst kv))) in Hin. exact Hin.
Qed.

(* ================================================================== *)
(** ** Changed texts *)
(* ================================================================== *)





Section Tamper1.

Import AppStorePersist.

Variable canon : jstr -> jstr.
Variable createHash : option jstr -> option jstr.








End Tamper1.

Section Tamper2.

Import AppStore.

Variable canon : jstr -> jstr.
Variable SHA256 : option jstr -> option jstr.







End Tamper2.



(** The digest of the samples does not collide. *)
Lemma digest_id_collision_free : collision_free digest_id.
Proof. intros t t' H. exact H. Qed.


Lemma small_reading_changed2 (canon : jstr -> jstr) :
  reads_as canon (tamper 23 88 (ser (AppStore.stateToPersist state_small)))
           (norm (AppStore.stateToPersist state_xravel)).
Proof.
  exists 40. split; [vm_compute; lia|]. intros k rest Hd. vm_compute. reflexivity.
Qed.

(** A digest that throws gives every text the checksum ["invalid"]. *)
Lemma digest_throws_collides : ~ collision_free digest_throws.
Proof. intros H. specialize (H [] [0%N] eq_refl). discriminate. Qed.

(* ================================================================== *)
(** ** The persistence envelope: round trip, changed texts, migration *)
(* ================================================================== *)

(** C1.  Save and load round trip, in both persistence layers.  For every
    state (an object in enumeration order whose numbers are finite), when the
    storage takes the write of the envelope, a load that follows returns the
    saved projection of the state, not null, and leaves the storage as it is:
    the checksum is recomputed to the stored one, the stored version is the
    current one and no migration runs.  What comes back is the projection as
    JSON carries it, [norm]: the members that were [undefined] are not there;
    it is the projection itself when the projection has no [undefined] in
    it. *)
Theorem save_load_round_trip
        (canon : jstr -> jstr) (createHash SHA256 : option jstr -> option jstr)
        (s1 s2 : Storage) (state : json) (notice : bool) :
  well_formedb canon state = true ->
  accepts s1 AppStorePersist.STORAGE_KEY
          (ser (AppStorePersist.buildPersistSnapshot createHash state)) = true ->
  accepts s2 SESSION_KEY
          (ser (AppStore.envelope_of SHA256 (AppStore.stateToPersist state))) = true ->
  (let w := AppStorePersist.savePersistedState createHash (Some s1) state in
   AppStorePersist.loadPersistedState canon createHash w
   = (Some (norm (AppStorePersist.core_of state)), w))
  /\ (let w := fst (AppStore.persistSave SHA256 (Some s2) state notice) in
      AppStore.persistLoad canon SHA256 w
      = (Some (norm (AppStore.stateToPersist state)), w))
  /\ (defined (AppStorePersist.core_of state) = true ->
      norm (AppStorePersist.core_of state) = AppStorePersist.core_of state)
  /\ (defined (AppStore.stateToPersist state) = true ->
      norm (AppStore.stateToPersist state) = AppStore.stateToPersist state).
Proof.
  intros Hwf H1 H2. apply well_formedb_true in Hwf.
  split; [|split; [|split]].
  - cbv zeta. apply load_saved; [exact Hwf|]. apply save_writes, H1.
  - cbv zeta. apply persist_load_saved; [exact Hwf|].
    apply (persistSave_writes SHA256 s2 state notice H2).
  - apply norm_defined.
  - apply norm_defined.
Qed.

Lemma save_load_round_trip_witness :
  let w := AppStorePersist.savePersistedState digest_id (Some empty_storage) state_small in
  AppStorePersist.loadPersistedState canon_id digest_id w
  = (Some (norm (AppStorePersist.core_of state_small)), w).
Proof.
  refine (proj1 (save_load_round_trip canon_id digest_id digest_id
                                      empty_storage empty_storage state_small true
                                      _ _ _));
    vm_compute; reflexivity.
Defined.




(** C6, as the code has it.  [migrateState] always returns an object; at every
    key it holds the input's value when the input has the key, and the
    default of the list otherwise, so nothing is deleted, renamed or
    overwritten and only absent keys of the list are added.
    [migrateSession] takes the envelope: it returns null when the envelope is
    not an object or has no version that is a non-empty string, and the
    data filled in the same way otherwise. *)
Theorem migration_frame (data raw : json) :
  (forall k, lookup k (AppStorePersist.migrateState data)
             = filled (spread data) AppStorePersist.migration_defaults k)
  /\ length (spread data) <= length (AppStorePersist.migrateState data)
  /\ match AppStore.migrateSession raw with
     | Some o =>
         truthy raw && is_object_type raw
         && truthy (get raw (str "version")) && is_string (get raw (str "version"))
         = true
         /\ (forall k, lookup k o
                       = filled (spread (get raw (str "data")))
                                AppStore.migration_defaults k)
         /\ length (spread (get raw (str "data"))) <= length o
     | None =>
         truthy raw && is_object_type raw
         && truthy (get raw (str "version")) && is_string (get raw (str "version"))
         = false
     end.
Proof.
  split; [intros k; apply migrateState_lookup|].
  split; [apply fill_length|].
  unfold AppStore.migrateSession.
  destruct (truthy raw), (is_object_type raw); cbn [negb orb andb]; try reflexivity.
  destruct (truthy (get raw (str "version"))),
           (is_string (get raw (str "version"))); cbn [negb orb andb]; try reflexivity.
  split; [reflexivity|]. split; [intros k; apply lookup_fill | apply fill_length].
Qed.

(** C6 as worded fails for [migrateSession]: an envelope without a version
    is an object, and the migration of it is null. *)
Lemma migration_can_fail :
  is_object_type envelope_unversioned = true
  /\ get envelope_unversioned (str "data") = state_small
  /\ AppStore.migrateSession envelope_unversioned = None.
Proof. repeat split. Qed.

(* ================================================================== *)
(** ** More about the persistence *)
(* ================================================================== *)

Import AppStoreActions.

Lemma getItem_removeItem_other (w : Window) (k k' : jstr) :
  k <> k' -> getItem (removeItem w k') k = getItem w k.
Proof.
  intros H. destruct w as [s|]; [|reflexivity]. cbn [removeItem getItem cells].
  destruct (jstr_eqb k k') eqn:E; [apply jstr_eqb_eq in E; contradiction | reflexivity].
Qed.

Lemma getItem_setItem_other (w : Window) (k k' v : jstr) :
  k <> k' -> getItem (fst (setItem w k' v)) k = getItem w k.
Proof.
  intros H. destruct w as [s|]; [|reflexivity]. cbn [setItem].
  destruct (accepts s k' v); [|reflexivity]. cbn [fst getItem cells].
  destruct (jstr_eqb k k') eqn:E; [apply jstr_eqb_eq in E; contradiction | reflexivity].
Qed.

Lemma setItem_refused (s : Storage) (k v : jstr) :
  accepts s k v = false -> setItem (Some s) k v = (Some s, false).
Proof. intros H. cbn [setItem]. rewrite H. reflexivity. Qed.

(** X10.  [clip] always gives a string, of at most [MAX_CHARS] units and an
    ellipsis; it leaves a string within the limit as it is, and clipping
    twice is clipping once. *)
Theorem clip_bounded (v : json) :
  (exists s, clip v = JStr s /\ length s <= S MAX_CHARS)
  /\ clip (clip v) = clip v
  /\ (forall t, v = JStr t -> length t <= MAX_CHARS -> clip v = v).
Proof.
  pose (M := MAX_CHARS). assert (M = MAX_CHARS) as HM by reflexivity.
  clearbody M. rewrite <- HM.
  assert (forall t, clip (JStr t)
                    = if M <? length t then JStr (firstn M t ++ [8230%N]) else JStr t) as Hc.
  { intros t. cbn [clip]. rewrite <- HM. reflexivity. }
  assert (forall x, (forall t, x <> JStr t) -> clip x = JStr []) as Hn.
  { intros x Hx. destruct x; try reflexivity. exfalso. exact (Hx s eq_refl). }
  split; [|split].
  - destruct v; try (exists []; split; [reflexivity | cbn; lia]).
    rewrite Hc. destruct (M <? length s) eqn:E.
    + eexists. split; [reflexivity|]. rewrite length_app, length_firstn. cbn [length]. lia.
    + apply Nat.ltb_ge in E. eexists. split; [reflexivity | lia].
  - destruct v; try (change (clip (JStr []) = JStr []); rewrite Hc; cbn [length];
                     destruct (M <? 0) eqn:E; [apply Nat.ltb_lt in E; lia | reflexivity]).
    rewrite Hc. destruct (M <? length s) eqn:E.
    + rewrite Hc. apply Nat.ltb_lt in E.
      assert (length (firstn M s) = M) as Hl by (rewrite length_firstn; lia).
      replace (M <? length (firstn M s ++ [8230%N])) with true
        by (symmetry; apply Nat.ltb_lt; rewrite length_app; cbn [length]; lia).
      rewrite firstn_app, Hl, Nat.sub_diag. cbn [firstn]. rewrite app_nil_r.
      rewrite firstn_all2 by lia. reflexivity.
    + rewrite Hc, E. reflexivity.
  - intros t -> Ht. rewrite Hc.
    replace (M <? length t) with false by (symmetry; apply Nat.ltb_ge; lia).
    reflexivity.
Qed.

Lemma loaders_nothing_stored
      (canon : jstr -> jstr) (createHash SHA256 : option jstr -> option jstr)
      (w : Window) (state : list (jstr * json)) :
  getItem w SESSION_KEY = None \/ getItem w SESSION_KEY = Some [] ->
  AppStorePersist.loadPersistedState canon createHash w = (None, w)
  /\ AppStore.persistLoad canon SHA256 w = (None, w)
  /\ loadSession canon w state = (state, w).
Proof.
  intros H. unfold AppStorePersist.loadPersistedState, AppStore.persistLoad, loadSession.
  unfold AppStorePersist.STORAGE_KEY.
  destruct H as [-> | ->]; repeat split.
Qed.

(** X11.  With nothing under the session key (no storage, no item, or an
    empty item) every loader returns without a session and leaves the storage
    and the state as they are. *)
Theorem load_nothing_stored
        (canon : jstr -> jstr) (createHash SHA256 : option jstr -> option jstr)
        (w : Window) (state : list (jstr * json)) :
  getItem w SESSION_KEY = None \/ getItem w SESSION_KEY = Some [] ->
  AppStorePersist.loadPersistedState canon createHash w = (None, w)
  /\ AppStore.persistLoad canon SHA256 w = (None, w)
  /\ loadSession canon w state = (state, w).
Proof. apply loaders_nothing_stored. Qed.

Lemma savePersistedState_other (createHash : option jstr -> option jstr)
      (w : Window) (state : json) (k : jstr) :
  k <> SESSION_KEY ->
  getItem (AppStorePersist.savePersistedState createHash w state) k = getItem w k.
Proof.
  intros H. unfold AppStorePersist.savePersistedState.
  cbn [AppStorePersist.buildPersistSnapshot JSON_stringify].
  apply getItem_setItem_other, H.
Qed.

(** X12.  No loader touches another key of the storage. *)
Theorem load_frame
        (canon : jstr -> jstr) (createHash SHA256 : option jstr -> option jstr)
        (w : Window) (state : list (jstr * json)) (k : jstr) :
  k <> SESSION_KEY ->
  getItem (snd (AppStorePersist.loadPersistedState canon createHash w)) k = getItem w k
  /\ getItem (snd (AppStore.persistLoad canon SHA256 w)) k = getItem w k
  /\ getItem (snd (loadSession canon w state)) k = getItem w k.
Proof.
  intros H.
  pose proof (getItem_removeItem_other w k SESSION_KEY H) as Hr.
  split; [|split].
  - unfold AppStorePersist.loadPersistedState, AppStorePersist.STORAGE_KEY.
    destruct (getItem w SESSION_KEY) as [raw|]; [|reflexivity].
    destruct (is_empty raw); [reflexivity|].
    destruct (JSON_parse canon raw) as [parsed|]; [|exact Hr].
    destruct (negb (is_envelope parsed)); [exact Hr|].
    destruct (negb (is_str _ _)); [exact Hr|].
    destruct (negb (is_str _ _)); [|reflexivity].
    cbn [snd]. apply savePersistedState_other, H.
  - unfold AppStore.persistLoad.
    destruct (getItem w SESSION_KEY) as [raw|]; [|reflexivity].
    destruct (is_empty raw); [reflexivity|].
    destruct (JSON_parse canon raw) as [parsed|]; [|exact Hr].
    destruct (negb (truthy parsed) || negb (is_envelope parsed)); [exact Hr|].
    destruct (negb (is_str _ _)); [exact Hr|].
    destruct (negb (is_str _ _)); [|reflexivity].
    destruct (AppStore.migrateSession parsed); [|reflexivity].
    cbn [snd]. apply getItem_setItem_other, H.
  - unfold loadSession.
    destruct (getItem w SESSION_KEY) as [raw|]; [|reflexivity].
    destruct (is_empty raw); [reflexivity|].
    destruct (JSON_parse canon raw) as [parsed|]; [|exact Hr].
    destruct parsed; try exact Hr;
      match goal with |- context [truthy ?m] => destruct (truthy m) end;
      first [exact Hr | reflexivity].
Qed.

Lemma load_nothing_stored_witness :
  AppStore.persistLoad canon_id digest_id None = (None, None).
Proof.
  refine (proj1 (proj2 (load_nothing_stored canon_id digest_id digest_id None [] _))).
  left. reflexivity.
Defined.

Lemma load_frame_witness :
  getItem (snd (AppStore.persistLoad canon_id digest_id (holding (str "{}")))) (str "theme")
  = getItem (holding (str "{}")) (str "theme").
Proof.
  refine (proj1 (proj2 (load_frame canon_id digest_id digest_id (holding (str "{}")) []
                                   (str "theme") _))).
  vm_compute. discriminate.
Defined.

(** X13.  After [clearPersistedState] no loader finds a session. *)
Theorem clear_then_load
        (canon : jstr -> jstr) (createHash SHA256 : option jstr -> option jstr)
        (w : Window) (state : list (jstr * json)) :
  let w' := AppStorePersist.clearPersistedState w in
  AppStorePersist.loadPersistedState canon createHash w' = (None, w')
  /\ AppStore.persistLoad canon SHA256 w' = (None, w')
  /\ loadSession canon w' state = (state, w').
Proof.
  intros w'. apply loaders_nothing_stored. left.
  apply getItem_removeItem.
Qed.

(** X14.  A write the storage refuses leaves the storage as it was; of the
    two savers only [persistSave] tells, and only when it is not asked to stay
    quiet: it then puts its message in the state's toast. *)
Theorem refused_write
        (createHash SHA256 : option jstr -> option jstr)
        (s : Storage) (state : json) (notice : bool) :
  accepts s SESSION_KEY (ser (AppStorePersist.buildPersistSnapshot createHash state)) = false ->
  accepts s SESSION_KEY
          (ser (AppStore.envelope_of SHA256 (AppStore.stateToPersist state))) = false ->
  AppStorePersist.savePersistedState createHash (Some s) state = Some s
  /\ fst (AppStore.persistSave SHA256 (Some s) state notice) = Some s
  /\ snd (AppStore.persistSave SHA256 (Some s) state notice)
     = if notice then state
       else AppStore.set_prop state "toastMessage"
              (text "Error: Auto-save failed. Your session might be out of sync.").
Proof.
  intros H1 H2. split; [|split].
  - unfold AppStorePersist.savePersistedState.
    cbn [AppStorePersist.buildPersistSnapshot JSON_stringify].
    unfold AppStorePersist.STORAGE_KEY. rewrite (setItem_refused s _ _ H1). reflexivity.
  - unfold AppStore.persistSave. rewrite (setItem_refused s _ _ H2).
    destruct notice; reflexivity.
  - unfold AppStore.persistSave. rewrite (setItem_refused s _ _ H2).
    destruct notice; reflexivity.
Qed.

Lemma refused_write_witness :
  AppStorePersist.savePersistedState digest_id (Some full_storage) state_small
  = Some full_storage.
Proof.
  refine (proj1 (refused_write digest_id digest_id full_storage state_small false _ _));
    reflexivity.
Defined.

(** X15.  Migrating twice is migrating once, and a state that has every key
    of the list comes back as it is, in both layers. *)
Theorem migration_idempotent (data : json) (version : jstr) :
  AppStorePersist.migrateState (JObj (AppStorePersist.migrateState data))
  = AppStorePersist.migrateState data
  /\ (Forall (fun kv => has_key (str (fst kv)) (spread data) = true)
             AppStorePersist.migration_defaults ->
      AppStorePersist.migrateState data = spread data)
  /\ (version <> [] ->
      forall m,
        AppStore.migrateSession
          (JObj [(str "version", JStr version); (str "data", data)]) = Some m ->
        AppStore.migrateSession
          (JObj [(str "version", JStr version); (str "data", JObj m)]) = Some m).
Proof.
  split; [|split].
  - unfold AppStorePersist.migrateState at 1 2. cbn [spread].
    apply (fill_idempotent AppStorePersist.migration_defaults (spread data)).
  - apply fill_unchanged.
  - intros Hv m.
    assert (forall d,
               AppStore.migrateSession
                 (JObj [(str "version", JStr version); (str "data", d)])
               = Some (fold_left (fun o kv => default_if_absent (fst kv) (snd kv) o)
                                 AppStore.migration_defaults (spread d))) as Hm.
    { intros d. rewrite migrateSession_some; try reflexivity;
        rewrite get_head; destruct version; [contradiction | reflexivity]. }
    rewrite !Hm. cbn [spread].
    generalize (fill_idempotent AppStore.migration_defaults (spread data)). cbv zeta.
    generalize (fold_left (fun o kv => default_if_absent (fst kv) (snd kv) o)
                          AppStore.migration_defaults (spread data)).
    intros x Hx E. injection E as <-. f_equal. exact Hx.
Qed.

Lemma migration_idempotent_witness :
  AppStore.migrateSession
    (JObj [ (str "version", text "3.0.0");
            (str "data",
             JObj (fold_left (fun o kv => default_if_absent (fst kv) (snd kv) o)
                             AppStore.migration_defaults
                             [ (str "level", text "B1"); (str "topic", text "Travel") ])) ])
  = Some (fold_left (fun o kv => default_if_absent (fst kv) (snd kv) o)
                    AppStore.migration_defaults
                    [ (str "level", text "B1"); (str "topic", text "Travel") ]).
Proof.
  apply (proj2 (proj2 (migration_idempotent state_small (str "3.0.0")))).
  - discriminate.
  - reflexivity.
Defined.

(** X16.  An envelope without a version (or with one that is not a non-empty
    string) whose checksum is the recomputed one is not discarded by
    [persistLoad]: the load returns null and the key stays. *)
Theorem unversioned_envelope_stays
        (canon : jstr -> jstr) (SHA256 : option jstr -> option jstr)
        (w : Window) (raw : jstr) (parsed : json) :
  getItem w SESSION_KEY = Some raw -> is_empty raw = false ->
  JSON_parse canon raw = Some parsed -> is_envelope parsed = true ->
  get parsed (str "checksum")
  = JStr (AppStore.calculateChecksum SHA256
            (AppStore.signed (get parsed (str "version")) (get parsed (str "data")))) ->
  truthy (get parsed (str "version")) && is_string (get parsed (str "version")) = false ->
  AppStore.persistLoad canon SHA256 w = (None, w).
Proof.
  intros Hget Hne Hparse Henv Hsum Hver. unfold AppStore.persistLoad.
  rewrite Hget, Hne, Hparse, Henv.
  assert (truthy parsed = true) as ->.
  { unfold is_envelope in Henv. destruct parsed; try discriminate; reflexivity. }
  cbn [negb orb]. rewrite Hsum, is_str_refl. cbn [negb].
  destruct (is_str AppStore.SESSION_VERSION (get parsed (str "version"))) eqn:E.
  - apply is_str_eq in E. rewrite E in Hver. discriminate.
  - cbn [negb]. rewrite (migrateSession_none parsed Hver). reflexivity.
Qed.

Lemma unversioned_envelope_stays_witness :
  AppStore.persistLoad canon_id digest_id (holding unversioned_text)
  = (None, holding unversioned_text).
Proof.
  refine (unversioned_envelope_stays canon_id digest_id (holding unversioned_text)
            unversioned_text
            (obj [ ("data"%string, state_small);
                   ("checksum"%string,
                    JStr (AppStore.calculateChecksum digest_id
                            (AppStore.signed JUndef state_small))) ])
            _ _ _ _ _ _); vm_compute; reflexivity.
Defined.

Lemma get_two_absent (k1 k2 k : jstr) (v1 v2 : json) :
  jstr_eqb k1 k = false -> jstr_eqb k2 k = false ->
  get (JObj [(k1, v1); (k2, v2)]) k = JUndef.
Proof. intros H1 H2. cbn [get lookup]. rewrite H1, H2. reflexivity. Qed.

Lemma signed_undef_norm (SHA256 : option jstr -> option jstr) (data : json) :
  data <> JUndef ->
  AppStore.calculateChecksum SHA256 (AppStore.signed JUndef (norm data))
  = AppStore.calculateChecksum SHA256 (AppStore.signed JUndef data).
Proof.
  intros H. unfold AppStore.calculateChecksum, AppStore.signed. cbn [JSON_stringify].
  rewrite !ser_obj_present. cbn [filter].
  change (present (str "version", JUndef)) with false. cbv iota.
  replace (present (str "data", norm data)) with true
    by (rewrite <- (norm_item_eq data H); pose proof (norm_item_not_undef data);
        destruct (norm_item data); try reflexivity; contradiction).
  replace (present (str "data", data)) with true
    by (destruct data; try reflexivity; contradiction).
  cbn [map fst snd]. rewrite (ser_norm data H). reflexivity.
Qed.

(** X17.  The two layers keep their envelopes under the same key and do not
    read each other's: what one saved the other discards when its own digest
    of the data is not the stored checksum. *)
Theorem layers_discard_each_other
        (canon : jstr -> jstr) (createHash SHA256 : option jstr -> option jstr)
        (w : Window) (state : json) :
  well_formedb canon state = true ->
  (getItem w SESSION_KEY
   = Some (ser (AppStore.envelope_of SHA256 (AppStore.stateToPersist state))) ->
   AppStorePersist.calculateChecksum createHash (AppStore.stateToPersist state)
   <> AppStore.calculateChecksum SHA256
        (AppStore.signed (JStr AppStore.SESSION_VERSION) (AppStore.stateToPersist state)) ->
   AppStorePersist.loadPersistedState canon createHash w
   = (None, removeItem w SESSION_KEY))
  /\ (getItem w SESSION_KEY
      = Some (ser (AppStorePersist.buildPersistSnapshot createHash state)) ->
      AppStore.calculateChecksum SHA256
        (AppStore.signed JUndef (AppStorePersist.core_of state))
      <> AppStorePersist.calculateChecksum createHash (AppStorePersist.core_of state) ->
      AppStore.persistLoad canon SHA256 w = (None, removeItem w SESSION_KEY)).
Proof.
  intros Hwf. apply well_formedb_true in Hwf. split.
  - intros Hget Hdiff.
    destruct (stateToPersist_shape state) as (l & E).
    assert (AppStore.stateToPersist state <> JUndef) as Hd by (rewrite E; discriminate).
    apply (load_rejects canon createHash w _ Hget eq_refl).
    right. eexists. split.
    + apply envelope_parses; [apply stateToPersist_well_formed, Hwf | exact Hd].
    + right. rewrite get_third, get_second by reflexivity.
      rewrite calculateChecksum_norm by exact Hd.
      intros Heq. injection Heq as Heq. apply Hdiff. symmetry. exact Heq.
  - intros Hget Hdiff.
    destruct (core_of_shape state) as (l & E).
    assert (AppStorePersist.core_of state <> JUndef) as Hd by (rewrite E; discriminate).
    apply (persist_rejects canon SHA256 w _ Hget eq_refl).
    right. eexists. split; [apply (snapshot_parses canon createHash), Hwf|].
    right. set (c := AppStorePersist.core_of state) in *.
    rewrite get_second, get_head by reflexivity.
    rewrite get_two_absent by reflexivity.
    rewrite signed_undef_norm by exact Hd.
    intros Heq. apply Hdiff. injection Heq as Heq. symmetry. exact Heq.
Qed.

Lemma layers_discard_each_other_witness :
  AppStorePersist.loadPersistedState canon_id digest_id
    (holding (ser (AppStore.envelope_of digest_id (AppStore.stateToPersist state_small))))
  = (None,
     removeItem
       (holding (ser (AppStore.envelope_of digest_id (AppStore.stateToPersist state_small))))
       SESSION_KEY).
Proof.
  refine (proj1 (layers_discard_each_other canon_id digest_id digest_id _ state_small _) _ _).
  - vm_compute. reflexivity.
  - vm_compute. reflexivity.
  - vm_compute. discriminate.
Defined.

Lemma calculateChecksum_throws (createHash : option jstr -> option jstr) (data : json) :
  (forall t, createHash t = None) ->
  AppStorePersist.calculateChecksum createHash data = str "invalid".
Proof. intros H. unfold AppStorePersist.calculateChecksum. rewrite H. reflexivity. Qed.

(** X18.  When the digest function throws on every input, every checksum is
    the string ["invalid"], and [loadPersistedState] takes any text that
    parses to an envelope with that checksum and the current version in its
    data, whatever the data: nothing is detected. *)
Theorem throwing_digest_accepts_all
        (canon : jstr -> jstr) (createHash : option jstr -> option jstr)
        (w : Window) (raw : jstr) (data : json) :
  (forall t, createHash t = None) ->
  getItem w SESSION_KEY = Some raw -> is_empty raw = false ->
  JSON_parse canon raw
  = Some (JObj [ (str "data", data); (str "checksum", text "invalid") ]) ->
  truthy data = true ->
  get data (str "version") = JStr AppStorePersist.SESSION_VERSION ->
  (forall state, AppStorePersist.buildPersistSnapshot createHash state
                 = JObj [ (str "data", AppStorePersist.core_of state);
                          (str "checksum", text "invalid") ])
  /\ AppStorePersist.loadPersistedState canon createHash w = (Some data, w).
Proof.
  intros Hthrow Hget Hne Hparse Ht Hv. split.
  - intros state. unfold AppStorePersist.buildPersistSnapshot.
    rewrite (calculateChecksum_throws createHash _ Hthrow). reflexivity.
  - rewrite (load_accepts canon createHash w _ _ Hget Hne Hparse).
    + rewrite get_head. reflexivity.
    + unfold is_envelope. rewrite get_head, get_second by reflexivity.
      rewrite Ht. reflexivity.
    + rewrite get_head, get_second by reflexivity.
      rewrite (calculateChecksum_throws createHash _ Hthrow). reflexivity.
    + rewrite get_head. exact Hv.
Qed.

Lemma throwing_digest_accepts_all_witness :
  let raw := ser (obj [ ("data"%string,
                         obj [ ("version"%string, JStr AppStorePersist.SESSION_VERSION);
                               ("topic"%string, text "anything") ]);
                        ("checksum"%string, text "invalid") ]) in
  AppStorePersist.loadPersistedState canon_id digest_throws (holding raw)
  = (Some (obj [ ("version"%string, JStr AppStorePersist.SESSION_VERSION);
                 ("topic"%string, text "anything") ]),
     holding raw).
Proof.
  intros raw.
  refine (proj2 (throwing_digest_accepts_all canon_id digest_throws (holding raw) raw _
                   _ _ _ _ _ _)); vm_compute; reflexivity.
Defined.

(* ================================================================== *)
(** ** The actions of the store *)
(* ================================================================== *)

Lemma jstr_eqb_sym (a b : jstr) : jstr_eqb a b = jstr_eqb b a.
Proof.
  destruct (jstr_eqb a b) eqn:E.
  - apply jstr_eqb_eq in E. subst. symmetry. apply jstr_eqb_refl.
  - destruct (jstr_eqb b a) eqn:E'; [|reflexivity].
    apply jstr_eqb_eq in E'. subst. rewrite jstr_eqb_refl in E. discriminate.
Qed.

Lemma lookup_replace_value (k k' : jstr) (v : json) (l : list (jstr * json)) :
  lookup k' l <> None ->
  lookup k (replace_value k' v l) = if jstr_eqb k' k then Some v else lookup k l.
Proof.
  induction l as [|[k2 v2] l IH]; intros H; [contradiction|].
  cbn [lookup replace_value] in *.
  destruct (jstr_eqb k2 k') eqn:E2.
  - apply jstr_eqb_eq in E2. subst k2. cbn [lookup].
    destruct (jstr_eqb k' k); reflexivity.
  - cbn [lookup]. rewrite (IH H).
    destruct (jstr_eqb k2 k) eqn:E; [|reflexivity].
    destruct (jstr_eqb k' k) eqn:E'; [|reflexivity].
    apply jstr_eqb_eq in E, E'. subst. rewrite jstr_eqb_refl in E2. discriminate.
Qed.

Lemma lookup_obj_set (k k' : jstr) (v : json) (l : list (jstr * json)) :
  lookup k (obj_set k' v l) = if jstr_eqb k' k then Some v else lookup k l.
Proof.
  destruct (lookup k' l) eqn:E.
  - unfold obj_set, has_key. rewrite E. apply lookup_replace_value. congruence.
  - apply lookup_obj_set_absent, E.
Qed.

Lemma lookup_assign (k : jstr) (partial o : list (jstr * json)) :
  lookup k (assign o partial)
  = match lookup k (rev partial) with Some v => Some v | None => lookup k o end.
Proof.
  unfold assign. revert o. induction partial as [|[k' v'] partial IH]; intros o.
  - reflexivity.
  - cbn [fold_left fst snd rev]. rewrite IH, lookup_app, lookup_obj_set.
    cbn [lookup]. destruct (lookup k (rev partial)); [reflexivity|].
    destruct (jstr_eqb k' k); reflexivity.
Qed.

Lemma lookup_In (k : jstr) (l : list (jstr * json)) :
  lookup k l <> None <-> In k (map fst l).
Proof.
  induction l as [|[k' v] l IH]; cbn [lookup map fst In]; [tauto|].
  destruct (jstr_eqb k' k) eqn:E.
  - apply jstr_eqb_eq in E. split; [auto | discriminate].
  - rewrite IH. split; [auto|]. intros [H|H]; [|exact H].
    subst. rewrite jstr_eqb_refl in E. discriminate.
Qed.

Lemma lookup_rev (k : jstr) (l : list (jstr * json)) :
  NoDup (map fst l) -> lookup k (rev l) = lookup k l.
Proof.
  induction l as [|[k' v] l IH]; intros H; [reflexivity|].
  cbn [map fst] in H. inversion H as [|? ? Hk Hl]; subst.
  cbn [rev lookup]. rewrite lookup_app, (IH Hl). cbn [lookup].
  destruct (jstr_eqb k' k) eqn:E.
  - apply jstr_eqb_eq in E. subst k'.
    destruct (lookup k l) eqn:El; [|reflexivity].
    exfalso. apply Hk, lookup_In. congruence.
  - destruct (lookup k l); reflexivity.
Qed.

Lemma keys_replace_value (k : jstr) (v : json) (l : list (jstr * json)) :
  map fst (replace_value k v l) = map fst l.
Proof.
  induction l as [|[k2 v2] l IH]; [reflexivity|]. cbn [replace_value].
  destruct (jstr_eqb k2 k); cbn [map fst]; [reflexivity | now rewrite IH].
Qed.

Lemma keys_insert_index (i : N) (k : jstr) (v : json) (l : list (jstr * json)) :
  Permutation (k :: map fst l) (map fst (insert_index i k v l)).
Proof.
  induction l as [|[k2 v2] l IH]; [apply Permutation_refl|].
  cbn [insert_index].
  destruct (array_index k2) as [i2|]; [destruct (i2 <? i)%N|];
    cbn [map fst]; try apply Permutation_refl.
  etransitivity; [apply perm_swap|]. apply perm_skip, IH.
Qed.

Lemma obj_set_NoDup (k : jstr) (v : json) (l : list (jstr * json)) :
  NoDup (map fst l) -> NoDup (map fst (obj_set k v l)).
Proof.
  intros H. unfold obj_set, has_key. destruct (lookup k l) eqn:E.
  - rewrite keys_replace_value. exact H.
  - assert (~ In k (map fst l)) as Hk by (rewrite <- lookup_In; congruence).
    destruct (array_index k) as [i|].
    + eapply Permutation_NoDup; [apply keys_insert_index|]. constructor; assumption.
    + rewrite map_app. cbn [map fst]. apply NoDup_snoc; assumption.
Qed.

Lemma assign_NoDup (o partial : list (jstr * json)) :
  NoDup (map fst o) -> NoDup (map fst (assign o partial)).
Proof.
  unfold assign. revert o. induction partial as [|[k v] partial IH]; intros o H; [exact H|].
  cbn [fold_left fst snd]. apply IH, obj_set_NoDup, H.
Qed.

Lemma keys_sortedb_NoDup (l : list jstr) : keys_sortedb l = true -> NoDup l.
Proof.
  intros H. apply keys_sortedb_true in H.
  induction H as [|k l Hl IH Hk]; constructor; [|exact IH].
  intros Hin. rewrite Forall_forall in Hk. destruct (Hk k Hin) as [Hne _].
  apply Hne. reflexivity.
Qed.

(** What [loadSession] makes of a stored envelope of the current version
    with data that is an object. *)
Lemma loadSession_current (canon : jstr -> jstr) (w : Window) (state : list (jstr * json))
      (raw : jstr) (env d : list (jstr * json)) :
  getItem w SESSION_KEY = Some raw -> is_empty raw = false ->
  JSON_parse canon raw = Some (JObj env) ->
  get (JObj env) (str "version") = JStr AppStore.SESSION_VERSION ->
  get (JObj env) (str "data") = JObj d ->
  loadSession canon w state = (assign state (set_state d loaded_overrides), w).
Proof.
  intros Hget Hne Hparse Hv Hd. unfold loadSession.
  rewrite Hget, Hne, Hparse, Hv, is_str_refl, Hd. reflexivity.
Qed.

(** X19.  [loadSession] does not look at the checksum: from a stored
    envelope of the current version it takes every field of the data, whatever
    the checksum says, keeps the key, and sets its own fields (the toast
    among them) over the loaded ones. *)
Theorem loadSession_trusts_stored
        (canon : jstr -> jstr) (w : Window) (state : list (jstr * json))
        (raw : jstr) (env d : list (jstr * json)) :
  getItem w SESSION_KEY = Some raw -> is_empty raw = false ->
  JSON_parse canon raw = Some (JObj env) ->
  get (JObj env) (str "version") = JStr AppStore.SESSION_VERSION ->
  get (JObj env) (str "data") = JObj d ->
  NoDup (map fst d) ->
  snd (loadSession canon w state) = w
  /\ (forall k v,
        lookup k d = Some v -> default_value loaded_overrides k = None ->
        lookup k (fst (loadSession canon w state)) = Some v)
  /\ (forall k v,
        default_value loaded_overrides k = Some v ->
        lookup k (fst (loadSession canon w state)) = Some v).
Proof.
  intros Hget Hne Hparse Hv Hd Hnd.
  rewrite (loadSession_current canon w state raw env d Hget Hne Hparse Hv Hd).
  cbn [fst snd]. split; [reflexivity|].
  assert (forall k, lookup k (set_state d loaded_overrides)
                    = match default_value loaded_overrides k with
                      | Some v => Some v
                      | None => lookup k d
                      end) as Hp.
  { intros k. unfold set_state. rewrite lookup_assign. unfold default_value.
    rewrite (lookup_rev k (map _ loaded_overrides)); [reflexivity|].
    apply keys_sortedb_NoDup. reflexivity. }
  assert (forall k, lookup k (assign state (set_state d loaded_overrides))
                    = match lookup k (set_state d loaded_overrides) with
                      | Some v => Some v
                      | None => lookup k state
                      end) as Hs.
  { intros k. rewrite lookup_assign, lookup_rev; [reflexivity|].
    unfold set_state. apply assign_NoDup, Hnd. }
  split.
  - intros k v Hk Hdef. rewrite Hs, Hp, Hdef, Hk. reflexivity.
  - intros k v Hdef. rewrite Hs, Hp, Hdef. reflexivity.
Qed.

Lemma loadSession_trusts_stored_witness :
  lookup (str "topic") (fst (loadSession canon_id (holding unsigned_text) []))
  = Some (text "Travel").
Proof.
  refine (proj1 (proj2
            (loadSession_trusts_stored canon_id (holding unsigned_text) [] unsigned_text
               [ (str "version", JStr AppStore.SESSION_VERSION);
                 (str "data", state_small);
                 (str "checksum", text "tampered") ]
               [ (str "level", text "B1"); (str "topic", text "Travel") ]
               _ _ _ _ _ _))
            (str "topic") (text "Travel") _ _); try (vm_compute; reflexivity).
  repeat constructor; cbn; intuition discriminate.
Defined.

(** *** Progress of the sections *)

Lemma mark_fold (ks : list jstr) (next : list (jstr * json)) (k : jstr) :
  lookup k (fold_left mark_step ks next)
  = if existsb (jstr_eqb k) ks && is_str (str "in_progress") (get (JObj next) k)
    then Some (text "complete")
    else lookup k next.
Proof.
  revert next. induction ks as [|k0 ks IH]; intros next; [reflexivity|].
  cbn [fold_left existsb]. rewrite IH. unfold mark_step. cbn [get].
  destruct (jstr_eqb k k0) eqn:E.
  - apply jstr_eqb_eq in E. subst k0. cbn [orb andb].
    destruct (is_str (str "in_progress")
                     match lookup k next with Some x => x | None => JUndef end) eqn:Ei.
    + rewrite lookup_obj_set, jstr_eqb_refl. cbn [is_str].
      change (jstr_eqb (str "complete") (str "in_progress")) with false.
      rewrite andb_false_r. reflexivity.
    + rewrite Ei, andb_false_r. reflexivity.
  - cbn [orb].
    destruct (is_str (str "in_progress")
                     match lookup k0 next with Some x => x | None => JUndef end).
    + rewrite lookup_obj_set, (jstr_eqb_sym k0 k), E. reflexivity.
    + reflexivity.
Qed.

(** X20.  After [markProgressFromTag] the tag's section, when the tag names
    one, is the only section in progress: every other section that was in
    progress is complete, and nothing else changes. *)
Theorem markProgress_single (current : list (jstr * json)) (tag k : jstr) :
  let keys := map str AppStore.generationSections in
  lookup k (markProgressFromTag current tag)
  = (if existsb (jstr_eqb tag) keys && jstr_eqb tag k
     then Some (text "in_progress")
     else if existsb (jstr_eqb k) keys
             && is_str (str "in_progress") (get (JObj current) k)
          then Some (text "complete")
          else lookup k current)
  /\ (existsb (jstr_eqb k) keys = true -> k <> tag ->
      lookup k (markProgressFromTag current tag) <> Some (text "in_progress")).
Proof.
  intros keys.
  assert (lookup k (markProgressFromTag current tag)
          = (if existsb (jstr_eqb tag) keys && jstr_eqb tag k
             then Some (text "in_progress")
             else if existsb (jstr_eqb k) keys
                     && is_str (str "in_progress") (get (JObj current) k)
                  then Some (text "complete")
                  else lookup k current)) as H.
  { unfold markProgressFromTag. fold keys. fold mark_step.
    destruct (existsb (jstr_eqb tag) keys); cbn [andb].
    - rewrite lookup_obj_set. destruct (jstr_eqb tag k); [reflexivity|].
      apply mark_fold.
    - apply mark_fold. }
  split; [exact H|].
  intros Hk Hne. rewrite H.
  replace (jstr_eqb tag k) with false
    by (symmetry; destruct (jstr_eqb tag k) eqn:E; [|reflexivity];
        apply jstr_eqb_eq in E; congruence).
  rewrite andb_false_r, Hk. cbn [andb get].
  destruct (lookup k current) as [x|]; [|discriminate].
  destruct (is_str (str "in_progress") x) eqn:E; [discriminate|].
  intros Heq. injection Heq as ->. discriminate.
Qed.

Lemma markProgress_single_witness :
  lookup (str "TITLE") (markProgressFromTag makeInitialProgress (str "OVERVIEW"))
  <> Some (text "in_progress").
Proof.
  refine (proj2 (markProgress_single makeInitialProgress (str "OVERVIEW") (str "TITLE")) _ _).
  - reflexivity.
  - discriminate.
Defined.

(** *** The lists of interests, tags and keywords *)

Lemma trim_trim (s : jstr) : trim (trim s) = trim s.
Proof. apply trim_fixed; [apply trim_hd | apply trim_last]. Qed.

Lemma existsb_jstr_In (t : jstr) (l : list jstr) :
  existsb (jstr_eqb t) l = true <-> In t l.
Proof.
  rewrite existsb_exists. split.
  - intros (x & Hx & E). apply jstr_eqb_eq in E. subst. exact Hx.
  - intros H. exists t. split; [exact H | apply jstr_eqb_refl].
Qed.

Lemma remove_item_spec (item : jstr) (items : list jstr) :
  ~ In item (remove_item item items)
  /\ (forall x, x <> item -> (In x (remove_item item items) <-> In x items)).
Proof.
  unfold remove_item. split.
  - rewrite filter_In. intros [_ H]. rewrite jstr_eqb_refl in H. discriminate.
  - intros x Hx. rewrite filter_In. split; [tauto|]. intros H. split; [exact H|].
    destruct (jstr_eqb x item) eqn:E; [apply jstr_eqb_eq in E; contradiction | reflexivity].
Qed.

(** X21.  Adding an item keeps the list free of duplicates and of items that
    are empty or not trimmed, and drops nothing; removing an item removes
    every occurrence of it and nothing else. *)
Theorem item_list_invariants (item : jstr) (items : list jstr) :
  NoDup items -> Forall (fun i => i <> [] /\ trim i = i) items ->
  NoDup (add_item item items)
  /\ Forall (fun i => i <> [] /\ trim i = i) (add_item item items)
  /\ incl items (add_item item items)
  /\ (trim item <> [] -> In (trim item) (add_item item items))
  /\ ~ In item (remove_item item items)
  /\ (forall x, x <> item -> (In x (remove_item item items) <-> In x items)).
Proof.
  intros Hnd Hall. pose proof (remove_item_spec item items) as Hrem.
  unfold add_item. destruct (is_empty (trim item)) eqn:Ee; cbn [orb].
  - split; [exact Hnd|]. split; [exact Hall|]. split; [apply incl_refl|].
    split; [|exact Hrem]. intros H. destruct (trim item); [contradiction | discriminate].
  - destruct (existsb (jstr_eqb (trim item)) items) eqn:Ex.
    + split; [exact Hnd|]. split; [exact Hall|]. split; [apply incl_refl|].
      split; [|exact Hrem]. intros _. apply existsb_jstr_In, Ex.
    + assert (~ In (trim item) items) as Hni.
      { rewrite <- existsb_jstr_In. congruence. }
      split; [apply NoDup_snoc; assumption|].
      split.
      { apply Forall_app. split; [exact Hall|]. constructor; [|constructor].
        split; [|apply trim_trim]. intros E. rewrite E in Ee. discriminate. }
      split; [intros x Hx; apply in_or_app; left; exact Hx|].
      split; [|exact Hrem]. intros _. apply in_or_app. right. left. reflexivity.
Qed.

Lemma item_list_invariants_witness :
  NoDup (add_item (str " travel ") [str "food"; str "music"]).
Proof.
  refine (proj1 (item_list_invariants (str " travel ") [str "food"; str "music"] _ _)).
  - repeat constructor; cbn; intuition discriminate.
  - repeat constructor; discriminate.
Defined.

(** *** A stored text that cannot be used *)

(** X26.  When the stored text does not parse, or parses to something that
    is neither of the current version nor migratable, [loadSession] removes
    the key and changes nothing in the state but the toast. *)
Theorem loadSession_discards
        (canon : jstr -> jstr) (w : Window) (state : list (jstr * json)) (raw : jstr) :
  getItem w SESSION_KEY = Some raw -> is_empty raw = false ->
  (JSON_parse canon raw = None
   \/ exists parsed,
       JSON_parse canon raw = Some parsed
       /\ get parsed (str "version") <> JStr AppStore.SESSION_VERSION
       /\ AppStore.migrateSession parsed = None) ->
  snd (loadSession canon w state) = removeItem w SESSION_KEY
  /\ lookup (str "toastMessage") (fst (loadSession canon w state)) <> None
  /\ (forall k, k <> str "toastMessage" ->
                lookup k (fst (loadSession canon w state)) = lookup k state).
Proof.
  intros Hget Hne H.
  assert (exists msg,
             loadSession canon w state
             = (set_state state [("toastMessage"%string, JStr msg)],
                removeItem w SESSION_KEY)) as (msg & ->).
  { unfold loadSession. rewrite Hget, Hne.
    destruct H as [->|(parsed & -> & Hv & Hm)]; [eexists; reflexivity|].
    destruct parsed; try (eexists; reflexivity);
      (destruct (is_str AppStore.SESSION_VERSION _) eqn:E;
       [apply is_str_eq in E; contradiction|]);
      rewrite Hm; cbn [truthy]; eexists; reflexivity. }
  cbn [fst snd]. split; [reflexivity|].
  unfold set_state. cbn [map fst snd]. split.
  - rewrite lookup_assign. cbn [rev app lookup]. rewrite jstr_eqb_refl. discriminate.
  - intros k Hk. rewrite lookup_assign. cbn [rev app lookup].
    destruct (jstr_eqb (str "toastMessage") k) eqn:E; [|reflexivity].
    apply jstr_eqb_eq in E. congruence.
Qed.

Lemma loadSession_discards_witness :
  snd (loadSession canon_id (holding (str "{oops")) [])
  = removeItem (holding (str "{oops")) SESSION_KEY.
Proof.
  refine (proj1 (loadSession_discards canon_id (holding (str "{oops")) [] (str "{oops")
                                      _ _ _)); try reflexivity.
  left. vm_compute. reflexivity.
Defined.

(* ================================================================== *)
(** ** Splitting generated content into its sections *)
(* ================================================================== *)

Lemma starts_with_app (p s : jstr) : starts_with p (p ++ s) = true.
Proof.
  induction p as [|c p IH]; [reflexivity|]. cbn [app starts_with].
  rewrite N.eqb_refl. exact IH.
Qed.

(** A marker is not found inside a text without the unit it starts with. *)
Lemma indexOf_skip (p' a s : jstr) (i : nat) :
  tagless a ->
  indexOf_from (60%N :: p') (a ++ s) i = indexOf_from (60%N :: p') s (i + length a).
Proof.
  intros H. revert i. induction H as [|c a Hc Ha IH]; intros i.
  - cbn [app length]. rewrite Nat.add_0_r. reflexivity.
  - cbn [app indexOf_from starts_with].
    replace (60 =? c)%N with false by (symmetry; apply N.eqb_neq; congruence).
    cbn [andb]. rewrite IH. cbn [length]. f_equal. lia.
Qed.

(** ... nor at another marker, where it does not fit. *)
Lemma indexOf_skip_marker (p' q' s : jstr) (i : nat) :
  tagless q' -> starts_with (60%N :: p') (60%N :: q' ++ s) = false ->
  indexOf_from (60%N :: p') ((60%N :: q') ++ s) i
  = indexOf_from (60%N :: p') s (i + length (60%N :: q')).
Proof.
  intros Hq Hs. cbn [app]. cbn [indexOf_from]. rewrite Hs.
  rewrite (indexOf_skip p' q' s (S i) Hq). cbn [length]. f_equal. lia.
Qed.

Lemma indexOf_here (p s : jstr) (i : nat) : indexOf_from p (p ++ s) i = Some i.
Proof. destruct p; cbn [indexOf_from app]; [destruct s; reflexivity|].
       change (starts_with (n :: p) (n :: p ++ s)) with (starts_with (n :: p) ((n :: p) ++ s)).
       rewrite starts_with_app. reflexivity.
Qed.

Lemma indexOf_tagless (p' s : jstr) : tagless s -> indexOf s (60%N :: p') = None.
Proof.
  intros H. unfold indexOf. rewrite <- (app_nil_r s), (indexOf_skip p' s [] 0 H).
  reflexivity.
Qed.

Lemma cut_at (marker a b : jstr) :
  indexOf (a ++ marker ++ b) marker = Some (length a) ->
  cut marker (a ++ marker ++ b) = (a, trim b).
Proof.
  intros H. unfold cut. rewrite H. f_equal.
  - rewrite firstn_app, firstn_all, Nat.sub_diag. cbn [firstn]. apply app_nil_r.
  - f_equal. rewrite app_assoc, skipn_app, length_app.
    rewrite skipn_all2 by (rewrite length_app; lia).
    rewrite Nat.sub_diag. reflexivity.
Qed.

Lemma match_at_one_fail (P : N -> bool) (r : regex) (before : jstr) (c : N) (a : jstr) :
  P c = false -> match_at (one P :: r) before (c :: a) = None.
Proof.
  intros H. unfold match_at, one, init_state. cbn [m rest run_len]. rewrite H.
  reflexivity.
Qed.

(** The tag pattern matches nowhere in a text without the unit a tag starts
    with. *)
Lemma search_tagless (before after : jstr) :
  tagless after -> search SECTION_TAG_RE before after = None.
Proof.
  intros H. revert before. induction H as [|c a Hc Ha IH]; intros before.
  - reflexivity.
  - cbn [search]. 
    change SECTION_TAG_RE with (one (isCh 60%N) :: tl SECTION_TAG_RE).
    rewrite match_at_one_fail by (apply N.eqb_neq; exact Hc).
    change (one (isCh 60%N) :: tl SECTION_TAG_RE) with SECTION_TAG_RE.
    apply IH.
Qed.

Lemma strip_tags_tagless (s : jstr) :
  tagless s -> replace_all SECTION_TAG_RE (const_str []) s = s.
Proof.
  intros H. apply replace_all_no_match. unfold test.
  rewrite (search_tagless [] s H). reflexivity.
Qed.

(** X22.  Content without a tag is all booklet: the other three parts are
    empty. *)
Theorem parseAndSetContent_plain (content : jstr) :
  tagless content ->
  parseAndSetContent content = mkContent (trim content) [] [] [].
Proof.
  intros H. unfold parseAndSetContent, cut, SECTION_TEASER, SECTION_SHOWNOTES, SECTION_PODCAST.
  cbn [str]. rewrite !(indexOf_tagless _ content H).
  rewrite (strip_tags_tagless content H). reflexivity.
Qed.

Lemma parseAndSetContent_plain_witness :
  parseAndSetContent (str " Lesson one ") = mkContent (str "Lesson one") [] [] [].
Proof.
  apply (parseAndSetContent_plain (str " Lesson one ")).
  repeat constructor; discriminate.
Defined.

(** X23.  Content made of a booklet, the podcast tag, a script, the show
    notes tag, the notes, the teaser tag and a teaser is split back into its
    four parts, each trimmed, when booklet, script and notes hold no tag
    start. *)
Theorem parseAndSetContent_sections (booklet podcast notes teaser : jstr) :
  tagless booklet -> tagless podcast -> tagless notes ->
  parseAndSetContent
    (booklet ++ SECTION_PODCAST ++ podcast ++ SECTION_SHOWNOTES ++ notes
     ++ SECTION_TEASER ++ teaser)
  = mkContent (trim booklet) (trim podcast) (trim notes) (trim teaser).
Proof.
  intros Hb Hp Hn.
  assert (tagless (tl SECTION_PODCAST)) as HP by (repeat constructor; discriminate).
  assert (tagless (tl SECTION_SHOWNOTES)) as HS by (repeat constructor; discriminate).
  unfold parseAndSetContent.
  (* the teaser *)
  assert (cut SECTION_TEASER
              (booklet ++ SECTION_PODCAST ++ podcast ++ SECTION_SHOWNOTES ++ notes
               ++ SECTION_TEASER ++ teaser)
          = (booklet ++ SECTION_PODCAST ++ podcast ++ SECTION_SHOWNOTES ++ notes,
             trim teaser)) as ->.
  { replace (booklet ++ SECTION_PODCAST ++ podcast ++ SECTION_SHOWNOTES ++ notes
             ++ SECTION_TEASER ++ teaser)
      with ((booklet ++ SECTION_PODCAST ++ podcast ++ SECTION_SHOWNOTES ++ notes)
            ++ SECTION_TEASER ++ teaser)
      by (rewrite <- !app_assoc; reflexivity).
    apply cut_at.
    - unfold indexOf. rewrite <- !app_assoc.
      change SECTION_TEASER with (60%N :: tl SECTION_TEASER) at 1 2.
      rewrite (indexOf_skip _ booklet _ 0 Hb).
      change SECTION_PODCAST with (60%N :: tl SECTION_PODCAST).
      rewrite (indexOf_skip_marker _ _ _ _ HP) by reflexivity.
      rewrite (indexOf_skip _ podcast _ _ Hp).
      change SECTION_SHOWNOTES with (60%N :: tl SECTION_SHOWNOTES).
      rewrite (indexOf_skip_marker _ _ _ _ HS) by reflexivity.
      rewrite (indexOf_skip _ notes _ _ Hn).
      change (60%N :: tl SECTION_TEASER) with SECTION_TEASER.
      rewrite indexOf_here. f_equal. rewrite !length_app. cbn [length]. lia. }
  (* the show notes *)
  assert (cut SECTION_SHOWNOTES
              (booklet ++ SECTION_PODCAST ++ podcast ++ SECTION_SHOWNOTES ++ notes)
          = (booklet ++ SECTION_PODCAST ++ podcast, trim notes)) as ->.
  { replace (booklet ++ SECTION_PODCAST ++ podcast ++ SECTION_SHOWNOTES ++ notes)
      with ((booklet ++ SECTION_PODCAST ++ podcast) ++ SECTION_SHOWNOTES ++ notes)
      by (rewrite <- !app_assoc; reflexivity).
    apply cut_at.
    - unfold indexOf. rewrite <- !app_assoc.
      change SECTION_SHOWNOTES with (60%N :: tl SECTION_SHOWNOTES) at 1 2.
      rewrite (indexOf_skip _ booklet _ 0 Hb).
      change SECTION_PODCAST with (60%N :: tl SECTION_PODCAST).
      rewrite (indexOf_skip_marker _ _ _ _ HP) by reflexivity.
      rewrite (indexOf_skip _ podcast _ _ Hp).
      change (60%N :: tl SECTION_SHOWNOTES) with SECTION_SHOWNOTES.
      rewrite indexOf_here. f_equal. rewrite !length_app. cbn [length]. lia. }
  (* the podcast script *)
  assert (cut SECTION_PODCAST (booklet ++ SECTION_PODCAST ++ podcast)
          = (booklet, trim podcast)) as ->.
  { apply (cut_at SECTION_PODCAST booklet podcast).
    unfold indexOf.
    change SECTION_PODCAST with (60%N :: tl SECTION_PODCAST) at 1 2.
    rewrite (indexOf_skip _ booklet _ 0 Hb).
    change (60%N :: tl SECTION_PODCAST) with SECTION_PODCAST.
    rewrite indexOf_here. reflexivity. }
  rewrite (strip_tags_tagless booklet Hb). reflexivity.
Qed.

Lemma parseAndSetContent_sections_witness :
  parseAndSetContent
    (str "Unit 1 " ++ SECTION_PODCAST ++ str " Hi! " ++ SECTION_SHOWNOTES ++ str "notes"
     ++ SECTION_TEASER ++ str " <b>New</b> episode")
  = mkContent (str "Unit 1") (str "Hi!") (str "notes") (str "<b>New</b> episode").
Proof.
  apply (parseAndSetContent_sections (str "Unit 1 ") (str " Hi! ") (str "notes")
                                     (str " <b>New</b> episode"));
    repeat constructor; discriminate.
Defined.

(* ================================================================== *)
(** ** Loads that migrate *)
(* ================================================================== *)

Lemma lookup_none_keys (k : jstr) (l : list (jstr * json)) :
  lookup k l = None -> Forall (fun k' => k' <> k) (map fst l).
Proof.
  induction l as [|[k' v] l IH]; [constructor|]. cbn [lookup map fst].
  destruct (jstr_eqb k' k) eqn:E; [discriminate|]. intros H.
  constructor; [|exact (IH H)].
  intros ->. rewrite jstr_eqb_refl in E. discriminate.
Qed.

(** Filling defaults in keeps an object well formed. *)
Lemma fill_well_formed (canon : jstr -> jstr) (defaults : list (string * json))
      (o : list (jstr * json)) :
  Forall (fun kv => array_index (str (fst kv)) = None /\ well_formed canon (snd kv))
         defaults ->
  well_formed canon (JObj o) ->
  well_formed canon
    (JObj (fold_left (fun o kv => default_if_absent (fst kv) (snd kv) o) defaults o)).
Proof.
  intros Hd. revert o. induction Hd as [|[n v] defaults [Hn Hv] _ IH]; intros o Ho;
    [exact Ho|].
  cbn [fold_left fst snd] in *. apply IH.
  unfold default_if_absent, has_key. destruct (lookup (str n) o) eqn:E; [exact Ho|].
  unfold obj_set, has_key. rewrite E, Hn.
  inversion Ho as [ | | | | | | ? Hs Hl ]; subst. constructor.
  - rewrite map_app. cbn [map fst]. apply StronglySorted_snoc; [exact Hs|].
    eapply Forall_impl; [|apply (lookup_none_keys _ _ E)].
    intros k' Hne. split; [exact Hne|]. rewrite Hn. exact I.
  - apply Forall_app. split; [exact Hl|]. constructor; [exact Hv | constructor].
Qed.

Lemma migrateState_well_formed (canon : jstr -> jstr) (d : list (jstr * json)) :
  well_formed canon (JObj d) ->
  well_formed canon (JObj (AppStorePersist.migrateState (JObj d))).
Proof.
  apply fill_well_formed.
  repeat (apply Forall_cons; [split; [reflexivity | apply well_formedb_true; reflexivity]|]).
  apply Forall_nil.
Qed.

Lemma migrateSession_well_formed (canon : jstr -> jstr) (d : list (jstr * json)) :
  well_formed canon (JObj d) ->
  well_formed canon
    (JObj (fold_left (fun o kv => default_if_absent (fst kv) (snd kv) o)
                     AppStore.migration_defaults d)).
Proof.
  apply fill_well_formed.
  repeat (apply Forall_cons; [split; [reflexivity | apply well_formedb_true; reflexivity]|]).
  apply Forall_nil.
Qed.

(** X24.  A load of [loadPersistedState] that finds data of another version
    under a right checksum returns the migrated data and saves it again; the
    load after that needs no migration: it returns the saved projection of
    the migrated data, which carries the current version. *)
Theorem migrating_load_resaves
        (canon : jstr -> jstr) (createHash : option jstr -> option jstr)
        (s : Storage) (raw : jstr) (parsed : json) (d : list (jstr * json)) :
  cells s SESSION_KEY = Some raw -> is_empty raw = false ->
  JSON_parse canon raw = Some parsed ->
  is_object_type parsed = true ->
  get parsed (str "data") = JObj d ->
  well_formedb canon (JObj d) = true ->
  get parsed (str "checksum")
  = JStr (AppStorePersist.calculateChecksum createHash (JObj d)) ->
  get (JObj d) (str "version") <> JStr AppStorePersist.SESSION_VERSION ->
  accepts s SESSION_KEY
          (ser (AppStorePersist.buildPersistSnapshot createHash
                  (JObj (AppStorePersist.migrateState (JObj d))))) = true ->
  let migrated := JObj (AppStorePersist.migrateState (JObj d)) in
  let w1 := AppStorePersist.savePersistedState createHash (Some s) migrated in
  AppStorePersist.loadPersistedState canon createHash (Some s) = (Some migrated, w1)
  /\ AppStorePersist.loadPersistedState canon createHash w1
     = (Some (norm (AppStorePersist.core_of migrated)), w1)
  /\ get (norm (AppStorePersist.core_of migrated)) (str "version")
     = JStr AppStorePersist.SESSION_VERSION.
Proof.
  intros Hcell Hne Hparse Hobj Hdata Hwf Hsum Hver Hacc migrated w1.
  apply well_formedb_true in Hwf.
  split; [|split].
  - unfold AppStorePersist.loadPersistedState, AppStorePersist.STORAGE_KEY.
    cbn [getItem]. rewrite Hcell, Hne, Hparse.
    unfold is_envelope. rewrite Hobj, Hdata, Hsum. cbn [truthy is_string andb negb].
    rewrite is_str_refl. cbn [negb].
    destruct (is_str AppStorePersist.SESSION_VERSION (get (JObj d) (str "version"))) eqn:E.
    + apply is_str_eq in E. contradiction.
    + reflexivity.
  - apply load_saved.
    + apply migrateState_well_formed, Hwf.
    + apply save_writes, Hacc.
  - destruct (core_of_shape migrated) as (l & E). rewrite E.
    rewrite norm_obj_cons by discriminate. apply get_head.
Qed.

Lemma migrating_load_resaves_witness :
  get (norm (AppStorePersist.core_of
               (JObj (AppStorePersist.migrateState state_older)))) (str "version")
  = JStr AppStorePersist.SESSION_VERSION.
Proof.
  refine (proj2 (proj2
    (migrating_load_resaves canon_id digest_id (storing older_text) older_text
       (obj [ ("data"%string, state_older);
              ("checksum"%string,
               JStr (AppStorePersist.calculateChecksum digest_id state_older)) ])
       [ (str "version", text "2.0.0"); (str "topic", text "Travel") ]
       _ _ _ _ _ _ _ _ _))); try (vm_compute; reflexivity).
  vm_compute. discriminate.
Defined.

(** X25.  The same for [persistLoad]: an envelope of another version under a
    right checksum is migrated and stored again as an envelope of the current
    version, which the next load returns as it is, without a migration. *)
Theorem migrating_persistLoad_resaves
        (canon : jstr -> jstr) (SHA256 : option jstr -> option jstr)
        (s : Storage) (raw : jstr) (parsed : json) (d : list (jstr * json)) :
  cells s SESSION_KEY = Some raw -> is_empty raw = false ->
  JSON_parse canon raw = Some parsed ->
  truthy parsed = true -> is_object_type parsed = true ->
  get parsed (str "data") = JObj d ->
  well_formedb canon (JObj d) = true ->
  get parsed (str "checksum")
  = JStr (AppStore.calculateChecksum SHA256
            (AppStore.signed (get parsed (str "version")) (JObj d))) ->
  truthy (get parsed (str "version")) = true ->
  is_string (get parsed (str "version")) = true ->
  get parsed (str "version") <> JStr AppStore.SESSION_VERSION ->
  let migrated :=
    JObj (fold_left (fun o kv => default_if_absent (fst kv) (snd kv) o)
                    AppStore.migration_defaults d) in
  accepts s SESSION_KEY (ser (AppStore.envelope_of SHA256 migrated)) = true ->
  let w1 := fst (setItem (Some s) SESSION_KEY (ser (AppStore.envelope_of SHA256 migrated))) in
  AppStore.persistLoad canon SHA256 (Some s) = (Some migrated, w1)
  /\ AppStore.persistLoad canon SHA256 w1 = (Some (norm migrated), w1).
Proof.
  intros Hcell Hne Hparse Ht Hobj Hdata Hwf Hsum Hvt Hvs Hver migrated Hacc w1.
  apply well_formedb_true in Hwf.
  split.
  - unfold AppStore.persistLoad. cbn [getItem]. rewrite Hcell, Hne, Hparse, Ht.
    unfold is_envelope. rewrite Hobj, Hdata, Hsum. cbn [truthy is_string andb negb orb].
    rewrite is_str_refl. cbn [negb].
    destruct (is_str AppStore.SESSION_VERSION (get parsed (str "version"))) eqn:E.
    + apply is_str_eq in E. contradiction.
    + cbn [negb]. rewrite (migrateSession_some parsed Hobj Ht Hvt Hvs), Hdata.
      reflexivity.
  - assert (well_formed canon migrated) as Hm by apply migrateSession_well_formed, Hwf.
    assert (migrated <> JUndef) as Hd by discriminate.
    apply (persist_load_envelope canon SHA256 w1
             (ser (AppStore.envelope_of SHA256 migrated)) migrated (norm migrated)).
    + apply (getItem_setItem s SESSION_KEY _ Hacc).
    + reflexivity.
    + apply envelope_parses; assumption.
    + reflexivity.
    + apply signed_norm, Hd.
Qed.

Lemma migrating_persistLoad_resaves_witness :
  let migrated :=
    JObj (fold_left (fun o kv => default_if_absent (fst kv) (snd kv) o)
                    AppStore.migration_defaults
                    [ (str "level", text "B1"); (str "topic", text "Travel") ]) in
  AppStore.persistLoad canon_id digest_id (Some (storing older_text2))
  = (Some migrated,
     fst (setItem (Some (storing older_text2)) SESSION_KEY
            (ser (AppStore.envelope_of digest_id migrated)))).
Proof.
  refine (proj1
    (migrating_persistLoad_resaves canon_id digest_id (storing older_text2) older_text2
       (obj [ ("version"%string, text "3.0.0");
              ("data"%string, state_small);
              ("checksum"%string,
               JStr (AppStore.calculateChecksum digest_id
                       (AppStore.signed (text "3.0.0") state_small))) ])
       [ (str "level", text "B1"); (str "topic", text "Travel") ]
       _ _ _ _ _ _ _ _ _ _ _ _)); try (vm_compute; reflexivity).
  vm_compute. discriminate.
Defined.
